(** * Shape engine: object store, scene reconciliation, kinetic simulator

    Shallow embedding of [src/src/App.tsx] (the multi-object scene editor).

    Conventions of the embedding:
    - a JS [number] is a real number ([R]); rounding, NaN and infinities of
      binary64 are not modelled, [Math.sqrt], [Math.abs], [Math.sin] and
      [Math.cos] are the real functions, [Math.pow(a, 2)] is [a ^ 2];
    - a JS string is a [string]; [string | null] is [option string];
    - the [Map<string, THREE.Mesh>] held by [meshesRef] is a [gmap string];
    - a THREE object that the code compares by identity (a mesh inside the
      scene graph) carries a node handle, a natural number handed out by a
      counter;
    - the calls into the graphics library that allocate or release a
      resource are recorded as a list of [Event]s returned by the pass;
    - [Math.random()] and [Date.now()] are inputs of the operations that
      read them. *)

From Stdlib Require Import Reals Lra Lia ZArith.
From stdpp Require Import gmap strings list pretty.

Open Scope R_scope.

(** ** Numbers *)

#[global] Instance number_eq_dec : EqDecision R := Req_dec_T.
#[global] Instance number_lt_dec : RelDecision Rlt := Rlt_dec.
#[global] Instance number_gt_dec : RelDecision Rgt := fun a b => Rlt_dec b a.

(** [a || b] on numbers: [a] unless it is falsy, that is zero. *)
Definition number_or (a b : R) : R := if decide (a = 0) then b else a.

(** ** Types *)

(** [ShapeType] is a TypeScript union of thirteen string literals; at run
    time a shape kind is a string, and [createGeometry] has a [default]
    branch for the strings outside the union. *)
Definition ShapeType_names : list string :=
  ["sphere"; "cylinder"; "cube"; "cone"; "torus"; "pyramid"; "prism";
   "pentagonalPrism"; "hexagonalPrism"; "octagonalPrism"; "tetrahedron";
   "dodecahedron"; "icosahedron"]%string.

Inductive MovementMode :=
| mode_none | mode_straight | mode_left_right | mode_up_down
| mode_returning | mode_orbit.

Inductive TextureType :=
| tex_noise | tex_none | tex_checkerboard | tex_dots | tex_stripes.

Inductive TransformMode := translate | rotate | scale_mode.

#[global] Instance MovementMode_eq_dec : EqDecision MovementMode.
Proof. solve_decision. Defined.
#[global] Instance TextureType_eq_dec : EqDecision TextureType.
Proof. solve_decision. Defined.

(** A [[number, number, number]] array. *)
Abbreviation Triple := (R * R * R)%type.

Module ShapeObject.
Record t := mk {
  id : string;
  type : string;
  position : Triple;
  rotation : Triple;
  scale : Triple;
  color : string;
  texture : TextureType;
  metalness : R;
  roughness : R;
  emissive : string;
  emissiveIntensity : R;
  opacity : R;
  radius : R;
  height : R;
  name : string;
  isAnimated : bool;
  movementMode : MovementMode;
  movementSpeed : R;
  movementRange : R;
  originalPosition : Triple
}.
End ShapeObject.

(** One [key: value] entry of an object literal of type
    [Partial<ShapeObject>]. *)
Inductive Field :=
| f_id (v : string)
| f_type (v : string)
| f_position (v : Triple)
| f_rotation (v : Triple)
| f_scale (v : Triple)
| f_color (v : string)
| f_texture (v : TextureType)
| f_metalness (v : R)
| f_roughness (v : R)
| f_emissive (v : string)
| f_emissiveIntensity (v : R)
| f_opacity (v : R)
| f_radius (v : R)
| f_height (v : R)
| f_name (v : string)
| f_isAnimated (v : bool)
| f_movementMode (v : MovementMode)
| f_movementSpeed (v : R)
| f_movementRange (v : R)
| f_originalPosition (v : Triple).

(** [{...o, key: value}] for one key. *)
Definition assign (o : ShapeObject.t) (f : Field) : ShapeObject.t :=
  let '(ShapeObject.mk a1 a2 a3 a4 a5 a6 a7 a8 a9 a10
                       a11 a12 a13 a14 a15 a16 a17 a18 a19 a20) := o in
  match f with
  | f_id v => ShapeObject.mk v a2 a3 a4 a5 a6 a7 a8 a9 a10 a11 a12 a13 a14 a15 a16 a17 a18 a19 a20
  | f_type v => ShapeObject.mk a1 v a3 a4 a5 a6 a7 a8 a9 a10 a11 a12 a13 a14 a15 a16 a17 a18 a19 a20
  | f_position v => ShapeObject.mk a1 a2 v a4 a5 a6 a7 a8 a9 a10 a11 a12 a13 a14 a15 a16 a17 a18 a19 a20
  | f_rotation v => ShapeObject.mk a1 a2 a3 v a5 a6 a7 a8 a9 a10 a11 a12 a13 a14 a15 a16 a17 a18 a19 a20
  | f_scale v => ShapeObject.mk a1 a2 a3 a4 v a6 a7 a8 a9 a10 a11 a12 a13 a14 a15 a16 a17 a18 a19 a20
  | f_color v => ShapeObject.mk a1 a2 a3 a4 a5 v a7 a8 a9 a10 a11 a12 a13 a14 a15 a16 a17 a18 a19 a20
  | f_texture v => ShapeObject.mk a1 a2 a3 a4 a5 a6 v a8 a9 a10 a11 a12 a13 a14 a15 a16 a17 a18 a19 a20
  | f_metalness v => ShapeObject.mk a1 a2 a3 a4 a5 a6 a7 v a9 a10 a11 a12 a13 a14 a15 a16 a17 a18 a19 a20
  | f_roughness v => ShapeObject.mk a1 a2 a3 a4 a5 a6 a7 a8 v a10 a11 a12 a13 a14 a15 a16 a17 a18 a19 a20
  | f_emissive v => ShapeObject.mk a1 a2 a3 a4 a5 a6 a7 a8 a9 v a11 a12 a13 a14 a15 a16 a17 a18 a19 a20
  | f_emissiveIntensity v => ShapeObject.mk a1 a2 a3 a4 a5 a6 a7 a8 a9 a10 v a12 a13 a14 a15 a16 a17 a18 a19 a20
  | f_opacity v => ShapeObject.mk a1 a2 a3 a4 a5 a6 a7 a8 a9 a10 a11 v a13 a14 a15 a16 a17 a18 a19 a20
  | f_radius v => ShapeObject.mk a1 a2 a3 a4 a5 a6 a7 a8 a9 a10 a11 a12 v a14 a15 a16 a17 a18 a19 a20
  | f_height v => ShapeObject.mk a1 a2 a3 a4 a5 a6 a7 a8 a9 a10 a11 a12 a13 v a15 a16 a17 a18 a19 a20
  | f_name v => ShapeObject.mk a1 a2 a3 a4 a5 a6 a7 a8 a9 a10 a11 a12 a13 a14 v a16 a17 a18 a19 a20
  | f_isAnimated v => ShapeObject.mk a1 a2 a3 a4 a5 a6 a7 a8 a9 a10 a11 a12 a13 a14 a15 v a17 a18 a19 a20
  | f_movementMode v => ShapeObject.mk a1 a2 a3 a4 a5 a6 a7 a8 a9 a10 a11 a12 a13 a14 a15 a16 v a18 a19 a20
  | f_movementSpeed v => ShapeObject.mk a1 a2 a3 a4 a5 a6 a7 a8 a9 a10 a11 a12 a13 a14 a15 a16 a17 v a19 a20
  | f_movementRange v => ShapeObject.mk a1 a2 a3 a4 a5 a6 a7 a8 a9 a10 a11 a12 a13 a14 a15 a16 a17 a18 v a20
  | f_originalPosition v => ShapeObject.mk a1 a2 a3 a4 a5 a6 a7 a8 a9 a10 a11 a12 a13 a14 a15 a16 a17 a18 a19 v
  end.

(** [{...o, ...updates}]: the keys of [updates] are copied over [o] in
    order. *)
Definition spread (o : ShapeObject.t) (updates : list Field) : ShapeObject.t :=
  foldl assign o updates.

(** ** GeometryFactory *)

(** The THREE geometry constructors [createGeometry] calls, with the
    arguments it passes. *)
Inductive Geometry :=
| SphereGeometry (radius widthSegments heightSegments : R)
| CylinderGeometry (radiusTop radiusBottom height radialSegments : R)
| BoxGeometry (width height depth : R)
| ConeGeometry (radius height radialSegments : R)
| TorusGeometry (radius tube radialSegments tubularSegments : R)
| TetrahedronGeometry (radius : R)
| DodecahedronGeometry (radius : R)
| IcosahedronGeometry (radius : R).

Definition createGeometry (type : string) (radius height : R) : Geometry :=
  if decide (type = "sphere") then SphereGeometry radius 64 64
  else if decide (type = "cylinder") then CylinderGeometry radius radius height 64
  else if decide (type = "cube") then BoxGeometry (radius * 2) (radius * 2) (radius * 2)
  else if decide (type = "cone") then ConeGeometry radius height 64
  else if decide (type = "torus") then TorusGeometry radius (radius / 3) 64 64
  else if decide (type = "pyramid") then ConeGeometry radius height 4
  else if decide (type = "prism") then CylinderGeometry radius radius height 3
  else if decide (type = "pentagonalPrism") then CylinderGeometry radius radius height 5
  else if decide (type = "hexagonalPrism") then CylinderGeometry radius radius height 6
  else if decide (type = "octagonalPrism") then CylinderGeometry radius radius height 8
  else if decide (type = "tetrahedron") then TetrahedronGeometry radius
  else if decide (type = "dodecahedron") then DodecahedronGeometry radius
  else if decide (type = "icosahedron") then IcosahedronGeometry radius
  else SphereGeometry radius 64 64.

(** ** Live scene nodes *)

(** A [THREE.Vector3] (also used for the [x], [y], [z] of a [THREE.Euler]). *)
Module Vector3.
Record t := mk { x : R; y : R; z : R }.

(** [v.set(...a)] for a three-element array [a]. *)
Definition set (a : Triple) : t :=
  let '(a0, a1, a2) := a in mk a0 a1 a2.
End Vector3.

(** The fields of a [THREE.MeshStandardMaterial] the code writes. [map] is
    the texture handle, named by the key of [textures] it was read from;
    [None] is [null]. *)
Module Material.
Record t := mk {
  color : string;
  metalness : R;
  roughness : R;
  emissive : string;
  emissiveIntensity : R;
  transparent : bool;
  opacity : R;
  map : option TextureType;
  doubleSide : bool
}.
End Material.

(** [mesh.userData]: the shape parameters the geometry was last built from. *)
Module UserData.
Record t := mk { type : string; radius : R; height : R }.
End UserData.

#[global] Instance UserData_eq_dec : EqDecision UserData.t.
Proof. solve_decision. Defined.

Module Mesh.
Record t := mk {
  node : nat;
  position : Vector3.t;
  rotation : Vector3.t;
  scale : Vector3.t;
  geometry : Geometry;
  material : Material.t;
  castShadow : bool;
  receiveShadow : bool;
  userData : UserData.t
}.
End Mesh.

(** The closure handed to [setTimeout(..., 0)] by the returning mode: it
    captures [obj.id] and the home [ox, oy, oz]. *)
Record Timer := mkTimer { timer_id : string; timer_home : Triple }.

(** Calls into the graphics library that allocate or release a resource or
    change the scene graph. *)
Inductive Event :=
| NewGeometry (g : Geometry)
| NewMaterial (m : Material.t)
| DisposeGeometry (g : Geometry)
| DisposeMaterial (m : Material.t)
| SceneAdd (n : nat)
| SceneRemove (n : nat).

(** The mutable state behind the refs of [App]: [isInitialized] (with
    [sceneRef] and [texturesRef], which the mount effect assigns just before
    it sets the flag), [meshesRef.current], the meshes among the children of
    the scene, the scene's own rotation, the object the transform controls
    are attached to with their mode, and the pending zero-delay timers. *)
Record Engine := mkEngine {
  isInitialized : bool;
  meshes : gmap string Mesh.t;
  sceneMeshes : list nat;
  sceneRotationY : R;
  nextNode : nat;
  attached : option nat;
  gizmoMode : TransformMode;
  timers : list Timer
}.

(** The React state the two effects and the handlers read. *)
Record AppState := mkApp {
  objects : list ShapeObject.t;
  selectedId : option string;
  autoRotate : bool;
  rotationSpeed : R;
  transformMode : TransformMode;
  showGizmo : bool
}.

(** Truthiness of a [string | null]: neither [null] nor the empty string. *)
Definition truthy (s : option string) : bool :=
  match s with
  | Some s => bool_decide (s ≠ ""%string)
  | None => false
  end.

Definition ids (objs : list ShapeObject.t) : list string :=
  ShapeObject.id <$> objs.

(** ** SceneSynchronizer: the update-objects effect *)

Definition textureMap (tex : TextureType) : option TextureType :=
  if decide (tex = tex_none) then None else Some tex.

(** [new THREE.MeshStandardMaterial({...})] *)
Definition newMaterial (obj : ShapeObject.t) : Material.t :=
  {| Material.color := ShapeObject.color obj;
     Material.metalness := ShapeObject.metalness obj;
     Material.roughness := ShapeObject.roughness obj;
     Material.emissive := ShapeObject.emissive obj;
     Material.emissiveIntensity := ShapeObject.emissiveIntensity obj;
     Material.transparent := bool_decide (ShapeObject.opacity obj < 1);
     Material.opacity := ShapeObject.opacity obj;
     Material.map := textureMap (ShapeObject.texture obj);
     Material.doubleSide := true |}.

(** The assignments to [mat] in the update branch. *)
Definition updateMaterial (mat : Material.t) (obj : ShapeObject.t) : Material.t :=
  {| Material.color := ShapeObject.color obj;
     Material.metalness := ShapeObject.metalness obj;
     Material.roughness := ShapeObject.roughness obj;
     Material.emissive := ShapeObject.emissive obj;
     Material.emissiveIntensity := ShapeObject.emissiveIntensity obj;
     Material.transparent := bool_decide (ShapeObject.opacity obj < 1);
     Material.opacity := ShapeObject.opacity obj;
     Material.map := textureMap (ShapeObject.texture obj);
     Material.doubleSide := Material.doubleSide mat |}.

Definition shapeParams (obj : ShapeObject.t) : UserData.t :=
  UserData.mk (ShapeObject.type obj) (ShapeObject.radius obj) (ShapeObject.height obj).

(** [currentType !== obj.type || currentRadius !== obj.radius ||
    currentHeight !== obj.height] *)
Definition paramsChanged (ud : UserData.t) (obj : ShapeObject.t) : bool :=
  bool_decide (UserData.type ud ≠ ShapeObject.type obj)
  || bool_decide (UserData.radius ud ≠ ShapeObject.radius obj)
  || bool_decide (UserData.height ud ≠ ShapeObject.height obj).

(** [new THREE.Mesh(geometry, material)] with the two shadow flags and
    [userData] set. Position and rotation of a new [Object3D] are zero and
    its scale is one; the creation branch does not write them. *)
Definition newMesh (n : nat) (obj : ShapeObject.t) : Mesh.t :=
  {| Mesh.node := n;
     Mesh.position := Vector3.mk 0 0 0;
     Mesh.rotation := Vector3.mk 0 0 0;
     Mesh.scale := Vector3.mk 1 1 1;
     Mesh.geometry :=
       createGeometry (ShapeObject.type obj) (ShapeObject.radius obj) (ShapeObject.height obj);
     Mesh.material := newMaterial obj;
     Mesh.castShadow := true;
     Mesh.receiveShadow := true;
     Mesh.userData := shapeParams obj |}.

(** The update branch up to the geometry check: "Update basic props". *)
Definition updateBasicProps (mesh : Mesh.t) (obj : ShapeObject.t) : Mesh.t :=
  {| Mesh.node := Mesh.node mesh;
     Mesh.position := Vector3.set (ShapeObject.position obj);
     Mesh.rotation := Vector3.set (ShapeObject.rotation obj);
     Mesh.scale := Vector3.set (ShapeObject.scale obj);
     Mesh.geometry := Mesh.geometry mesh;
     Mesh.material := updateMaterial (Mesh.material mesh) obj;
     Mesh.castShadow := Mesh.castShadow mesh;
     Mesh.receiveShadow := Mesh.receiveShadow mesh;
     Mesh.userData := Mesh.userData mesh |}.

(** "Reset geometry if type/params changed". *)
Definition resetGeometry (mesh : Mesh.t) (obj : ShapeObject.t) : Mesh.t :=
  {| Mesh.node := Mesh.node mesh;
     Mesh.position := Mesh.position mesh;
     Mesh.rotation := Mesh.rotation mesh;
     Mesh.scale := Mesh.scale mesh;
     Mesh.geometry :=
       createGeometry (ShapeObject.type obj) (ShapeObject.radius obj) (ShapeObject.height obj);
     Mesh.material := Mesh.material mesh;
     Mesh.castShadow := Mesh.castShadow mesh;
     Mesh.receiveShadow := Mesh.receiveShadow mesh;
     Mesh.userData := shapeParams obj |}.

Definition set_meshes (f : gmap string Mesh.t → gmap string Mesh.t) (e : Engine) : Engine :=
  mkEngine (isInitialized e) (f (meshes e)) (sceneMeshes e) (sceneRotationY e)
           (nextNode e) (attached e) (gizmoMode e) (timers e).

Definition set_sceneMeshes (f : list nat → list nat) (e : Engine) : Engine :=
  mkEngine (isInitialized e) (meshes e) (f (sceneMeshes e)) (sceneRotationY e)
           (nextNode e) (attached e) (gizmoMode e) (timers e).

Definition set_sceneRotationY (f : R → R) (e : Engine) : Engine :=
  mkEngine (isInitialized e) (meshes e) (sceneMeshes e) (f (sceneRotationY e))
           (nextNode e) (attached e) (gizmoMode e) (timers e).

Definition set_nextNode (f : nat → nat) (e : Engine) : Engine :=
  mkEngine (isInitialized e) (meshes e) (sceneMeshes e) (sceneRotationY e)
           (f (nextNode e)) (attached e) (gizmoMode e) (timers e).

Definition set_gizmo (a : option nat) (m : TransformMode) (e : Engine) : Engine :=
  mkEngine (isInitialized e) (meshes e) (sceneMeshes e) (sceneRotationY e)
           (nextNode e) a m (timers e).

Definition set_timers (f : list Timer → list Timer) (e : Engine) : Engine :=
  mkEngine (isInitialized e) (meshes e) (sceneMeshes e) (sceneRotationY e)
           (nextNode e) (attached e) (gizmoMode e) (f (timers e)).

(** The callback of [meshesRef.current.forEach] in "Remove meshes no longer
    in state": [scene.remove(mesh)], the two [dispose] calls and
    [meshesRef.current.delete(id)]. *)
Definition removeStale (currentIds : gset string)
    (acc : Engine * list Event) (entry : string * Mesh.t) : Engine * list Event :=
  if decide (entry.1 ∈ currentIds) then acc
  else
    (set_meshes (delete entry.1)
       (set_sceneMeshes (filter (λ n, n ≠ Mesh.node entry.2)) acc.1),
     acc.2 ++ [SceneRemove (Mesh.node entry.2);
               DisposeGeometry (Mesh.geometry entry.2);
               DisposeMaterial (Mesh.material entry.2)]).

(** The callback of [objects.forEach] in "Add or update meshes". *)
Definition syncObject (acc : Engine * list Event) (obj : ShapeObject.t)
    : Engine * list Event :=
  match meshes acc.1 !! ShapeObject.id obj with
  | None =>
      let mesh := newMesh (nextNode acc.1) obj in
      (set_meshes <[ShapeObject.id obj := mesh]>
         (set_sceneMeshes (λ l, l ++ [Mesh.node mesh])
            (set_nextNode S acc.1)),
       acc.2 ++ [NewGeometry (Mesh.geometry mesh);
                 NewMaterial (Mesh.material mesh);
                 SceneAdd (Mesh.node mesh)])
  | Some mesh =>
      let mesh1 := updateBasicProps mesh obj in
      if paramsChanged (Mesh.userData mesh1) obj then
        let mesh2 := resetGeometry mesh1 obj in
        (set_meshes <[ShapeObject.id obj := mesh2]> acc.1,
         acc.2 ++ [DisposeGeometry (Mesh.geometry mesh1);
                   NewGeometry (Mesh.geometry mesh2)])
      else
        (set_meshes <[ShapeObject.id obj := mesh1]> acc.1, acc.2)
  end.

(** "Update Transform Controls selection". *)
Definition updateGizmo (st : AppState) (e : Engine) : Engine :=
  if truthy (selectedId st) && showGizmo st then
    match selectedId st ≫= (λ i, meshes e !! i) with
    | Some selectedMesh => set_gizmo (Some (Mesh.node selectedMesh)) (transformMode st) e
    | None => set_gizmo None (gizmoMode e) e
    end
  else set_gizmo None (gizmoMode e) e.

(** The update-objects effect, run for the render whose state is [st]. It
    returns the new engine state and the graphics calls it made. *)
Definition updateObjectsEffect (st : AppState) (e : Engine) : Engine * list Event :=
  if negb (isInitialized e) then (e, [])
  else
    let currentIds : gset string := list_to_set (ids (objects st)) in
    let removed := foldl (removeStale currentIds) (e, []) (map_to_list (meshes e)) in
    let synced := foldl syncObject removed (objects st) in
    (updateGizmo st synced.1, synced.2).

(** Counters over the graphics calls of a pass. *)
Definition isGeometryAllocation (ev : Event) : bool :=
  match ev with NewGeometry _ => true | _ => false end.

Definition isDisposal (ev : Event) : bool :=
  match ev with DisposeGeometry _ | DisposeMaterial _ => true | _ => false end.

Definition geometryAllocations (evs : list Event) : nat :=
  length (filter (λ ev, isGeometryAllocation ev = true) evs).

Definition disposals (evs : list Event) : nat :=
  length (filter (λ ev, isDisposal ev = true) evs).

(** ** KineticSimulator: the per-object part of [animate] *)

Definition with_position (p : Vector3.t) (mesh : Mesh.t) : Mesh.t :=
  Mesh.mk (Mesh.node mesh) p (Mesh.rotation mesh) (Mesh.scale mesh) (Mesh.geometry mesh)
          (Mesh.material mesh) (Mesh.castShadow mesh) (Mesh.receiveShadow mesh)
          (Mesh.userData mesh).

Definition with_rotation (r : Vector3.t) (mesh : Mesh.t) : Mesh.t :=
  Mesh.mk (Mesh.node mesh) (Mesh.position mesh) r (Mesh.scale mesh) (Mesh.geometry mesh)
          (Mesh.material mesh) (Mesh.castShadow mesh) (Mesh.receiveShadow mesh)
          (Mesh.userData mesh).

(** "Basic Rotation": [mesh.rotation.y += 0.01] when [obj.isAnimated]. *)
Definition spin (obj : ShapeObject.t) (mesh : Mesh.t) : Mesh.t :=
  if ShapeObject.isAnimated obj then
    with_rotation
      (Vector3.mk (Vector3.x (Mesh.rotation mesh))
                  (Vector3.y (Mesh.rotation mesh) + 0.01)
                  (Vector3.z (Mesh.rotation mesh))) mesh
  else mesh.

(** The [dist] of the returning mode: the Euclidean distance from a node
    position to the home [o]. *)
Definition distanceTo (o : Triple) (p : Vector3.t) : R :=
  sqrt ((o.1.1 - Vector3.x p) ^ 2 + (o.1.2 - Vector3.y p) ^ 2 + (o.2 - Vector3.z p) ^ 2).

(** The [switch (obj.movementMode)]: the new node position and whether the
    returning mode has arrived (and so schedules its commit). *)
Definition move (time : R) (obj : ShapeObject.t) (p : Vector3.t) : Vector3.t * bool :=
  let '(ox, oy, oz) := ShapeObject.originalPosition obj in
  let speed := ShapeObject.movementSpeed obj in
  let range := ShapeObject.movementRange obj in
  match ShapeObject.movementMode obj with
  | mode_none => (p, false)
  | mode_straight =>
      let z1 := Vector3.z p + 0.02 * speed in
      (Vector3.mk (Vector3.x p) (Vector3.y p)
         (if decide (Rabs (z1 - oz) > 50) then oz - 50 else z1), false)
  | mode_left_right =>
      (Vector3.mk (ox + sin (time * speed * 2) * range) (Vector3.y p) (Vector3.z p), false)
  | mode_up_down =>
      (Vector3.mk (Vector3.x p) (oy + sin (time * speed * 2) * range) (Vector3.z p), false)
  | mode_returning =>
      let step := 0.05 * speed in
      let p1 := Vector3.mk (Vector3.x p + (ox - Vector3.x p) * step)
                           (Vector3.y p + (oy - Vector3.y p) * step)
                           (Vector3.z p + (oz - Vector3.z p) * step) in
      let dist := distanceTo (ox, oy, oz) p1 in
      if decide (dist < 0.01) then (Vector3.mk ox oy oz, true) else (p1, false)
  | mode_orbit =>
      let orbitRadius := number_or range 5 in
      let orbitSpeed := speed * 0.5 in
      (Vector3.mk (ox + cos (time * orbitSpeed) * orbitRadius) (Vector3.y p)
                  (oz + sin (time * orbitSpeed) * orbitRadius), false)
  end.

(** The callback of [objectsRef.current.forEach] in [animate]. The mesh is
    mutated in place through the reference held by [meshesRef]; here it is
    written back under its key. *)
Definition animateObject (time : R) (e : Engine) (obj : ShapeObject.t) : Engine :=
  match meshes e !! ShapeObject.id obj with
  | None => e
  | Some mesh =>
      let mesh1 := spin obj mesh in
      let moved := move time obj (Mesh.position mesh1) in
      let e1 := set_meshes <[ShapeObject.id obj := with_position moved.1 mesh1]> e in
      if moved.2 then
        set_timers
          (λ q, q ++ [mkTimer (ShapeObject.id obj) (ShapeObject.originalPosition obj)]) e1
      else e1
  end.

(** One animation frame; [now] is the value of [Date.now()] and [st] the
    state the refs were last synchronised with. The renderer, scene and
    camera refs tested by the frame are assigned before the first frame
    runs; the render call and the orbit controls are outside the model. *)
Definition animate (now : R) (st : AppState) (e : Engine) : Engine :=
  let e1 := if autoRotate st
            then set_sceneRotationY (λ r, r + rotationSpeed st) e else e in
  let time := now * 0.001 in
  foldl (animateObject time) e1 (objects st).

(** Consecutive frames over an unchanged store, one per clock reading. *)
Definition frames (nows : list R) (st : AppState) (e : Engine) : Engine :=
  foldl (λ e now, animate now st e) e nows.

(** ** ObjectStore: the handlers that write [objects] and [selectedId] *)

Definition set_objects (objs : list ShapeObject.t) (st : AppState) : AppState :=
  mkApp objs (selectedId st) (autoRotate st) (rotationSpeed st) (transformMode st)
        (showGizmo st).

Definition set_selectedId (sel : option string) (st : AppState) : AppState :=
  mkApp (objects st) sel (autoRotate st) (rotationSpeed st) (transformMode st)
        (showGizmo st).

Definition initialObject : ShapeObject.t :=
  {| ShapeObject.id := "1";
     ShapeObject.type := "torus";
     ShapeObject.position := (0, 0, 0);
     ShapeObject.rotation := (0, 0, 0);
     ShapeObject.scale := (1, 1, 1);
     ShapeObject.color := "#6366f1";
     ShapeObject.texture := tex_noise;
     ShapeObject.metalness := 0.5;
     ShapeObject.roughness := 0.2;
     ShapeObject.emissive := "#000000";
     ShapeObject.emissiveIntensity := 0;
     ShapeObject.opacity := 1;
     ShapeObject.radius := 3;
     ShapeObject.height := 3;
     ShapeObject.name := "Primary Torus";
     ShapeObject.isAnimated := false;
     ShapeObject.movementMode := mode_none;
     ShapeObject.movementSpeed := 1;
     ShapeObject.movementRange := 5;
     ShapeObject.originalPosition := (0, 0, 0) |}.

(** The [useState] initial values. *)
Definition initialState : AppState :=
  {| objects := [initialObject];
     selectedId := Some "1"%string;
     autoRotate := false;
     rotationSpeed := 0.005;
     transformMode := translate;
     showGizmo := true |}.

(** The engine before the mount effect has run, and once it has. *)
Definition unmounted : Engine :=
  {| isInitialized := false; meshes := ∅; sceneMeshes := []; sceneRotationY := 0;
     nextNode := 0; attached := None; gizmoMode := translate; timers := [] |}.

Definition mounted : Engine :=
  {| isInitialized := true; meshes := ∅; sceneMeshes := []; sceneRotationY := 0;
     nextNode := 0; attached := None; gizmoMode := translate; timers := [] |}.

(** [updateSelectedObject] *)
Definition updateSelectedObject (updates : list Field) (st : AppState) : AppState :=
  if negb (truthy (selectedId st)) then st
  else
    set_objects
      ((λ o, if decide (Some (ShapeObject.id o) = selectedId st)
             then spread o updates else o) <$> objects st) st.

(** What [addObject] reads from [Math.random()], in evaluation order: the
    string [Math.random().toString(36).substr(2, 9)], the two numbers of
    [position], the colour string built from the fourth call, and the two
    numbers of [originalPosition]. The formatting of a number as a string
    is not modelled: the two strings are taken as drawn. *)
Record AddDraws := mkAddDraws {
  draw_id : string;
  draw_position_x : R;
  draw_position_z : R;
  draw_color : string;
  draw_original_x : R;
  draw_original_z : R
}.

Definition newObject (d : AddDraws) (objs : list ShapeObject.t) : ShapeObject.t :=
  {| ShapeObject.id := draw_id d;
     ShapeObject.type := "sphere";
     ShapeObject.position :=
       ((draw_position_x d - 0.5) * 10, 2, (draw_position_z d - 0.5) * 10);
     ShapeObject.rotation := (0, 0, 0);
     ShapeObject.scale := (1, 1, 1);
     ShapeObject.color := draw_color d;
     ShapeObject.texture := tex_none;
     ShapeObject.metalness := 0.5;
     ShapeObject.roughness := 0.5;
     ShapeObject.emissive := "#000000";
     ShapeObject.emissiveIntensity := 0;
     ShapeObject.opacity := 1;
     ShapeObject.radius := 2;
     ShapeObject.height := 2;
     ShapeObject.name := "Object-" +:+ pretty (length objs + 1)%nat;
     ShapeObject.isAnimated := false;
     ShapeObject.movementMode := mode_none;
     ShapeObject.movementSpeed := 1;
     ShapeObject.movementRange := 5;
     ShapeObject.originalPosition :=
       ((draw_original_x d - 0.5) * 10, 2, (draw_original_z d - 0.5) * 10) |}.

(** [addObject] *)
Definition addObject (d : AddDraws) (st : AppState) : AppState :=
  let newObj := newObject d (objects st) in
  set_selectedId (Some (draw_id d)) (set_objects (objects st ++ [newObj]) st).

(** How a handler ends: normally, or with an uncaught [TypeError]; either
    way with the state writes it had issued by then. *)
Inductive Completion :=
| Normal (st : AppState)
| Throw (st : AppState).

Definition completion_state (c : Completion) : AppState :=
  match c with Normal st | Throw st => st end.

(** [deleteObject]. [newObjects[0].id] throws when [newObjects] is empty. *)
Definition deleteObject (id : string) (st : AppState) : Completion :=
  if decide (length (objects st) ≤ 1)%nat then Normal st
  else
    let newObjects := filter (λ o, ShapeObject.id o ≠ id) (objects st) in
    let st1 := set_objects newObjects st in
    if decide (selectedId st = Some id) then
      match newObjects !! 0%nat with
      | Some o => Normal (set_selectedId (Some (ShapeObject.id o)) st1)
      | None => Throw st1
      end
    else Normal st1.

(** The ['objectChange'] listener of the transform controls, for the
    attached object [obj]. *)
Definition objectChange (obj : Mesh.t) (st : AppState) : AppState :=
  if truthy (selectedId st) then
    let p := Mesh.position obj in
    let r := Mesh.rotation obj in
    let s := Mesh.scale obj in
    set_objects
      ((λ o, if decide (Some (ShapeObject.id o) = selectedId st)
             then spread o
                    [f_position (Vector3.x p, Vector3.y p, Vector3.z p);
                     f_rotation (Vector3.x r, Vector3.y r, Vector3.z r);
                     f_scale (Vector3.x s, Vector3.y s, Vector3.z s);
                     f_originalPosition (Vector3.x p, Vector3.y p, Vector3.z p)]
             else o) <$> objects st) st
  else st.

(** The body of a returning-mode timer:
    [setObjects(prev => prev.map(o => o.id === obj.id ? {...} : o))]. *)
Definition runTimer (t : Timer) (st : AppState) : AppState :=
  set_objects
    ((λ o, if decide (ShapeObject.id o = timer_id t)
           then spread o [f_position (timer_home t); f_movementMode mode_none]
           else o) <$> objects st) st.

(** The pending timers run in the order they were set. *)
Definition runTimers (q : list Timer) (st : AppState) : AppState :=
  foldl (λ st t, runTimer t st) st q.

(** What [createSolarSystem] reads from [Math.random()]: the five strings
    [Math.random().toString(36).substr(2, 5)], the sun's first, then one per
    planet by index. *)
Record SolarDraws := mkSolarDraws {
  draw_sun : string;
  draw_planet : nat → string
}.

Definition sun (d : SolarDraws) : ShapeObject.t :=
  {| ShapeObject.id := "sun-" +:+ draw_sun d;
     ShapeObject.type := "sphere";
     ShapeObject.position := (0, 0, 0);
     ShapeObject.rotation := (0, 0, 0);
     ShapeObject.scale := (2, 2, 2);
     ShapeObject.color := "#ffcc00";
     ShapeObject.texture := tex_noise;
     ShapeObject.metalness := 0.1;
     ShapeObject.roughness := 0.1;
     ShapeObject.emissive := "#ff6600";
     ShapeObject.emissiveIntensity := 2;
     ShapeObject.opacity := 1;
     ShapeObject.radius := 4;
     ShapeObject.height := 4;
     ShapeObject.name := "The Sun";
     ShapeObject.isAnimated := true;
     ShapeObject.movementMode := mode_none;
     ShapeObject.movementSpeed := 0.5;
     ShapeObject.movementRange := 0;
     ShapeObject.originalPosition := (0, 0, 0) |}.

(** The literal table of planets: name, colour, radius, dist, speed. *)
Definition planetTable : list (string * string * R * R * R) :=
  [("Mercury", "#aaaaaa", 0.8, 8, 2);
   ("Venus", "#eebb99", 1.5, 12, 1.5);
   ("Earth", "#2266ff", 1.6, 18, 1.2);
   ("Mars", "#ff4422", 1.2, 24, 1.0)]%string.

Definition planet (d : SolarDraws) (i : nat) (p : string * string * R * R * R)
    : ShapeObject.t :=
  let '(p_name, p_color, p_radius, p_dist, p_speed) := p in
  {| ShapeObject.id := "planet-" +:+ pretty i +:+ draw_planet d i;
     ShapeObject.type := "sphere";
     ShapeObject.position := (p_dist, 0, 0);
     ShapeObject.rotation := (0, 0, 0);
     ShapeObject.scale := (1, 1, 1);
     ShapeObject.color := p_color;
     ShapeObject.texture := tex_noise;
     ShapeObject.metalness := 0.2;
     ShapeObject.roughness := 0.8;
     ShapeObject.emissive := "#000000";
     ShapeObject.emissiveIntensity := 0;
     ShapeObject.opacity := 1;
     ShapeObject.radius := p_radius;
     ShapeObject.height := p_radius;
     ShapeObject.name := p_name;
     ShapeObject.isAnimated := true;
     ShapeObject.movementMode := mode_orbit;
     ShapeObject.movementSpeed := p_speed;
     ShapeObject.movementRange := p_dist;
     ShapeObject.originalPosition := (0, 0, 0) |}.

(** [createSolarSystem] *)
Definition createSolarSystem (d : SolarDraws) (st : AppState) : AppState :=
  set_selectedId (Some (ShapeObject.id (sun d)))
    (set_objects (sun d :: imap (planet d) planetTable) st).

(** The operations that write the store. *)
Inductive StoreOp :=
| op_addObject (d : AddDraws)
| op_deleteObject (id : string)
| op_updateSelectedObject (updates : list Field)
| op_setSelectedId (sel : option string)
| op_createSolarSystem (d : SolarDraws)
| op_objectChange (obj : Mesh.t)
| op_runTimer (t : Timer).

Definition applyOp (st : AppState) (op : StoreOp) : AppState :=
  match op with
  | op_addObject d => addObject d st
  | op_deleteObject id => completion_state (deleteObject id st)
  | op_updateSelectedObject updates => updateSelectedObject updates st
  | op_setSelectedId sel => set_selectedId sel st
  | op_createSolarSystem d => createSolarSystem d st
  | op_objectChange obj => objectChange obj st
  | op_runTimer t => runTimer t st
  end.

Definition applyOps (ops : list StoreOp) (st : AppState) : AppState :=
  foldl applyOp st ops.

(** The data-model invariant of the store: ids are unique. The handlers
    and both loops identify an object by its id alone ([o.id === id],
    [meshesRef.current.get(obj.id)]), so two objects of one id would share
    one mesh and be deleted together. *)
Definition uniqueIds (st : AppState) : Prop := NoDup (ids (objects st)).

(** ** Invariant of the engine *)

(** The meshes among the scene's children are exactly the values of
    [meshesRef], one node per id, each handed out by the node counter. *)
Record engine_wf (e : Engine) : Prop := {
  wf_fresh : ∀ k m, meshes e !! k = Some m → (Mesh.node m < nextNode e)%nat;
  wf_in_scene : ∀ k m, meshes e !! k = Some m → Mesh.node m ∈ sceneMeshes e;
  wf_scene_live : ∀ n, n ∈ sceneMeshes e → ∃ k m, meshes e !! k = Some m ∧ Mesh.node m = n;
  wf_node_inj : ∀ k1 k2 m1 m2,
      meshes e !! k1 = Some m1 → meshes e !! k2 = Some m2 →
      Mesh.node m1 = Mesh.node m2 → k1 = k2
}.

(** An id has a live scene node when [meshesRef] maps it to a mesh that is a
    child of the scene. *)
Definition hasLiveNode (e : Engine) (k : string) : Prop :=
  ∃ m, meshes e !! k = Some m ∧ Mesh.node m ∈ sceneMeshes e.

(** The position of the node of an id, if it has one. *)
Definition nodePosition (e : Engine) (k : string) : option Vector3.t :=
  Mesh.position <$> meshes e !! k.

(** The distance from the node of [obj] to the home of [obj]; zero when
    there is no node. *)
Definition nodeDistance (e : Engine) (obj : ShapeObject.t) : R :=
  match nodePosition e (ShapeObject.id obj) with
  | Some p => distanceTo (ShapeObject.originalPosition obj) p
  | None => 0
  end.

(** A run of [deleteObject] calls, each on the state the previous one left. *)
Definition deleteAll (dels : list string) (st : AppState) : AppState :=
  foldl (λ st id, completion_state (deleteObject id st)) st dels.

(** Draws for [addObject] in which the fifth and sixth [Math.random()]
    results differ from the second and third. *)
Definition sampleDraws : AddDraws :=
  {| draw_id := "k3x9q0w2a";
     draw_position_x := 0;
     draw_position_z := 0;
     draw_color := "#1f2e3d";
     draw_original_x := 0.5;
     draw_original_z := 0.5 |}.

(** The update branch of [syncObject] seen from outside: the mesh it leaves
    under the id, and the graphics calls it makes. *)
Definition updatedMesh (mesh : Mesh.t) (obj : ShapeObject.t) : Mesh.t :=
  let mesh1 := updateBasicProps mesh obj in
  if paramsChanged (Mesh.userData mesh1) obj then resetGeometry mesh1 obj else mesh1.

Definition updateEvents (mesh : Mesh.t) (obj : ShapeObject.t) : list Event :=
  if paramsChanged (Mesh.userData mesh) obj
  then [DisposeGeometry (Mesh.geometry mesh);
        NewGeometry (createGeometry (ShapeObject.type obj) (ShapeObject.radius obj)
                       (ShapeObject.height obj))]
  else [].

(** An object is in sync with the engine when it has a mesh whose cached
    triple is the object's (type, radius, height). *)
Definition synced (e : Engine) (obj : ShapeObject.t) : Prop :=
  ∃ m, meshes e !! ShapeObject.id obj = Some m ∧ Mesh.userData m = shapeParams obj.

(** The objects of the three kinetic scenarios: the initial object (home at
    the origin, speed 1, range 5) put in orbit mode, in straight mode, and
    moved to (10, 0, 0) in returning mode. *)
Definition orbiter : ShapeObject.t := spread initialObject [f_movementMode mode_orbit].

Definition traveller : ShapeObject.t := spread initialObject [f_movementMode mode_straight].

Definition returner : ShapeObject.t :=
  spread initialObject [f_position (10, 0, 0); f_movementMode mode_returning].

(** The engine once the mesh of a lone object has been created by one pass
    and given the object's transform by the next. *)
Definition stageOf (obj : ShapeObject.t) : Engine :=
  let st := set_objects [obj] initialState in
  (updateObjectsEffect st (updateObjectsEffect st mounted).1).1.

(** When an operation cannot break the uniqueness of ids: [addObject] must
    draw an id that is not in the store, and an update must not write the
    [id] key. *)
Definition keepsIdsUnique (st : AppState) (op : StoreOp) : Prop :=
  match op with
  | op_addObject d => draw_id d ∉ ids (objects st)
  | op_updateSelectedObject updates => ∀ v, f_id v ∉ updates
  | _ => True
  end.

(** ** Counting calls, runs of passes and frames, the remaining effects
    and handlers *)

(** ** Accounting of graphics resources *)




Definition isSceneAdd (ev : Event) : bool :=
  match ev with SceneAdd _ => true | _ => false end.

Definition isSceneRemove (ev : Event) : bool :=
  match ev with SceneRemove _ => true | _ => false end.


(** The geometry of a mesh is the one [createGeometry] builds from the
    cached triple. *)
Definition builtFromCache (m : Mesh.t) : Prop :=
  Mesh.geometry m
  = createGeometry (UserData.type (Mesh.userData m)) (UserData.radius (Mesh.userData m))
      (UserData.height (Mesh.userData m)).

Definition engine_coherent (e : Engine) : Prop :=
  ∀ k m, meshes e !! k = Some m → builtFromCache m.

(** The rotation of the node of an id, if it has one. *)
Definition nodeRotation (e : Engine) (k : string) : option Vector3.t :=
  Mesh.rotation <$> meshes e !! k.

(** What happens to the engine after the mount: a render runs the
    update-objects effect, or an animation frame runs, each with the state of
    the render it belongs to. *)
Inductive Step :=
| step_pass (st : AppState)
| step_frame (now : R) (st : AppState).

Definition step (acc : Engine * list Event) (s : Step) : Engine * list Event :=
  match s with
  | step_pass st =>
      let pass := updateObjectsEffect st acc.1 in (pass.1, acc.2 ++ pass.2)
  | step_frame now st => (animate now st acc.1, acc.2)
  end.

(** The engine after a run of steps, with the graphics calls made so far. *)
Definition run (steps : list Step) (e : Engine) : Engine * list Event :=
  foldl step (e, []) steps.


(** ** Environment and lighting effect *)

Inductive EnvironmentPreset := studio | midnight | neon | soft.

#[global] Instance EnvironmentPreset_eq_dec : EqDecision EnvironmentPreset.
Proof. solve_decision. Defined.

(** A light of the scene: its intensity and its colour, a hexadecimal
    number. *)
Module Light.
Record t := mk { intensity : R; color : N }.
End Light.

(** What the environment effect reads and writes: [scene.background] and the
    children of the scene named ['ambient'], ['mainLight'] and ['pointLight'];
    [None] is the [undefined] that [getObjectByName] returns when no child
    has the name. *)
Record Lighting := mkLighting {
  background : N;
  ambient : option Light.t;
  main : option Light.t;
  point : option Light.t
}.

(** The background and the lights as the mount effect creates them. *)
Definition mountLighting : Lighting :=
  {| background := 0x050505%N;
     ambient := Some (Light.mk 0.4 0xffffff%N);
     main := Some (Light.mk 1.2 0xffffff%N);
     point := Some (Light.mk 0 0x6366f1%N) |}.

Definition set_intensity (i : R) (l : Light.t) : Light.t := Light.mk i (Light.color l).

(** The environment effect; [sceneRef] is [None] before the mount effect has
    run. *)
Definition environmentEffect (environment : EnvironmentPreset) (sceneRef : option Lighting)
    : option Lighting :=
  match sceneRef with
  | None => None
  | Some scene =>
      Some
        match environment with
        | studio =>
            {| background := 0x050505%N;
               ambient := set_intensity 0.4 <$> ambient scene;
               main := (λ _, Light.mk 1.2 0xffffff%N) <$> main scene;
               point := set_intensity 0 <$> point scene |}
        | midnight =>
            {| background := 0x020205%N;
               ambient := set_intensity 0.1 <$> ambient scene;
               main := (λ _, Light.mk 0.5 0x3344ff%N) <$> main scene;
               point := set_intensity 0 <$> point scene |}
        | neon =>
            {| background := 0x0a0010%N;
               ambient := set_intensity 0.2 <$> ambient scene;
               main := (λ _, Light.mk 0.4 0xff00ff%N) <$> main scene;
               point := (λ _, Light.mk 2 0x00ffff%N) <$> point scene |}
        | soft =>
            {| background := 0x1a1a1a%N;
               ambient := set_intensity 0.6 <$> ambient scene;
               main := (λ _, Light.mk 0.8 0xfff0e0%N) <$> main scene;
               point := set_intensity 0.1 <$> point scene |}
        end
  end.

(** The effect run once per preset of a history of selections, oldest
    first. *)
Definition environments (history : list EnvironmentPreset) (sceneRef : option Lighting)
    : option Lighting :=
  foldl (λ scene environment, environmentEffect environment scene) sceneRef history.

(** ** Keyboard shortcuts *)




(** [deleteObject] as the closure of one render: [objects] and [selectedId]
    are the values of the render [render] that created the closure, the
    setters write to the store as it is when the closure is called. *)
Definition deleteObjectOf (render : AppState) (id : string) (st : AppState) : Completion :=
  if decide (length (objects render) ≤ 1)%nat then Normal st
  else
    let newObjects := filter (λ o, ShapeObject.id o ≠ id) (objects render) in
    let st1 := set_objects newObjects st in
    if decide (selectedId render = Some id) then
      match newObjects !! 0%nat with
      | Some o => Normal (set_selectedId (Some (ShapeObject.id o)) st1)
      | None => Throw st1
      end
    else Normal st1.


(** ** The single-shape viewer

    The second component of [App.tsx] shows one shape, described by state
    variables instead of a list of objects. *)
Module SingleShape.

Record Shape := mkShape {
  shapeType : string;
  radius : R;
  height : R;
  enableSegments : bool;
  segments : R;
  color : string;
  textureType : TextureType
}.

(** The fields of the [THREE.MeshPhongMaterial] that depend on the shape;
    [shininess], [specular] and [side] are constants. *)
Record PhongMaterial := mkPhong { phong_color : string; phong_map : option TextureType }.

Record ShapeMesh := mkMesh { geometry : Geometry; material : PhongMaterial; node : nat }.

Inductive Call :=
| NewGeometry (g : Geometry)
| NewMaterial (m : PhongMaterial)
| DisposeGeometry (g : Geometry)
| DisposeMaterial (m : PhongMaterial)
| SceneAdd (n : nat)
| SceneRemove (n : nat).

(** [isInitialized] (with [sceneRef] and [texturesRef]), [meshRef.current],
    the shape meshes among the children of the scene, and the counter of
    node handles. *)
Record Viewer := mkViewer {
  isInitialized : bool;
  meshRef : option ShapeMesh;
  sceneMeshes : list nat;
  nextNode : nat
}.

Definition mounted : Viewer :=
  {| isInitialized := true; meshRef := None; sceneMeshes := []; nextNode := 0 |}.

(** The [switch] of the update-shape effect. *)
Definition shapeGeometry (s : Shape) : Geometry :=
  let segs := if enableSegments s then segments s else 64 in
  let type := shapeType s in
  let radius := radius s in
  let height := height s in
  if decide (type = "sphere"%string) then SphereGeometry radius segs segs
  else if decide (type = "cylinder"%string) then CylinderGeometry radius radius height segs
  else if decide (type = "cube"%string) then BoxGeometry (radius * 2) (radius * 2) (radius * 2)
  else if decide (type = "cone"%string) then ConeGeometry radius height segs
  else if decide (type = "torus"%string) then TorusGeometry radius (radius / 3) segs segs
  else if decide (type = "pyramid"%string) then ConeGeometry radius height 4
  else if decide (type = "prism"%string) then CylinderGeometry radius radius height 3
  else if decide (type = "pentagonalPrism"%string) then CylinderGeometry radius radius height 5
  else if decide (type = "hexagonalPrism"%string) then CylinderGeometry radius radius height 6
  else if decide (type = "octagonalPrism"%string) then CylinderGeometry radius radius height 8
  else if decide (type = "tetrahedron"%string) then TetrahedronGeometry radius
  else if decide (type = "dodecahedron"%string) then DodecahedronGeometry radius
  else if decide (type = "icosahedron"%string) then IcosahedronGeometry radius
  else SphereGeometry radius segs segs.





Definition isDisposal (c : Call) : bool :=
  match c with DisposeGeometry _ | DisposeMaterial _ => true | _ => false end.


End SingleShape.

(** * Properties *)

(** ** GeometryFactory *)

(** C7: [createGeometry] is a total function whose result is fixed by its
    three arguments; for each of the thirteen shape kinds and every radius and
    height it returns the primitive of the table (sphere, cylinder and cone
    with 64 segments, a box of side [2 * radius], a torus with tube
    [radius / 3] and 64 by 64 segments, a 4-sided cone for the pyramid, 3-, 5-,
    6- and 8-sided cylinders for the prisms, the platonic solids from the
    radius alone), and the sphere for any other string. *)
Theorem createGeometry_table (radius height : R) :
  createGeometry "sphere" radius height = SphereGeometry radius 64 64
  ∧ createGeometry "cylinder" radius height = CylinderGeometry radius radius height 64
  ∧ createGeometry "cube" radius height = BoxGeometry (2 * radius) (2 * radius) (2 * radius)
  ∧ createGeometry "cone" radius height = ConeGeometry radius height 64
  ∧ createGeometry "torus" radius height = TorusGeometry radius (radius / 3) 64 64
  ∧ createGeometry "pyramid" radius height = ConeGeometry radius height 4
  ∧ createGeometry "prism" radius height = CylinderGeometry radius radius height 3
  ∧ createGeometry "pentagonalPrism" radius height = CylinderGeometry radius radius height 5
  ∧ createGeometry "hexagonalPrism" radius height = CylinderGeometry radius radius height 6
  ∧ createGeometry "octagonalPrism" radius height = CylinderGeometry radius radius height 8
  ∧ createGeometry "tetrahedron" radius height = TetrahedronGeometry radius
  ∧ createGeometry "dodecahedron" radius height = DodecahedronGeometry radius
  ∧ createGeometry "icosahedron" radius height = IcosahedronGeometry radius
  ∧ (∀ type, type ∉ ShapeType_names →
       createGeometry type radius height = SphereGeometry radius 64 64).
Proof.
  assert (Hside : radius * 2 = 2 * radius) by ring.
  repeat match goal with
         | |- _ = _ ∧ _ =>
             split; [unfold createGeometry; repeat (case_decide; try done);
                     rewrite ?Hside; reflexivity |]
         end.
  intros type Hnot. unfold ShapeType_names in Hnot.
  unfold createGeometry.
  repeat (case_decide; [exfalso; apply Hnot; subst type; set_solver |]).
  reflexivity.
Qed.

(** ** ObjectStore *)

Lemma ids_filter_subseteq (P : ShapeObject.t → Prop) `{!∀ o, Decision (P o)}
    (objs : list ShapeObject.t) :
  ids (filter P objs) ⊆ ids objs.
Proof.
  intros k. unfold ids. rewrite !list_elem_of_fmap.
  intros (o & -> & Ho%list_elem_of_filter). exists o. tauto.
Qed.

Lemma ids_filter_NoDup (P : ShapeObject.t → Prop) `{!∀ o, Decision (P o)}
    (objs : list ShapeObject.t) :
  NoDup (ids objs) → NoDup (ids (filter P objs)).
Proof.
  unfold ids. induction objs as [|o objs IH]; simpl; [constructor |].
  intros [Hnotin Hnd]%NoDup_cons. rewrite filter_cons.
  case_decide; [| by apply IH].
  simpl. apply NoDup_cons. split; [| by apply IH].
  intros Hin. apply Hnotin. by eapply (ids_filter_subseteq P).
Qed.

Lemma filter_all {A} (P : A → Prop) `{!∀ x, Decision (P x)} (l : list A) :
  (∀ x, x ∈ l → P x) → filter P l = l.
Proof.
  induction l as [|x l IH]; intros Hall; [done |].
  rewrite filter_cons, decide_True by (apply Hall; left).
  f_equal. apply IH. intros y Hy. apply Hall. by right.
Qed.

(** With unique ids, filtering one id out drops at most one object. *)
Lemma filter_id_length (id : string) (objs : list ShapeObject.t) :
  NoDup (ids objs) →
  (length objs ≤ S (length (filter (λ o, ShapeObject.id o ≠ id) objs)))%nat.
Proof.
  unfold ids. induction objs as [|o objs IH]; simpl; [lia |].
  intros [Hnotin Hnd]%NoDup_cons. rewrite filter_cons.
  case_decide as Hne; simpl; [specialize (IH Hnd); lia |].
  subst id.
  rewrite filter_all; [lia |].
  intros o' Ho' Heq. apply Hnotin.
  rewrite <- Heq. apply list_elem_of_fmap. by exists o'.
Qed.

Lemma deleteObject_objects (id : string) (st : AppState) :
  (1 < length (objects st))%nat →
  objects (completion_state (deleteObject id st))
  = filter (λ o, ShapeObject.id o ≠ id) (objects st).
Proof.
  intros Hlen. unfold deleteObject.
  case_decide; [lia |]. case_decide; [| done].
  by destruct (filter _ (objects st) !! 0%nat).
Qed.

Lemma deleteObject_uniqueIds (id : string) (st : AppState) :
  uniqueIds st → uniqueIds (completion_state (deleteObject id st)).
Proof.
  intros Hu. unfold uniqueIds.
  destruct (decide (length (objects st) ≤ 1)%nat) as [Hle | Hgt].
  - unfold deleteObject. by rewrite decide_True.
  - rewrite deleteObject_objects; [| lia]. by apply ids_filter_NoDup.
Qed.

Lemma deleteObject_nonempty (id : string) (st : AppState) :
  uniqueIds st → objects st ≠ [] →
  objects (completion_state (deleteObject id st)) ≠ [].
Proof.
  intros Hu Hne.
  destruct (decide (length (objects st) ≤ 1)%nat) as [Hle | Hgt].
  - unfold deleteObject. by rewrite decide_True.
  - rewrite deleteObject_objects; [| lia].
    pose proof (filter_id_length id (objects st) Hu) as Hlen.
    intros Hnil. rewrite Hnil in Hlen. simpl in Hlen. lia.
Qed.

(** *** Uniqueness of ids *)

Lemma assign_id (o : ShapeObject.t) (f : Field) :
  (∀ v, f ≠ f_id v) → ShapeObject.id (assign o f) = ShapeObject.id o.
Proof. intros Hf. destruct o, f; simpl; try done. by destruct (Hf v). Qed.

Lemma ids_fmap_preserved (f : ShapeObject.t → ShapeObject.t) (objs : list ShapeObject.t) :
  (∀ o, ShapeObject.id (f o) = ShapeObject.id o) → ids (f <$> objs) = ids objs.
Proof.
  intros Hf. unfold ids. rewrite <- list_fmap_compose. apply list_fmap_ext.
  intros i o _. apply Hf.
Qed.

Lemma spread_id (o : ShapeObject.t) (updates : list Field) :
  (∀ v, f_id v ∉ updates) → ShapeObject.id (spread o updates) = ShapeObject.id o.
Proof.
  unfold spread. revert o. induction updates as [|f updates IH]; intros o Hno; simpl; [done |].
  rewrite IH.
  - apply assign_id. intros v ->. apply (Hno v). left.
  - intros v Hv. apply (Hno v). by right.
Qed.

Lemma pretty_small : pretty 0%nat = "0"%string ∧ pretty 1%nat = "1"%string
  ∧ pretty 2%nat = "2"%string ∧ pretty 3%nat = "3"%string.
Proof. repeat split; vm_compute; reflexivity. Qed.

Lemma createSolarSystem_uniqueIds (d : SolarDraws) (st : AppState) :
  uniqueIds (createSolarSystem d st).
Proof.
  unfold uniqueIds, createSolarSystem, planetTable. simpl.
  destruct pretty_small as (-> & -> & -> & ->). simpl.
  repeat (apply NoDup_cons; split;
          [rewrite ?not_elem_of_cons; repeat split; try discriminate; apply not_elem_of_nil |]).
  apply NoDup_nil_2.
Qed.

Lemma ids_fmap_if (P : ShapeObject.t → Prop) `{!∀ o, Decision (P o)}
    (updates : list Field) (objs : list ShapeObject.t) :
  (∀ v, f_id v ∉ updates) →
  ids ((λ o, if decide (P o) then spread o updates else o) <$> objs) = ids objs.
Proof.
  intros Hno. apply ids_fmap_preserved. intros o. case_decide; [| done].
  by apply spread_id.
Qed.

Lemma no_id_key (updates : list Field) :
  Forall (λ f, match f with f_id _ => False | _ => True end) updates →
  ∀ v, f_id v ∉ updates.
Proof.
  intros Hall v Hin. rewrite Forall_forall in Hall. by apply (Hall _ Hin).
Qed.

(** Every store operation keeps the ids unique, given that [addObject]
    draws a fresh id and that no update writes the [id] key. *)
Lemma applyOp_uniqueIds (st : AppState) (op : StoreOp) :
  uniqueIds st → keepsIdsUnique st op → uniqueIds (applyOp st op).
Proof.
  unfold uniqueIds. intros Hu Hop. destruct op as [d | id | updates | sel | d | obj | t].
  - simpl. unfold ids. rewrite fmap_app. simpl. apply NoDup_app. split; [done |].
    split; [| apply NoDup_singleton].
    intros k Hk ->%list_elem_of_singleton. by apply Hop.
  - by apply deleteObject_uniqueIds.
  - simpl. unfold updateSelectedObject. destruct (truthy _); simpl; [| done].
    by rewrite ids_fmap_if.
  - done.
  - apply (createSolarSystem_uniqueIds d st).
  - unfold applyOp, objectChange. destruct (truthy _); [| done].
    cbv zeta. cbn [objects set_objects].
    rewrite ids_fmap_if; [done |]. apply no_id_key. by repeat constructor.
  - unfold applyOp, runTimer. cbn [objects set_objects].
    rewrite ids_fmap_if; [done |]. apply no_id_key. by repeat constructor.
Qed.

Lemma applyOps_uniqueIds (ops : list StoreOp) (st : AppState) :
  uniqueIds st →
  (∀ before op after, ops = before ++ op :: after →
     keepsIdsUnique (applyOps before st) op) →
  uniqueIds (applyOps ops st).
Proof.
  unfold applyOps. revert st. induction ops as [|op ops IH]; intros st Hu Hops; [done |].
  simpl. apply IH.
  - apply applyOp_uniqueIds; [done |]. by apply (Hops [] op ops).
  - intros before op' after ->. by apply (Hops (op :: before) op' after).
Qed.

Lemma initialState_uniqueIds : uniqueIds initialState.
Proof. unfold uniqueIds. simpl. apply NoDup_singleton. Qed.

(** Two objects of one id are deleted together, and the handler then throws
    on [newObjects[0].id] with the store already emptied. *)
Lemma deleteObject_shared_id :
  let twin := spread initialObject [f_name "Twin"] in
  deleteObject "1" (set_objects [initialObject; twin] initialState)
  = Throw (set_objects [] initialState).
Proof. reflexivity. Qed.

(** C8: [deleteObject] on a store of one object returns without writing
    anything, and from a store that has an object and unique ids no run of
    [deleteObject] calls reaches the empty store (nor breaks the uniqueness
    of ids). *)
Theorem deleteObject_never_empties :
  (∀ id st, (length (objects st) ≤ 1)%nat → deleteObject id st = Normal st)
  ∧ (∀ dels st, uniqueIds st → objects st ≠ [] →
       objects (deleteAll dels st) ≠ [] ∧ uniqueIds (deleteAll dels st)).
Proof.
  split.
  - intros id st Hlen. unfold deleteObject. by rewrite decide_True.
  - intros dels. unfold deleteAll.
    induction dels as [|id dels IH]; intros st Hu Hne; simpl; [done |].
    apply IH; [by apply deleteObject_uniqueIds | by apply deleteObject_nonempty].
Qed.

Lemma deleteObject_never_empties_witness :
  deleteObject "1" initialState = Normal initialState
  ∧ objects (deleteAll ["k3x9q0w2a"; "1"; "1"]%string (addObject sampleDraws initialState))
    ≠ [].
Proof.
  split.
  - apply (proj1 deleteObject_never_empties). simpl. lia.
  - apply (proj2 deleteObject_never_empties).
    + unfold uniqueIds. simpl. apply (bool_decide_unpack _). vm_compute. reflexivity.
    + simpl. discriminate.
Defined.

(** When the drawn numbers are the same the new object starts at home, and
    only then. *)
Lemma newObject_home_iff (d : AddDraws) (objs : list ShapeObject.t) :
  ShapeObject.originalPosition (newObject d objs) = ShapeObject.position (newObject d objs)
  ↔ draw_original_x d = draw_position_x d ∧ draw_original_z d = draw_position_z d.
Proof.
  simpl. split.
  - intros Heq. injection Heq as Hx Hz. split; lra.
  - intros [-> ->]. reflexivity.
Qed.

(** C9: a new object's home should equal its initial position. The code
    misses this: [addObject] evaluates [Math.random()] again for
    [originalPosition], so with the draws of [sampleDraws] the new object is
    placed at (-5, 2, -5) while its home is (0, 2, 0). *)
Theorem addObject_home_differs :
  let o := newObject sampleDraws (objects initialState) in
  objects (addObject sampleDraws initialState) = [initialObject; o]
  ∧ ShapeObject.position o = (-5, 2, -5)
  ∧ ShapeObject.originalPosition o = (0, 2, 0)
  ∧ ShapeObject.originalPosition o ≠ ShapeObject.position o.
Proof.
  simpl. split; [reflexivity |].
  split; [f_equal; [f_equal |]; lra |].
  split; [f_equal; [f_equal |]; lra |].
  intros Heq. injection Heq as Hx Hz. lra.
Qed.

(** C10: when [deleteObject] is called on a store of more than one object
    and returns, the store is the old one without the objects of that id; if
    the deleted id was the selected one the selection becomes the id of the
    first remaining object, otherwise it is unchanged; so a selection that
    named an object of the store names one afterwards. With unique ids the
    call does return. *)
Theorem deleteObject_selection (id : string) (st : AppState) :
  (1 < length (objects st))%nat →
  (uniqueIds st → ∃ st', deleteObject id st = Normal st')
  ∧ ∀ st', deleteObject id st = Normal st' →
      objects st' = filter (λ o, ShapeObject.id o ≠ id) (objects st)
      ∧ (selectedId st = Some id →
           ∃ o, objects st' !! 0%nat = Some o ∧ selectedId st' = Some (ShapeObject.id o))
      ∧ (selectedId st ≠ Some id → selectedId st' = selectedId st)
      ∧ (∀ s, selectedId st = Some s → s ∈ ids (objects st) →
           ∃ s', selectedId st' = Some s' ∧ s' ∈ ids (objects st')).
Proof.
  intros Hlen. split.
  - intros Hu. unfold deleteObject.
    case_decide; [lia |]. case_decide; [| by eexists].
    destruct (filter _ (objects st) !! 0%nat) as [o|] eqn:Hfirst; [by eexists |].
    pose proof (filter_id_length id (objects st) Hu) as Hl.
    apply lookup_ge_None in Hfirst. lia.
  - intros st'. unfold deleteObject.
    case_decide; [lia |].
    case_decide as Hsel.
    + destruct (filter _ (objects st) !! 0%nat) as [o|] eqn:Hfirst; [| discriminate].
      intros [= <-]. simpl.
      split; [done |]. split; [by eauto |]. split; [done |].
      intros s _ _. exists (ShapeObject.id o). split; [done |].
      apply list_elem_of_fmap. exists o. split; [done |].
      by eapply list_elem_of_lookup_2.
    + intros [= <-]. simpl.
      split; [done |]. split; [done |]. split; [done |].
      intros s Hs Hin. exists s. split; [done |].
      unfold ids in *. apply list_elem_of_fmap in Hin as (o & -> & Ho).
      apply list_elem_of_fmap. exists o. split; [done |].
      apply list_elem_of_filter. split; [| done].
      intros Heq. apply Hsel. by rewrite Hs, Heq.
Qed.

Lemma deleteObject_selection_witness :
  let st := addObject sampleDraws initialState in
  ∃ st', deleteObject "k3x9q0w2a" st = Normal st'
         ∧ objects st' = filter (λ o, ShapeObject.id o ≠ "k3x9q0w2a"%string) (objects st)
         ∧ ∃ s', selectedId st' = Some s' ∧ s' ∈ ids (objects st').
Proof.
  intros st.
  assert (Hlen : (1 < length (objects st))%nat) by (simpl; lia).
  destruct (deleteObject_selection "k3x9q0w2a" st Hlen) as [Hreturns Hafter].
  destruct Hreturns as [st' Hst'].
  { unfold uniqueIds. simpl. apply (bool_decide_unpack _). vm_compute. reflexivity. }
  exists st'. split; [exact Hst' |].
  destruct (Hafter st' Hst') as (Hobjs & _ & _ & Hvalid).
  split; [exact Hobjs |].
  apply (Hvalid "k3x9q0w2a"%string); [reflexivity |].
  simpl. right. left.
Defined.

(** ** SceneSynchronizer *)

Section RemoveStale.
Variable currentIds : gset string.

Lemma removeStale_fold_lookup (l : list (string * Mesh.t)) (acc : Engine * list Event)
    (k : string) :
  meshes (foldl (removeStale currentIds) acc l).1 !! k
  = if decide (k ∈ l.*1 ∧ k ∉ currentIds) then None else meshes acc.1 !! k.
Proof.
  revert acc. induction l as [|[k0 m0] l IH]; intros acc; cbn [foldl].
  - case_decide as H; [| done]. destruct H as [H _]. by apply elem_of_nil in H.
  - rewrite IH. unfold removeStale. cbn [fst snd]. rewrite fmap_cons. cbn [fst].
    destruct (decide (k0 ∈ currentIds)) as [Hk0 | Hk0]; cbn [fst snd meshes set_meshes];
      [| destruct (decide (k = k0)) as [-> | Hne];
         [rewrite lookup_delete_eq | rewrite lookup_delete_ne by done]];
      repeat case_decide; try done; exfalso;
      repeat match goal with
             | H : context [_ ∈ _ :: _] |- _ => rewrite elem_of_cons in H
             end; naive_solver.
Qed.

Lemma removeStale_fold_scene (l : list (string * Mesh.t)) (acc : Engine * list Event)
    (n : nat) :
  n ∈ sceneMeshes (foldl (removeStale currentIds) acc l).1
  ↔ n ∈ sceneMeshes acc.1
    ∧ ∀ kv, kv ∈ l → kv.1 ∉ currentIds → Mesh.node kv.2 ≠ n.
Proof.
  revert acc. induction l as [|kv0 l IH]; intros acc; simpl.
  - split; [intros Hn; split; [done |] | tauto].
    intros kv Hkv. by apply elem_of_nil in Hkv.
  - rewrite IH. unfold removeStale at 1. simpl.
    destruct (decide (kv0.1 ∈ currentIds)) as [Hk0 | Hk0]; simpl.
    + split; intros [Hn Hall]; (split; [done |]); intros kv Hkv Hstale.
      * apply elem_of_cons in Hkv as [-> | Hkv]; [done | by apply Hall].
      * apply Hall; [by right | done].
    + rewrite list_elem_of_filter.
      split.
      * intros [[Hne Hn] Hall]. split; [done |]. intros kv Hkv Hstale.
        apply elem_of_cons in Hkv as [-> | Hkv]; [by intros Heq; apply Hne | by apply Hall].
      * intros [Hn Hall]. split; [split; [| done] |].
        -- intros ->. apply (Hall kv0); [by left | done | done].
        -- intros kv Hkv. apply Hall. by right.
Qed.

Lemma removeStale_fold_rest (l : list (string * Mesh.t)) (acc : Engine * list Event) :
  let e' := (foldl (removeStale currentIds) acc l).1 in
  isInitialized e' = isInitialized acc.1 ∧ nextNode e' = nextNode acc.1
  ∧ timers e' = timers acc.1 ∧ sceneRotationY e' = sceneRotationY acc.1
  ∧ attached e' = attached acc.1 ∧ gizmoMode e' = gizmoMode acc.1.
Proof.
  revert acc. induction l as [|kv0 l IH]; intros acc; simpl; [done |].
  destruct (IH (removeStale currentIds acc kv0)) as (-> & -> & -> & -> & -> & ->).
  unfold removeStale. by case_decide.
Qed.

Lemma removeStale_fold_events (l : list (string * Mesh.t)) (acc : Engine * list Event)
    (kv : string * Mesh.t) :
  kv ∈ l → kv.1 ∉ currentIds →
  let evs := (foldl (removeStale currentIds) acc l).2 in
  SceneRemove (Mesh.node kv.2) ∈ evs
  ∧ DisposeGeometry (Mesh.geometry kv.2) ∈ evs
  ∧ DisposeMaterial (Mesh.material kv.2) ∈ evs.
Proof.
  assert (Hmono : ∀ l acc ev, ev ∈ acc.2 → ev ∈ (foldl (removeStale currentIds) acc l).2).
  { clear. intros l. induction l as [|kv0 l IH]; intros acc ev Hev; simpl; [done |].
    apply IH. unfold removeStale. case_decide; [done |]. simpl.
    apply elem_of_app. by left. }
  revert acc. induction l as [|kv0 l IH]; intros acc Hin Hstale; simpl.
  - by apply elem_of_nil in Hin.
  - apply elem_of_cons in Hin as [<- | Hin]; [| by apply IH].
    repeat split; apply Hmono; unfold removeStale; rewrite decide_False by done;
      simpl; apply elem_of_app; right; set_solver.
Qed.

Lemma removeStale_fold_nothing (l : list (string * Mesh.t)) (acc : Engine * list Event) :
  (∀ kv, kv ∈ l → kv.1 ∈ currentIds) →
  foldl (removeStale currentIds) acc l = acc.
Proof.
  revert acc. induction l as [|kv0 l IH]; intros acc Hall; simpl; [done |].
  unfold removeStale at 2. rewrite decide_True by (apply Hall; left).
  apply IH. intros kv Hkv. apply Hall. by right.
Qed.
End RemoveStale.

(** The first loop of the pass keeps exactly the entries whose id is in the
    store. *)
Lemma removed_lookup (S : gset string) (e : Engine) (evs : list Event) (k : string) :
  meshes (foldl (removeStale S) (e, evs) (map_to_list (meshes e))).1 !! k
  = if decide (k ∈ S) then meshes e !! k else None.
Proof.
  rewrite removeStale_fold_lookup. simpl.
  destruct (decide (k ∈ S)) as [Hk | Hk].
  - rewrite decide_False; [done | tauto].
  - destruct (meshes e !! k) as [m|] eqn:Hm.
    + rewrite decide_True; [done |]. split; [| done].
      apply list_elem_of_fmap. exists (k, m). split; [done |].
      by apply elem_of_map_to_list.
    + by case_decide.
Qed.

Lemma removed_wf (S : gset string) (e : Engine) (evs : list Event) :
  engine_wf e →
  engine_wf (foldl (removeStale S) (e, evs) (map_to_list (meshes e))).1.
Proof.
  intros [Hfresh Hin Hlive Hinj].
  pose proof (removeStale_fold_rest S (map_to_list (meshes e)) (e, evs))
    as (_ & Hnext & _).
  assert (Hkept : ∀ k m,
    meshes (foldl (removeStale S) (e, evs) (map_to_list (meshes e))).1 !! k = Some m
    ↔ meshes e !! k = Some m ∧ k ∈ S).
  { intros k m. rewrite removed_lookup. case_decide; naive_solver. }
  split.
  - intros k m [Hm _]%Hkept. rewrite Hnext. simpl. by eapply Hfresh.
  - intros k m [Hm Hk]%Hkept. apply removeStale_fold_scene. simpl.
    split; [by eapply Hin |].
    intros [k0 m0] Hkv%elem_of_map_to_list Hstale Heq. simpl in *.
    assert (k0 = k) as -> by (by eapply Hinj). done.
  - intros n [Hn Hall]%removeStale_fold_scene. simpl in *.
    destruct (Hlive n Hn) as (k & m & Hm & Hnode).
    exists k, m. split; [| done]. apply Hkept. split; [done |].
    destruct (decide (k ∈ S)) as [Hk | Hk]; [done |]. exfalso.
    apply (Hall (k, m)); [by apply elem_of_map_to_list | done | done].
  - intros k1 k2 m1 m2 [Hm1 _]%Hkept [Hm2 _]%Hkept. by eapply Hinj.
Qed.

Lemma paramsChanged_false (ud : UserData.t) (obj : ShapeObject.t) :
  paramsChanged ud obj = false ↔ ud = shapeParams obj.
Proof.
  unfold paramsChanged, shapeParams. destruct ud as [t r h]. simpl.
  rewrite !orb_false_iff, !bool_decide_eq_false.
  split.
  - intros [[Ht Hr] Hh]. apply dec_stable in Ht, Hr, Hh. by subst.
  - intros [= -> -> ->]. repeat split; by intros ?.
Qed.

(** What the second loop leaves alone. *)
Lemma syncObject_rest (acc : Engine * list Event) (obj : ShapeObject.t) :
  let e' := (syncObject acc obj).1 in
  isInitialized e' = isInitialized acc.1 ∧ timers e' = timers acc.1
  ∧ sceneRotationY e' = sceneRotationY acc.1 ∧ attached e' = attached acc.1
  ∧ gizmoMode e' = gizmoMode acc.1 ∧ (nextNode acc.1 ≤ nextNode e')%nat.
Proof.
  unfold syncObject. destruct (meshes acc.1 !! ShapeObject.id obj) as [m|]; simpl.
  - destruct (paramsChanged _ _); simpl; repeat split; lia.
  - repeat split; lia.
Qed.

Lemma syncObject_lookup_ne (acc : Engine * list Event) (obj : ShapeObject.t) (k : string) :
  k ≠ ShapeObject.id obj →
  meshes (syncObject acc obj).1 !! k = meshes acc.1 !! k.
Proof.
  intros Hne. unfold syncObject.
  destruct (meshes acc.1 !! ShapeObject.id obj) as [m|]; simpl.
  - destruct (paramsChanged _ _); simpl; by rewrite lookup_insert_ne.
  - by rewrite lookup_insert_ne.
Qed.

(** After its turn in the second loop an object has a mesh whose cache is
    the object's shape parameters. *)
Lemma syncObject_synced (acc : Engine * list Event) (obj : ShapeObject.t) :
  ∃ m, meshes (syncObject acc obj).1 !! ShapeObject.id obj = Some m
       ∧ Mesh.userData m = shapeParams obj.
Proof.
  unfold syncObject.
  destruct (meshes acc.1 !! ShapeObject.id obj) as [m|] eqn:Hm; simpl.
  - destruct (paramsChanged _ _) eqn:Hchanged; simpl;
      rewrite lookup_insert_eq; eexists; (split; [done |]); simpl; [done |].
    by apply paramsChanged_false.
  - rewrite lookup_insert_eq. by eexists.
Qed.

Lemma syncObject_update (acc : Engine * list Event) (obj : ShapeObject.t) (mesh : Mesh.t) :
  meshes acc.1 !! ShapeObject.id obj = Some mesh →
  syncObject acc obj
  = (set_meshes <[ShapeObject.id obj := updatedMesh mesh obj]> acc.1,
     acc.2 ++ updateEvents mesh obj).
Proof.
  intros Hm. unfold syncObject, updatedMesh, updateEvents. rewrite Hm. simpl.
  destruct (paramsChanged _ _); simpl; [done |]. by rewrite app_nil_r.
Qed.

Lemma updatedMesh_node (mesh : Mesh.t) (obj : ShapeObject.t) :
  Mesh.node (updatedMesh mesh obj) = Mesh.node mesh.
Proof. unfold updatedMesh. simpl. by destruct (paramsChanged _ _). Qed.

Lemma syncObject_wf (acc : Engine * list Event) (obj : ShapeObject.t) :
  engine_wf acc.1 → engine_wf (syncObject acc obj).1.
Proof.
  intros [Hfresh Hin Hlive Hinj].
  destruct (meshes acc.1 !! ShapeObject.id obj) as [m|] eqn:Hm.
  - (* the mesh is updated in place: same node under the same key *)
    rewrite (syncObject_update _ _ _ Hm). simpl.
    assert (Hlookup : ∀ k x,
      <[ShapeObject.id obj := updatedMesh m obj]> (meshes acc.1) !! k = Some x →
      ∃ x0, meshes acc.1 !! k = Some x0 ∧ Mesh.node x = Mesh.node x0).
    { intros k x. destruct (decide (k = ShapeObject.id obj)) as [-> | Hne].
      - rewrite lookup_insert_eq. intros [= <-]. exists m. by rewrite updatedMesh_node.
      - rewrite lookup_insert_ne by done. intros Hx. by exists x. }
    split; simpl.
    + intros k x (x0 & Hx0 & ->)%Hlookup. by eapply Hfresh.
    + intros k x (x0 & Hx0 & ->)%Hlookup. by eapply Hin.
    + intros n Hn. destruct (Hlive n Hn) as (k & x0 & Hx0 & <-).
      destruct (decide (k = ShapeObject.id obj)) as [-> | Hne].
      * eexists _, _. rewrite lookup_insert_eq. split; [done |].
        rewrite updatedMesh_node. congruence.
      * exists k, x0. by rewrite lookup_insert_ne.
    + intros k1 k2 x1 x2 (y1 & Hy1 & ->)%Hlookup (y2 & Hy2 & ->)%Hlookup. by eapply Hinj.
  - (* a new mesh: its node is the counter, which no mesh has yet *)
    unfold syncObject. rewrite Hm. split; simpl.
    + intros k x. destruct (decide (k = ShapeObject.id obj)) as [-> | Hne].
      * rewrite lookup_insert_eq. intros [= <-]. simpl. lia.
      * rewrite lookup_insert_ne by done. intros Hx%Hfresh. lia.
    + intros k x. rewrite elem_of_app, list_elem_of_singleton.
      destruct (decide (k = ShapeObject.id obj)) as [-> | Hne].
      * rewrite lookup_insert_eq. intros [= <-]. by right.
      * rewrite lookup_insert_ne by done. intros Hx%Hin. by left.
    + intros n. rewrite elem_of_app, list_elem_of_singleton. intros [Hn | ->].
      * destruct (Hlive n Hn) as (k & x & Hx & <-). exists k, x. split; [| done].
        rewrite lookup_insert_ne; [done |]. intros <-. congruence.
      * eexists _, _. by rewrite lookup_insert_eq.
    + intros k1 k2 x1 x2.
      destruct (decide (k1 = ShapeObject.id obj)) as [-> | Hne1];
        destruct (decide (k2 = ShapeObject.id obj)) as [-> | Hne2]; [done | | |].
      * rewrite lookup_insert_eq, lookup_insert_ne by done.
        intros [= <-] Hx2%Hfresh. simpl. lia.
      * rewrite lookup_insert_eq, lookup_insert_ne by done.
        intros Hx1%Hfresh [= <-]. simpl. lia.
      * rewrite !lookup_insert_ne by done. by apply Hinj.
Qed.

Section SyncFold.
Implicit Types (acc : Engine * list Event) (objs : list ShapeObject.t).

Lemma sync_fold_wf objs acc :
  engine_wf acc.1 → engine_wf (foldl syncObject acc objs).1.
Proof.
  revert acc. induction objs as [|o objs IH]; intros acc Hwf; simpl; [done |].
  by apply IH, syncObject_wf.
Qed.

Lemma sync_fold_rest objs acc :
  let e' := (foldl syncObject acc objs).1 in
  isInitialized e' = isInitialized acc.1 ∧ timers e' = timers acc.1
  ∧ sceneRotationY e' = sceneRotationY acc.1 ∧ attached e' = attached acc.1
  ∧ gizmoMode e' = gizmoMode acc.1 ∧ (nextNode acc.1 ≤ nextNode e')%nat.
Proof.
  revert acc. induction objs as [|o objs IH]; intros acc; simpl; [repeat split; lia |].
  destruct (IH (syncObject acc o)) as (-> & -> & -> & -> & -> & Hle).
  destruct (syncObject_rest acc o) as (-> & -> & -> & -> & -> & Hle').
  repeat split. lia.
Qed.

Lemma sync_fold_lookup_ne objs acc (k : string) :
  k ∉ ids objs →
  meshes (foldl syncObject acc objs).1 !! k = meshes acc.1 !! k.
Proof.
  revert acc. induction objs as [|o objs IH]; intros acc Hk; simpl; [done |].
  unfold ids in Hk. rewrite fmap_cons in Hk. apply not_elem_of_cons in Hk as [Hne Hk].
  rewrite IH by done. by apply syncObject_lookup_ne.
Qed.

Lemma sync_fold_dom objs acc :
  dom (meshes (foldl syncObject acc objs).1)
  = dom (meshes acc.1) ∪ list_to_set (ids objs).
Proof.
  revert acc. induction objs as [|o objs IH]; intros acc; simpl.
  - set_solver.
  - rewrite IH. unfold syncObject.
    destruct (meshes acc.1 !! ShapeObject.id o) as [m|] eqn:Hm; simpl.
    + assert (ShapeObject.id o ∈ dom (meshes acc.1)) by (apply elem_of_dom; eauto).
      destruct (paramsChanged _ _); simpl; rewrite dom_insert_L; set_solver.
    + rewrite dom_insert_L. set_solver.
Qed.

(** With unique ids, every object of the list ends the loop with a mesh
    whose cache holds the object's shape parameters. *)
Lemma sync_fold_synced objs acc (obj : ShapeObject.t) :
  NoDup (ids objs) → obj ∈ objs →
  ∃ m, meshes (foldl syncObject acc objs).1 !! ShapeObject.id obj = Some m
       ∧ Mesh.userData m = shapeParams obj.
Proof.
  revert acc. induction objs as [|o objs IH]; intros acc Hnd Hin; simpl.
  - by apply elem_of_nil in Hin.
  - unfold ids in Hnd. rewrite fmap_cons in Hnd. apply NoDup_cons in Hnd as [Hnotin Hnd].
    apply elem_of_cons in Hin as [-> | Hin]; [| by apply IH].
    rewrite sync_fold_lookup_ne by done. apply syncObject_synced.
Qed.

(** The graphics calls of the loop are only ever appended. *)
Lemma sync_fold_events_mono objs acc (ev : Event) :
  ev ∈ acc.2 → ev ∈ (foldl syncObject acc objs).2.
Proof.
  revert acc. induction objs as [|o objs IH]; intros acc Hev; simpl; [done |].
  apply IH. unfold syncObject.
  destruct (meshes acc.1 !! ShapeObject.id o) as [m|]; simpl.
  - destruct (paramsChanged _ _); simpl; [| done]. apply elem_of_app. by left.
  - apply elem_of_app. by left.
Qed.

(** A node that is in the scene after the loop was there before or is
    new. *)
Lemma sync_fold_scene objs acc (n : nat) :
  n ∈ sceneMeshes (foldl syncObject acc objs).1 →
  n ∈ sceneMeshes acc.1 ∨ (nextNode acc.1 ≤ n)%nat.
Proof.
  revert acc. induction objs as [|o objs IH]; intros acc Hn; simpl in *; [by left |].
  apply IH in Hn. revert Hn. unfold syncObject.
  destruct (meshes acc.1 !! ShapeObject.id o) as [m|]; simpl.
  - destruct (paramsChanged _ _); simpl; tauto.
  - rewrite elem_of_app, list_elem_of_singleton. intros [[Hn | ->] | Hle]; [by left | | ].
    + right. lia.
    + right. lia.
Qed.
End SyncFold.

Lemma updateEvents_synced (mesh : Mesh.t) (obj : ShapeObject.t) :
  Mesh.userData mesh = shapeParams obj →
  updateEvents mesh obj = [] ∧ updatedMesh mesh obj = updateBasicProps mesh obj.
Proof.
  intros Hud%paramsChanged_false. unfold updateEvents, updatedMesh. simpl.
  by rewrite Hud.
Qed.

Lemma updateEvents_changed (mesh : Mesh.t) (obj : ShapeObject.t) :
  Mesh.userData mesh ≠ shapeParams obj →
  updateEvents mesh obj
  = [DisposeGeometry (Mesh.geometry mesh);
     NewGeometry (createGeometry (ShapeObject.type obj) (ShapeObject.radius obj)
                    (ShapeObject.height obj))]
  ∧ updatedMesh mesh obj = resetGeometry (updateBasicProps mesh obj) obj.
Proof.
  intros Hud. unfold updateEvents, updatedMesh. simpl.
  destruct (paramsChanged (Mesh.userData mesh) obj) eqn:Hchanged; [done |].
  by apply paramsChanged_false in Hchanged.
Qed.

Lemma updateGizmo_meshes (st : AppState) (e : Engine) :
  meshes (updateGizmo st e) = meshes e ∧ sceneMeshes (updateGizmo st e) = sceneMeshes e
  ∧ nextNode (updateGizmo st e) = nextNode e
  ∧ isInitialized (updateGizmo st e) = isInitialized e
  ∧ timers (updateGizmo st e) = timers e.
Proof.
  unfold updateGizmo. destruct (truthy _ && _); [| done].
  by destruct (selectedId st ≫= _).
Qed.

(** A loop over objects that are all in sync makes no graphics call and
    leaves every cache as it was. *)
Lemma sync_fold_quiet (objs : list ShapeObject.t) (acc : Engine * list Event) :
  (∀ obj, obj ∈ objs → synced acc.1 obj) →
  (foldl syncObject acc objs).2 = acc.2
  ∧ ∀ obj, synced acc.1 obj → synced (foldl syncObject acc objs).1 obj.
Proof.
  revert acc. induction objs as [|o objs IH]; intros acc Hall; simpl; [done |].
  destruct (Hall o) as (m & Hm & Hud); [by left |].
  assert (Hstep : ∀ obj, synced acc.1 obj → synced (syncObject acc o).1 obj).
  { intros obj (m' & Hm' & Hud'). rewrite (syncObject_update _ _ _ Hm).
    unfold synced. simpl.
    destruct (updateEvents_synced m o Hud) as [_ ->].
    destruct (decide (ShapeObject.id obj = ShapeObject.id o)) as [Heq | Hne].
    - exists (updateBasicProps m o). rewrite Heq, lookup_insert_eq. split; [done |].
      simpl. congruence.
    - exists m'. by rewrite lookup_insert_ne. }
  destruct (IH (syncObject acc o)) as [Hevs Hkeep].
  { intros obj Hobj. apply Hstep, Hall. by right. }
  split.
  - rewrite Hevs, (syncObject_update _ _ _ Hm). simpl.
    destruct (updateEvents_synced m o Hud) as [-> _]. by rewrite app_nil_r.
  - intros obj Hobj. by apply Hkeep, Hstep.
Qed.

(** ** The pass as a whole *)

Lemma pass_meshes (st : AppState) (e : Engine) :
  isInitialized e = true →
  meshes (updateObjectsEffect st e).1
  = meshes (foldl syncObject
              (foldl (removeStale (list_to_set (ids (objects st)))) (e, [])
                 (map_to_list (meshes e)))
              (objects st)).1.
Proof.
  intros Hinit. unfold updateObjectsEffect. rewrite Hinit. simpl.
  apply updateGizmo_meshes.
Qed.

Lemma pass_dom (st : AppState) (e : Engine) :
  isInitialized e = true →
  dom (meshes (updateObjectsEffect st e).1) = list_to_set (ids (objects st)).
Proof.
  intros Hinit. rewrite pass_meshes by done. rewrite sync_fold_dom.
  apply set_eq. intros k. rewrite elem_of_union, elem_of_dom.
  rewrite removed_lookup. case_decide; [tauto |].
  split; [intros [[? [=]] | ?]; done | tauto].
Qed.

Lemma pass_synced (st : AppState) (e : Engine) (obj : ShapeObject.t) :
  isInitialized e = true → uniqueIds st → obj ∈ objects st →
  synced (updateObjectsEffect st e).1 obj.
Proof.
  intros Hinit Hu Hobj. unfold synced. rewrite pass_meshes by done.
  by apply sync_fold_synced.
Qed.

Lemma pass_initialized (st : AppState) (e : Engine) :
  isInitialized (updateObjectsEffect st e).1 = isInitialized e.
Proof.
  unfold updateObjectsEffect. destruct (isInitialized e) eqn:Hinit; simpl; [| done].
  destruct (updateGizmo_meshes st
    (foldl syncObject
       (foldl (removeStale (list_to_set (ids (objects st)))) (e, [])
          (map_to_list (meshes e))) (objects st)).1) as (_ & _ & _ & -> & _).
  destruct (sync_fold_rest (objects st)
    (foldl (removeStale (list_to_set (ids (objects st)))) (e, [])
       (map_to_list (meshes e)))) as (-> & _).
  by destruct (removeStale_fold_rest (list_to_set (ids (objects st)))
    (map_to_list (meshes e)) (e, [])) as (-> & _).
Qed.

(** A pass over a store whose objects are all in sync, on an engine that has
    no mesh outside the store, makes no graphics call. *)
Lemma pass_quiet (st : AppState) (e : Engine) :
  dom (meshes e) ⊆ list_to_set (ids (objects st)) →
  (∀ obj, obj ∈ objects st → synced e obj) →
  (updateObjectsEffect st e).2 = [].
Proof.
  intros Hdom Hsynced. unfold updateObjectsEffect.
  destruct (isInitialized e); simpl; [| done].
  rewrite removeStale_fold_nothing.
  - by apply sync_fold_quiet.
  - intros [k m] Hkm%elem_of_map_to_list. simpl. apply Hdom, elem_of_dom. eauto.
Qed.

(** C2: with unique ids, a second pass over the same objects makes no
    graphics call at all: no geometry is allocated and neither a geometry
    nor a material is disposed. *)
Theorem reconciliation_idempotent (st st' : AppState) (e : Engine) :
  uniqueIds st → objects st' = objects st →
  let e1 := (updateObjectsEffect st e).1 in
  let evs := (updateObjectsEffect st' e1).2 in
  evs = [] ∧ geometryAllocations evs = 0%nat ∧ disposals evs = 0%nat.
Proof.
  intros Hu Hobjs e1 evs.
  assert (Hnil : evs = []).
  { subst evs e1. destruct (isInitialized e) eqn:Hinit.
    - apply pass_quiet.
      + rewrite Hobjs, pass_dom by done. done.
      + rewrite Hobjs. intros obj Hobj. by apply pass_synced.
    - unfold updateObjectsEffect at 1.
      pose proof (pass_initialized st e) as Hinit'. rewrite Hinit in Hinit'.
      by rewrite Hinit'. }
  by rewrite Hnil.
Qed.

Lemma mounted_wf : engine_wf mounted.
Proof. split; simpl; intros *; try rewrite lookup_empty; try done. by intros ?%elem_of_nil. Qed.

Lemma pass_wf (st : AppState) (e : Engine) :
  engine_wf e → engine_wf (updateObjectsEffect st e).1.
Proof.
  intros Hwf. unfold updateObjectsEffect. destruct (isInitialized e); simpl; [| done].
  pose proof (sync_fold_wf (objects st) _
                (removed_wf (list_to_set (ids (objects st))) e [] Hwf)) as Hwf'.
  destruct (updateGizmo_meshes st
    (foldl syncObject
       (foldl (removeStale (list_to_set (ids (objects st)))) (e, [])
          (map_to_list (meshes e))) (objects st)).1) as (Hm & Hs & Hn & _).
  destruct Hwf' as [Hfresh Hin Hlive Hinj].
  split; rewrite ?Hm, ?Hs, ?Hn; done.
Qed.

(** The pass on an arbitrary store: afterwards the ids with a mesh are the
    ids of the store, and the mesh of an id that is not in the store is out
    of the scene with its geometry and material disposed. *)
Lemma pass_complete (st : AppState) (e : Engine) :
  isInitialized e = true → engine_wf e →
  dom (meshes (updateObjectsEffect st e).1) = list_to_set (ids (objects st))
  ∧ (∀ k, hasLiveNode (updateObjectsEffect st e).1 k ↔ k ∈ ids (objects st))
  ∧ engine_wf (updateObjectsEffect st e).1
  ∧ (∀ k m, meshes e !! k = Some m → k ∉ ids (objects st) →
       (Mesh.node m ∉ sceneMeshes (updateObjectsEffect st e).1)
       ∧ SceneRemove (Mesh.node m) ∈ (updateObjectsEffect st e).2
       ∧ DisposeGeometry (Mesh.geometry m) ∈ (updateObjectsEffect st e).2
       ∧ DisposeMaterial (Mesh.material m) ∈ (updateObjectsEffect st e).2).
Proof.
  intros Hinit Hwf.
  pose proof (pass_dom st e Hinit) as Hdom.
  pose proof (pass_wf st e Hwf) as Hwf'.
  split; [done |]. split; [| split; [done |]].
  - intros k. unfold hasLiveNode. split.
    + intros (m & Hm & _).
      assert (Hk : k ∈ dom (meshes (updateObjectsEffect st e).1)) by (apply elem_of_dom; eauto).
      rewrite Hdom in Hk. by apply elem_of_list_to_set in Hk.
    + intros Hk. apply (elem_of_list_to_set (C := gset string)) in Hk.
      rewrite <- Hdom in Hk. apply elem_of_dom in Hk as [m Hm].
      exists m. split; [done |]. by eapply (wf_in_scene _ Hwf').
  - intros k m Hm Hk.
    assert (Hstale : (k, m).1 ∉ (list_to_set (ids (objects st)) : gset string)).
    { simpl. by rewrite elem_of_list_to_set. }
    assert (Hentry : (k, m) ∈ map_to_list (meshes e)) by (by apply elem_of_map_to_list).
    unfold updateObjectsEffect. rewrite Hinit. simpl.
    destruct (updateGizmo_meshes st
      (foldl syncObject
         (foldl (removeStale (list_to_set (ids (objects st)))) (e, [])
            (map_to_list (meshes e))) (objects st)).1) as (_ & -> & _).
    split.
    + intros Hn. apply sync_fold_scene in Hn as [Hn | Hn].
      * apply removeStale_fold_scene in Hn as [_ Hall].
        by apply (Hall (k, m)).
      * destruct (removeStale_fold_rest (list_to_set (ids (objects st)))
          (map_to_list (meshes e)) (e, [])) as (_ & Hnext & _).
        rewrite Hnext in Hn. simpl in Hn.
        pose proof (wf_fresh _ Hwf k m Hm). lia.
    + destruct (removeStale_fold_events (list_to_set (ids (objects st)))
        (map_to_list (meshes e)) (e, []) (k, m) Hentry Hstale) as (H1 & H2 & H3).
      repeat split; by apply sync_fold_events_mono.
Qed.

(** C1: after the store has gone through any sequence of its operations,
    one pass of the effect on an initialised engine leaves exactly the ids of
    the store with a live scene node: the keys of [meshesRef] are the ids of
    the store, an id has a mesh in the scene if and only if it is in the
    store, the scene and [meshesRef] stay consistent, and a mesh whose id is
    no longer in the store is removed from the scene and its geometry and
    material are disposed. *)
Theorem reconciliation_complete (ops : list StoreOp) (st0 : AppState) (e : Engine) :
  isInitialized e = true → engine_wf e →
  let st := applyOps ops st0 in
  let pass := updateObjectsEffect st e in
  dom (meshes pass.1) = list_to_set (ids (objects st))
  ∧ (∀ k, hasLiveNode pass.1 k ↔ k ∈ ids (objects st))
  ∧ engine_wf pass.1
  ∧ (∀ k m, meshes e !! k = Some m → k ∉ ids (objects st) →
       (Mesh.node m ∉ sceneMeshes pass.1)
       ∧ SceneRemove (Mesh.node m) ∈ pass.2
       ∧ DisposeGeometry (Mesh.geometry m) ∈ pass.2
       ∧ DisposeMaterial (Mesh.material m) ∈ pass.2).
Proof. intros Hinit Hwf st pass. by apply pass_complete. Qed.

Lemma reconciliation_complete_witness :
  let e := (updateObjectsEffect initialState mounted).1 in
  let st := applyOps [op_addObject sampleDraws; op_deleteObject "1"] initialState in
  dom (meshes (updateObjectsEffect st e).1) = list_to_set (ids (objects st))
  ∧ ∀ k, hasLiveNode (updateObjectsEffect st e).1 k ↔ k ∈ ids (objects st).
Proof.
  intros e st.
  destruct (reconciliation_complete
              [op_addObject sampleDraws; op_deleteObject "1"] initialState e)
    as (Hdom & Hlive & _).
  - unfold e. rewrite pass_initialized. reflexivity.
  - apply pass_wf, mounted_wf.
  - split; [exact Hdom | exact Hlive].
Defined.

(** ** Updates of the selected object *)

Lemma assign_color (o : ShapeObject.t) (c : string) :
  ShapeObject.id (assign o (f_color c)) = ShapeObject.id o
  ∧ shapeParams (assign o (f_color c)) = shapeParams o.
Proof. by destruct o. Qed.

Lemma assign_radius (o : ShapeObject.t) (r : R) :
  ShapeObject.id (assign o (f_radius r)) = ShapeObject.id o
  ∧ ShapeObject.type (assign o (f_radius r)) = ShapeObject.type o
  ∧ ShapeObject.radius (assign o (f_radius r)) = r
  ∧ ShapeObject.height (assign o (f_radius r)) = ShapeObject.height o.
Proof. by destruct o. Qed.

(** The objects after [updateSelectedObject] with a selection [sel] that is
    not falsy. *)
Lemma updateSelectedObject_objects (updates : list Field) (st : AppState) (sel : string) :
  selectedId st = Some sel → sel ≠ ""%string →
  objects (updateSelectedObject updates st)
  = (λ o, if decide (ShapeObject.id o = sel) then spread o updates else o) <$> objects st.
Proof.
  intros Hsel Hne. unfold updateSelectedObject. rewrite Hsel. simpl.
  rewrite bool_decide_eq_true_2 by done. simpl.
  apply list_fmap_ext. intros i o _.
  destruct (decide (ShapeObject.id o = sel)) as [-> | Hne'].
  - by rewrite decide_True.
  - rewrite decide_False; [done |]. by intros [= ?].
Qed.

(** An update of the colour keeps every id and every shape triple. *)
Lemma updateSelectedObject_color (c : string) (st : AppState) :
  ∃ f : ShapeObject.t → ShapeObject.t,
    objects (updateSelectedObject [f_color c] st) = f <$> objects st
    ∧ ∀ o, ShapeObject.id (f o) = ShapeObject.id o ∧ shapeParams (f o) = shapeParams o.
Proof.
  unfold updateSelectedObject. destruct (truthy (selectedId st)); simpl.
  - eexists. split; [reflexivity |]. intros o. simpl.
    case_decide; [apply assign_color | done].
  - exists (λ o, o). by rewrite list_fmap_id.
Qed.

(** C3: once an object has a live node from a pass, a pass after an update
    of the selected object's colour alone makes no graphics call (so no
    geometry is disposed or rebuilt), while a pass after an update of its
    radius to a different value disposes the geometry the mesh had and
    builds the one for the new radius, and refreshes the cache. In every
    update of a live mesh the geometry is disposed and rebuilt exactly when
    the cached (type, radius, height) differs from the object's. *)
Theorem geometry_rebuild_minimal (st : AppState) (e : Engine) (obj : ShapeObject.t) :
  isInitialized e = true → uniqueIds st → obj ∈ objects st →
  selectedId st = Some (ShapeObject.id obj) → ShapeObject.id obj ≠ ""%string →
  let e1 := (updateObjectsEffect st e).1 in
  (∃ mesh,
      meshes e1 !! ShapeObject.id obj = Some mesh
      ∧ Mesh.userData mesh = shapeParams obj
      ∧ (∀ c, (updateObjectsEffect (updateSelectedObject [f_color c] st) e1).2 = [])
      ∧ (∀ r, r ≠ ShapeObject.radius obj →
           let pass := updateObjectsEffect (updateSelectedObject [f_radius r] st) e1 in
           pass.2 = [DisposeGeometry (Mesh.geometry mesh);
                     NewGeometry (createGeometry (ShapeObject.type obj) r
                                    (ShapeObject.height obj))]
           ∧ ∃ mesh', meshes pass.1 !! ShapeObject.id obj = Some mesh'
                      ∧ Mesh.geometry mesh'
                        = createGeometry (ShapeObject.type obj) r (ShapeObject.height obj)
                      ∧ Mesh.userData mesh'
                        = UserData.mk (ShapeObject.type obj) r (ShapeObject.height obj)))
  ∧ (∀ acc o mesh, meshes acc.1 !! ShapeObject.id o = Some mesh →
       (syncObject acc o).2
       = acc.2 ++ (if decide (Mesh.userData mesh = shapeParams o) then []
                   else [DisposeGeometry (Mesh.geometry mesh);
                         NewGeometry (createGeometry (ShapeObject.type o)
                                        (ShapeObject.radius o) (ShapeObject.height o))])).
Proof.
  intros Hinit Hu Hobj Hsel Hne e1. split.
  - destruct (pass_synced st e obj Hinit Hu Hobj) as (mesh & Hmesh & Hud).
    fold e1 in Hmesh. exists mesh. split; [done |]. split; [done |].
    assert (Hinit1 : isInitialized e1 = true) by (unfold e1; by rewrite pass_initialized).
    assert (Hdom1 : dom (meshes e1) = list_to_set (ids (objects st))) by (by apply pass_dom).
    split.
    + (* colour *)
      intros c. destruct (updateSelectedObject_color c st) as (f & Hobjs & Hf).
      apply pass_quiet.
      * rewrite Hobjs, ids_fmap_preserved by apply Hf. by rewrite Hdom1.
      * rewrite Hobjs. intros o' (o & -> & Ho)%list_elem_of_fmap.
        destruct (pass_synced st e o Hinit Hu Ho) as (m & Hm & Hudm).
        exists m. destruct (Hf o) as [-> ->]. done.
    + (* radius *)
      intros r Hr pass.
      apply list_elem_of_split in Hobj as (l1 & l2 & Hsplit).
      assert (Hnd : NoDup (ids l1 ++ ShapeObject.id obj :: ids l2)).
      { unfold uniqueIds in Hu. rewrite Hsplit in Hu. unfold ids in *.
        by rewrite fmap_app, fmap_cons in Hu. }
      apply NoDup_app in Hnd as (Hnd1 & Hdisj & [Hnot2 Hnd2]%NoDup_cons).
      assert (Hnot1 : ShapeObject.id obj ∉ ids l1).
      { intros Hin. apply (Hdisj _ Hin). by left. }
      set (obj' := assign obj (f_radius r)).
      destruct (assign_radius obj r) as (Hid' & Hty' & Hrad' & Hh').
      fold obj' in Hid', Hty', Hrad', Hh'.
      assert (Hobjs : objects (updateSelectedObject [f_radius r] st) = l1 ++ obj' :: l2).
      { rewrite (updateSelectedObject_objects _ _ _ Hsel Hne), Hsplit.
        rewrite fmap_app, fmap_cons. rewrite decide_True by done. f_equal; [| f_equal].
        - rewrite <- (list_fmap_id l1) at 2. apply list_fmap_ext. intros i o Ho.
          rewrite decide_False; [done |]. intros Heq. apply Hnot1. rewrite <- Heq.
          apply list_elem_of_fmap. exists o. split; [done |]. by eapply list_elem_of_lookup_2.
        - rewrite <- (list_fmap_id l2) at 2. apply list_fmap_ext. intros i o Ho.
          rewrite decide_False; [done |]. intros Heq. apply Hnot2. rewrite <- Heq.
          apply list_elem_of_fmap. exists o. split; [done |]. by eapply list_elem_of_lookup_2. }
      assert (Hids : ids (objects (updateSelectedObject [f_radius r] st)) = ids (objects st)).
      { rewrite Hobjs, Hsplit. unfold ids. rewrite !fmap_app, !fmap_cons. by rewrite Hid'. }
      assert (Hsynced : ∀ o, o ∈ l1 ∨ o ∈ l2 → synced e1 o).
      { intros o Ho. apply pass_synced; [done | done |]. rewrite Hsplit.
        apply elem_of_app. destruct Ho; [by left | right; by right]. }
      (* the pass, loop by loop *)
      assert (Hpass : pass = (updateGizmo (updateSelectedObject [f_radius r] st)
                 (foldl syncObject (syncObject (foldl syncObject (e1, []) l1) obj') l2).1,
               (foldl syncObject (syncObject (foldl syncObject (e1, []) l1) obj') l2).2)).
      { unfold pass, updateObjectsEffect. rewrite Hinit1. simpl.
        rewrite Hids, removeStale_fold_nothing.
        - by rewrite Hobjs, foldl_app.
        - intros [k m] Hkm%elem_of_map_to_list. simpl. rewrite <- Hdom1.
          apply elem_of_dom. eauto. }
      destruct (sync_fold_quiet l1 (e1, [])) as [Hevs1 _].
      { intros o Ho. apply Hsynced. by left. }
      simpl in Hevs1.
      assert (Hmesh1 : meshes (foldl syncObject (e1, []) l1).1 !! ShapeObject.id obj'
                       = Some mesh).
      { rewrite Hid', sync_fold_lookup_ne by done. done. }
      assert (Hdiff : Mesh.userData mesh ≠ shapeParams obj').
      { rewrite Hud. unfold shapeParams. rewrite Hrad'. intros [= _ Heq _]. by apply Hr. }
      destruct (updateEvents_changed mesh obj' Hdiff) as [Hevs Hnew].
      rewrite (syncObject_update _ _ _ Hmesh1), Hevs1, Hevs, Hnew in Hpass.
      rewrite Hty', Hrad', Hh', Hid' in Hpass. simpl in Hpass.
      destruct (sync_fold_quiet l2
        (set_meshes <[ShapeObject.id obj :=
                        resetGeometry (updateBasicProps mesh obj') obj']>
           (foldl syncObject (e1, []) l1).1,
         [DisposeGeometry (Mesh.geometry mesh);
          NewGeometry (createGeometry (ShapeObject.type obj) r (ShapeObject.height obj))]))
        as [Hevs2 _].
      { intros o Ho. destruct (Hsynced o) as (m & Hm & Hudm); [by right |].
        assert (Hne2 : ShapeObject.id o ≠ ShapeObject.id obj).
        { intros Heq. apply Hnot2. rewrite <- Heq. apply list_elem_of_fmap. by exists o. }
        assert (Hne1 : ShapeObject.id o ∉ ids l1).
        { intros Hin. apply (Hdisj _ Hin). right. apply list_elem_of_fmap. by exists o. }
        exists m. simpl. rewrite lookup_insert_ne by done.
        by rewrite sync_fold_lookup_ne. }
      rewrite Hpass. simpl. split; [exact Hevs2 |].
      destruct (updateGizmo_meshes (updateSelectedObject [f_radius r] st)
        (foldl syncObject
           (set_meshes <[ShapeObject.id obj :=
                           resetGeometry (updateBasicProps mesh obj') obj']>
              (foldl syncObject (e1, []) l1).1,
            [DisposeGeometry (Mesh.geometry mesh);
             NewGeometry (createGeometry (ShapeObject.type obj) r (ShapeObject.height obj))])
           l2).1) as (-> & _).
      rewrite sync_fold_lookup_ne by done. simpl. rewrite lookup_insert_eq.
      eexists. split; [done |]. simpl. unfold shapeParams.
      by rewrite Hty', Hrad', Hh'.
  - intros acc o mesh Hmesh. rewrite (syncObject_update _ _ _ Hmesh). simpl.
    f_equal. case_decide as Hud.
    + by apply updateEvents_synced.
    + by apply updateEvents_changed.
Qed.

Lemma reconciliation_idempotent_witness :
  let e1 := (updateObjectsEffect initialState mounted).1 in
  (updateObjectsEffect (set_selectedId None initialState) e1).2 = [].
Proof.
  intros e1.
  apply (reconciliation_idempotent initialState (set_selectedId None initialState) mounted).
  - unfold uniqueIds. simpl. apply (bool_decide_unpack _). vm_compute. reflexivity.
  - reflexivity.
Defined.

Lemma geometry_rebuild_minimal_witness :
  let e1 := (updateObjectsEffect initialState mounted).1 in
  (updateObjectsEffect (updateSelectedObject [f_color "#ff0000"] initialState) e1).2 = []
  ∧ geometryAllocations
      (updateObjectsEffect (updateSelectedObject [f_radius 4] initialState) e1).2 = 1%nat
  ∧ disposals
      (updateObjectsEffect (updateSelectedObject [f_radius 4] initialState) e1).2 = 1%nat.
Proof.
  intros e1.
  destruct (geometry_rebuild_minimal initialState mounted initialObject)
    as [(mesh & _ & _ & Hcolor & Hradius) _].
  - reflexivity.
  - unfold uniqueIds. simpl. apply (bool_decide_unpack _). vm_compute. reflexivity.
  - simpl. left.
  - reflexivity.
  - simpl. discriminate.
  - split; [apply Hcolor |].
    destruct (Hradius 4) as [Hevs _]; [simpl; lra |].
    fold e1 in Hevs. rewrite Hevs. split; reflexivity.
Defined.

(** ** KineticSimulator *)

Lemma spin_position (obj : ShapeObject.t) (mesh : Mesh.t) :
  Mesh.position (spin obj mesh) = Mesh.position mesh.
Proof. unfold spin. by destruct (ShapeObject.isAnimated obj). Qed.

Lemma animateObject_lookup_ne (time : R) (e : Engine) (o : ShapeObject.t) (k : string) :
  k ≠ ShapeObject.id o →
  meshes (animateObject time e o) !! k = meshes e !! k.
Proof.
  intros Hne. unfold animateObject.
  destruct (meshes e !! ShapeObject.id o) as [mesh|]; [| done].
  destruct (move _ _ _).2; simpl; by rewrite lookup_insert_ne.
Qed.

Lemma animateObject_position (time : R) (e : Engine) (o : ShapeObject.t) (p : Vector3.t) :
  nodePosition e (ShapeObject.id o) = Some p →
  nodePosition (animateObject time e o) (ShapeObject.id o) = Some (move time o p).1.
Proof.
  unfold nodePosition, animateObject.
  destruct (meshes e !! ShapeObject.id o) as [mesh|]; [| done].
  intros [= <-]. rewrite spin_position.
  destruct (move _ _ _).2; simpl; by rewrite lookup_insert_eq.
Qed.

Lemma animateObject_timers (time : R) (e : Engine) (o : ShapeObject.t) (tm : Timer) :
  tm ∈ timers e → tm ∈ timers (animateObject time e o).
Proof.
  intros Htm. unfold animateObject.
  destruct (meshes e !! ShapeObject.id o) as [mesh|]; [| done].
  destruct (move _ _ _).2; simpl; [| done]. apply elem_of_app. by left.
Qed.

Lemma animateObject_arrived (time : R) (e : Engine) (o : ShapeObject.t) (p : Vector3.t) :
  nodePosition e (ShapeObject.id o) = Some p →
  (move time o p).2 = true →
  mkTimer (ShapeObject.id o) (ShapeObject.originalPosition o)
    ∈ timers (animateObject time e o).
Proof.
  unfold nodePosition, animateObject.
  destruct (meshes e !! ShapeObject.id o) as [mesh|]; [| done].
  intros [= <-]. rewrite spin_position. intros ->. simpl.
  apply elem_of_app. right. by left.
Qed.

Section AnimateFold.
Variable time : R.

Lemma animate_fold_lookup_ne (objs : list ShapeObject.t) (e : Engine) (k : string) :
  k ∉ ids objs →
  meshes (foldl (animateObject time) e objs) !! k = meshes e !! k.
Proof.
  revert e. induction objs as [|o objs IH]; intros e Hk; simpl; [done |].
  unfold ids in Hk. rewrite fmap_cons in Hk. apply not_elem_of_cons in Hk as [Hne Hk].
  rewrite IH by done. by apply animateObject_lookup_ne.
Qed.

Lemma animate_fold_timers (objs : list ShapeObject.t) (e : Engine) (tm : Timer) :
  tm ∈ timers e → tm ∈ timers (foldl (animateObject time) e objs).
Proof.
  revert e. induction objs as [|o objs IH]; intros e Htm; simpl; [done |].
  by apply IH, animateObject_timers.
Qed.

(** With unique ids the node of an object is moved by the turn of that
    object alone. *)
Lemma animate_fold_position (objs : list ShapeObject.t) (e : Engine)
    (o : ShapeObject.t) (p : Vector3.t) :
  NoDup (ids objs) → o ∈ objs →
  nodePosition e (ShapeObject.id o) = Some p →
  nodePosition (foldl (animateObject time) e objs) (ShapeObject.id o)
  = Some (move time o p).1
  ∧ ((move time o p).2 = true →
     mkTimer (ShapeObject.id o) (ShapeObject.originalPosition o)
       ∈ timers (foldl (animateObject time) e objs)).
Proof.
  revert e. induction objs as [|o' objs IH]; intros e Hnd Hin Hp; simpl.
  - by apply elem_of_nil in Hin.
  - unfold ids in Hnd. rewrite fmap_cons in Hnd. apply NoDup_cons in Hnd as [Hnotin Hnd].
    apply elem_of_cons in Hin as [-> | Hin].
    + split.
      * unfold nodePosition. rewrite animate_fold_lookup_ne by done.
        by apply animateObject_position.
      * intros Harrived. apply animate_fold_timers. by eapply animateObject_arrived.
    + apply IH; [done | done |].
      unfold nodePosition in *. rewrite animateObject_lookup_ne; [done |].
      intros Heq. apply Hnotin. rewrite <- Heq. apply list_elem_of_fmap. by exists o.
Qed.
End AnimateFold.

(** One frame moves the node of an object of a store with unique ids as
    [move] says, and sets the commit timer when [move] reports arrival. *)
Lemma animate_position (now : R) (st : AppState) (e : Engine)
    (o : ShapeObject.t) (p : Vector3.t) :
  uniqueIds st → o ∈ objects st →
  nodePosition e (ShapeObject.id o) = Some p →
  nodePosition (animate now st e) (ShapeObject.id o) = Some (move (now * 0.001) o p).1
  ∧ ((move (now * 0.001) o p).2 = true →
     mkTimer (ShapeObject.id o) (ShapeObject.originalPosition o)
       ∈ timers (animate now st e)).
Proof.
  intros Hu Ho Hp. unfold animate. apply animate_fold_position; [done | done |].
  by destruct (autoRotate st).
Qed.

Lemma list_snoc_inv {A} (l : list A) : l ≠ [] → ∃ front x, l = front ++ [x].
Proof.
  induction l as [|a l IH]; [done |]. intros _.
  destruct l as [|b l]; [by exists [], a |].
  destruct IH as (front & x & ->); [done |]. by exists (a :: front), x.
Qed.

Lemma frames_snoc (nows : list R) (now : R) (st : AppState) (e : Engine) :
  frames (nows ++ [now]) st e = animate now st (frames nows st e).
Proof. unfold frames. by rewrite foldl_app. Qed.

(** A node is still there after any number of frames. *)
Lemma frames_node (nows : list R) (st : AppState) (e : Engine) (o : ShapeObject.t) :
  uniqueIds st → o ∈ objects st →
  is_Some (nodePosition e (ShapeObject.id o)) →
  is_Some (nodePosition (frames nows st e) (ShapeObject.id o)).
Proof.
  intros Hu Ho. revert e. induction nows as [|now nows IH]; intros e [p Hp]; simpl.
  - by exists p.
  - apply IH. destruct (animate_position now st e o p Hu Ho Hp) as [Hp' _]. eauto.
Qed.

(** A pass gives the node of an object that already had one the stored
    position of the object. *)
Lemma pass_position (st : AppState) (e : Engine) (obj : ShapeObject.t) :
  isInitialized e = true → uniqueIds st → obj ∈ objects st →
  is_Some (meshes e !! ShapeObject.id obj) →
  nodePosition (updateObjectsEffect st e).1 (ShapeObject.id obj)
  = Some (Vector3.set (ShapeObject.position obj)).
Proof.
  intros Hinit Hu Hobj [mesh Hmesh]. unfold nodePosition. rewrite pass_meshes by done.
  pose proof Hobj as Hin.
  apply list_elem_of_split in Hobj as (l1 & l2 & Hsplit).
  assert (Hnd : NoDup (ids l1 ++ ShapeObject.id obj :: ids l2)).
  { unfold uniqueIds in Hu. rewrite Hsplit in Hu. unfold ids in *.
    by rewrite fmap_app, fmap_cons in Hu. }
  apply NoDup_app in Hnd as (Hnd1 & Hdisj & [Hnot2 Hnd2]%NoDup_cons).
  assert (Hnot1 : ShapeObject.id obj ∉ ids l1).
  { intros Hin1. apply (Hdisj _ Hin1). by left. }
  rewrite Hsplit at 2. rewrite foldl_app. simpl.
  rewrite sync_fold_lookup_ne by done.
  assert (Hbefore :
    meshes (foldl syncObject
              (foldl (removeStale (list_to_set (ids (objects st)))) (e, [])
                 (map_to_list (meshes e))) l1).1 !! ShapeObject.id obj = Some mesh).
  { rewrite sync_fold_lookup_ne by done. rewrite removed_lookup.
    rewrite decide_True; [done |]. apply elem_of_list_to_set.
    apply list_elem_of_fmap. by exists obj. }
  rewrite (syncObject_update _ _ _ Hbefore). simpl. rewrite lookup_insert_eq. simpl.
  unfold updatedMesh. simpl. by destruct (paramsChanged _ _).
Qed.

Lemma stageOf_position (obj : ShapeObject.t) :
  nodePosition (stageOf obj) (ShapeObject.id obj)
  = Some (Vector3.set (ShapeObject.position obj)).
Proof.
  assert (Hu : uniqueIds (set_objects [obj] initialState)).
  { unfold uniqueIds. simpl. apply NoDup_singleton. }
  assert (Hin : obj ∈ objects (set_objects [obj] initialState)) by (simpl; left).
  unfold stageOf. apply pass_position; [by rewrite pass_initialized | done | done |].
  destruct (pass_synced (set_objects [obj] initialState) mounted obj) as (m & Hm & _);
    by eauto.
Qed.

(** C6: in orbit mode a frame at elapsed time [t] puts the node at
    [x = hx + cos (t * speed * 0.5) * r] and [z = hz + sin (t * speed * 0.5) * r]
    and leaves [y], where [r] is the range, or 5 when the range is zero; with
    home (0, 0, 0), speed 1 and range 5 the node is at (5, y, 0) both at
    [t = 0] and at [t = 2 * PI / 0.5]. Numbers are reals here, so the second
    position is met exactly, hence within every tolerance. *)
Theorem orbit_position (now : R) (st : AppState) (e : Engine) (obj : ShapeObject.t)
    (p : Vector3.t) :
  uniqueIds st → obj ∈ objects st →
  ShapeObject.movementMode obj = mode_orbit →
  nodePosition e (ShapeObject.id obj) = Some p →
  let t := now * 0.001 in
  let speed := ShapeObject.movementSpeed obj in
  let r := if decide (ShapeObject.movementRange obj = 0) then 5
           else ShapeObject.movementRange obj in
  nodePosition (animate now st e) (ShapeObject.id obj)
  = Some (Vector3.mk
            ((ShapeObject.originalPosition obj).1.1 + cos (t * speed * 0.5) * r)
            (Vector3.y p)
            ((ShapeObject.originalPosition obj).2 + sin (t * speed * 0.5) * r))
  ∧ (ShapeObject.originalPosition obj = (0, 0, 0) → speed = 1 →
     ShapeObject.movementRange obj = 5 →
     (t = 0 →
      nodePosition (animate now st e) (ShapeObject.id obj)
      = Some (Vector3.mk 5 (Vector3.y p) 0))
     ∧ (t = 2 * PI / 0.5 →
        nodePosition (animate now st e) (ShapeObject.id obj)
        = Some (Vector3.mk 5 (Vector3.y p) 0))).
Proof.
  intros Hu Hobj Hmode Hp t speed r.
  destruct (animate_position now st e obj p Hu Hobj Hp) as [Hp' _].
  assert (Hmove : (move (now * 0.001) obj p).1
    = Vector3.mk ((ShapeObject.originalPosition obj).1.1 + cos (t * speed * 0.5) * r)
        (Vector3.y p)
        ((ShapeObject.originalPosition obj).2 + sin (t * speed * 0.5) * r)).
  { unfold move. rewrite Hmode.
    destruct (ShapeObject.originalPosition obj) as [[ox oy] oz]. simpl.
    unfold number_or. fold speed r t.
    replace (t * (speed * 0.5)) with (t * speed * 0.5) by ring. done. }
  rewrite Hmove in Hp'. split; [exact Hp' |].
  intros Hhome Hspeed Hrange. rewrite Hp', Hhome. simpl.
  subst r. rewrite Hrange, Hspeed. rewrite decide_False by lra.
  split; intros Ht; rewrite Ht; do 2 f_equal.
  - replace (0 * 1 * 0.5) with 0 by lra. rewrite cos_0. lra.
  - replace (0 * 1 * 0.5) with 0 by lra. rewrite sin_0. lra.
  - replace (2 * PI / 0.5 * 1 * 0.5) with (2 * PI) by lra. rewrite cos_2PI. lra.
  - replace (2 * PI / 0.5 * 1 * 0.5) with (2 * PI) by lra. rewrite sin_2PI. lra.
Qed.

Lemma orbit_position_witness :
  let st := set_objects [orbiter] initialState in
  nodePosition (animate (2 * PI / 0.5 * 1000) st (stageOf orbiter)) "1"
  = Some (Vector3.mk 5 0 0).
Proof.
  intros st.
  refine (proj2 (proj2 (orbit_position (2 * PI / 0.5 * 1000) st (stageOf orbiter) orbiter
                          (Vector3.mk 0 0 0) _ _ _ _) _ _ _) _).
  - unfold uniqueIds. simpl. apply NoDup_singleton.
  - simpl. left.
  - reflexivity.
  - apply (stageOf_position orbiter).
  - reflexivity.
  - reflexivity.
  - reflexivity.
  - lra.
Defined.

(** What [move] does in straight mode. *)
Lemma move_straight (time : R) (obj : ShapeObject.t) (p : Vector3.t) :
  ShapeObject.movementMode obj = mode_straight →
  move time obj p
  = (Vector3.mk (Vector3.x p) (Vector3.y p)
       (if decide (Rabs (Vector3.z p + 0.02 * ShapeObject.movementSpeed obj
                         - (ShapeObject.originalPosition obj).2) > 50)
        then (ShapeObject.originalPosition obj).2 - 50
        else Vector3.z p + 0.02 * ShapeObject.movementSpeed obj), false).
Proof.
  intros Hmode. unfold move. rewrite Hmode.
  by destruct (ShapeObject.originalPosition obj) as [[ox oy] oz].
Qed.

(** While the node stays within 50 of a home at [z = 0], [n] frames at speed
    1 advance it by [0.02 * n]. *)
Lemma straight_frames (nows : list R) (st : AppState) (e : Engine) (obj : ShapeObject.t)
    (p : Vector3.t) :
  uniqueIds st → obj ∈ objects st →
  ShapeObject.movementMode obj = mode_straight →
  (ShapeObject.originalPosition obj).2 = 0 → ShapeObject.movementSpeed obj = 1 →
  nodePosition e (ShapeObject.id obj) = Some p →
  -50 <= Vector3.z p → Vector3.z p + 0.02 * INR (length nows) <= 50 →
  nodePosition (frames nows st e) (ShapeObject.id obj)
  = Some (Vector3.mk (Vector3.x p) (Vector3.y p)
            (Vector3.z p + 0.02 * INR (length nows))).
Proof.
  intros Hu Hobj Hmode Hhz Hspeed. revert e p.
  induction nows as [|now nows IH]; intros e p Hp Hlow Hhigh.
  - simpl. rewrite Hp. destruct p. simpl. do 2 f_equal. lra.
  - change (frames (now :: nows) st e) with (frames nows st (animate now st e)).
    rewrite length_cons, S_INR in *.
    pose proof (pos_INR (length nows)) as Hn.
    destruct (animate_position now st e obj p Hu Hobj Hp) as [Hp' _].
    rewrite (move_straight _ _ _ Hmode), Hhz, Hspeed in Hp'. simpl in Hp'.
    rewrite decide_False in Hp'.
    2:{ unfold Rgt. apply Rle_not_lt, Rabs_le. lra. }
    rewrite (IH _ _ Hp'); simpl; [| lra | lra].
    do 2 f_equal. lra.
Qed.

(** C5: in straight mode a frame adds [0.02 * speed] to the node's [z] and
    leaves [x] and [y]; when the new [z] is then more than 50 from the home
    [z] it is set to the home [z] minus 50, which is -50 for a home at
    [z = 0]; after every frame the node is within 50 of its home in [z]; and
    at speed 1 with home [z = 0], from -50 the node is at [-50 + 0.02 * n]
    after [n < 5000] frames and, some frames later, at -50 again: the
    traversal loops. *)
Theorem straight_mode_wraps (now : R) (st : AppState) (e : Engine) (obj : ShapeObject.t)
    (p : Vector3.t) :
  uniqueIds st → obj ∈ objects st →
  ShapeObject.movementMode obj = mode_straight →
  nodePosition e (ShapeObject.id obj) = Some p →
  let hz := (ShapeObject.originalPosition obj).2 in
  let speed := ShapeObject.movementSpeed obj in
  let z1 := Vector3.z p + 0.02 * speed in
  (∃ p', nodePosition (animate now st e) (ShapeObject.id obj) = Some p'
         ∧ Vector3.x p' = Vector3.x p ∧ Vector3.y p' = Vector3.y p
         ∧ (Rabs (z1 - hz) > 50 → Vector3.z p' = hz - 50)
         ∧ (¬ Rabs (z1 - hz) > 50 → Vector3.z p' = z1)
         ∧ (hz = 0 → speed = 1 → Vector3.z p + 0.02 > 50 → Vector3.z p' = -50))
  ∧ (∀ nows, ∃ p', nodePosition (frames (nows ++ [now]) st e) (ShapeObject.id obj) = Some p'
                   ∧ Rabs (Vector3.z p' - hz) <= 50)
  ∧ (hz = 0 → speed = 1 → Vector3.z p = -50 →
     (∀ nows, (length nows < 5000)%nat →
        nodePosition (frames nows st e) (ShapeObject.id obj)
        = Some (Vector3.mk (Vector3.x p) (Vector3.y p) (-50 + 0.02 * INR (length nows))))
     ∧ ∃ n, (0 < n)%nat
            ∧ ∀ nows, length nows = n →
                nodePosition (frames nows st e) (ShapeObject.id obj)
                = Some (Vector3.mk (Vector3.x p) (Vector3.y p) (-50))).
Proof.
  intros Hu Hobj Hmode Hp hz speed z1.
  assert (Hframe : ∀ now0 e0 p0, nodePosition e0 (ShapeObject.id obj) = Some p0 →
    nodePosition (animate now0 st e0) (ShapeObject.id obj)
    = Some (Vector3.mk (Vector3.x p0) (Vector3.y p0)
              (if decide (Rabs (Vector3.z p0 + 0.02 * speed - hz) > 50)
               then hz - 50 else Vector3.z p0 + 0.02 * speed))).
  { intros now0 e0 p0 Hp0.
    destruct (animate_position now0 st e0 obj p0 Hu Hobj Hp0) as [Hp' _].
    by rewrite (move_straight _ _ _ Hmode) in Hp'. }
  split; [| split].
  - eexists. split; [by apply Hframe |]. simpl. fold z1.
    repeat split.
    + intros Hfar. by rewrite decide_True.
    + intros Hnear. by rewrite decide_False.
    + intros Hhz Hspeed Hover. subst z1. rewrite Hhz, Hspeed.
      rewrite decide_True; [lra |].
      unfold Rgt. eapply Rlt_le_trans; [| apply Rle_abs]. lra.
  - intros nows. rewrite frames_snoc.
    destruct (frames_node nows st e obj Hu Hobj) as [p0 Hp0]; [by eexists |].
    eexists. split; [by apply Hframe |]. simpl.
    case_decide as Hfar.
    + replace (hz - 50 - hz) with (-50) by lra. rewrite Rabs_left by lra. lra.
    + unfold Rgt in Hfar. by apply Rnot_lt_le in Hfar.
  - intros Hhz Hspeed Hz.
    assert (H5000 : INR 5000 = 5000) by (rewrite INR_IZR_INZ; reflexivity).
    assert (Hrun : ∀ nows : list R, (length nows ≤ 5000)%nat →
      nodePosition (frames nows st e) (ShapeObject.id obj)
      = Some (Vector3.mk (Vector3.x p) (Vector3.y p) (-50 + 0.02 * INR (length nows)))).
    { intros nows Hlen. rewrite <- Hz.
      apply straight_frames; try done; [lra |].
      apply le_INR in Hlen. rewrite Hz. lra. }
    split; [intros nows Hlen; apply Hrun; lia |].
    exists (S 5000). split; [lia |]. intros nows Hlen.
    destruct (list_snoc_inv nows) as (front & now0 & ->).
    { intros ->. simpl in Hlen. lia. }
    rewrite length_app in Hlen. simpl in Hlen.
    rewrite frames_snoc, (Hframe _ _ _ (Hrun front ltac:(lia))). simpl.
    replace (length front) with 5000%nat by lia. rewrite H5000.
    subst speed hz. rewrite Hhz, Hspeed.
    rewrite decide_True; [do 2 f_equal; lra |].
    unfold Rgt. eapply Rlt_le_trans; [| apply Rle_abs]. lra.
Qed.

Lemma straight_mode_wraps_witness :
  let st := set_objects [traveller] initialState in
  ∃ p', nodePosition (animate 0 st (stageOf traveller)) "1" = Some p'
        ∧ Vector3.z p' = 0 + 0.02 * 1.
Proof.
  intros st.
  destruct (straight_mode_wraps 0 st (stageOf traveller) traveller (Vector3.mk 0 0 0))
    as [(p' & Hp' & _ & _ & _ & Hnear & _) _].
  - unfold uniqueIds. simpl. apply NoDup_singleton.
  - simpl. left.
  - reflexivity.
  - apply (stageOf_position traveller).
  - exists p'. split; [exact Hp' |]. apply Hnear.
    simpl. unfold Rgt. apply Rle_not_lt, Rabs_le. lra.
Defined.

(** What [move] does in returning mode. *)
Lemma move_returning (time : R) (obj : ShapeObject.t) (p : Vector3.t) :
  ShapeObject.movementMode obj = mode_returning →
  let home := ShapeObject.originalPosition obj in
  let step := 0.05 * ShapeObject.movementSpeed obj in
  let p1 := Vector3.mk (Vector3.x p + (home.1.1 - Vector3.x p) * step)
                       (Vector3.y p + (home.1.2 - Vector3.y p) * step)
                       (Vector3.z p + (home.2 - Vector3.z p) * step) in
  move time obj p
  = if decide (distanceTo home p1 < 0.01) then (Vector3.set home, true) else (p1, false).
Proof.
  intros Hmode. unfold move. rewrite Hmode.
  by destruct (ShapeObject.originalPosition obj) as [[ox oy] oz].
Qed.

Lemma distanceTo_x_axis (x : R) :
  0 <= x → distanceTo (0, 0, 0) (Vector3.mk x 0 0) = x.
Proof.
  intros Hx. unfold distanceTo. simpl.
  replace ((0 - x) * ((0 - x) * 1) + (0 - 0) * ((0 - 0) * 1) + (0 - 0) * ((0 - 0) * 1))
    with (x * x) by ring.
  by apply sqrt_square.
Qed.

Lemma pow95_antitone (m n : nat) : (m ≤ n)%nat → 0.95 ^ n <= 0.95 ^ m.
Proof.
  induction 1 as [|n Hle IH]; [lra |].
  simpl. pose proof (pow_lt 0.95 n ltac:(lra)). lra.
Qed.

Section Returning.
Variables (st : AppState) (obj : ShapeObject.t).
Hypothesis Hu : uniqueIds st.
Hypothesis Hobj : obj ∈ objects st.
Hypothesis Hmode : ShapeObject.movementMode obj = mode_returning.
Hypothesis Hhome : ShapeObject.originalPosition obj = (0, 0, 0).
Hypothesis Hspeed : ShapeObject.movementSpeed obj = 1.

(** A frame from [(x, 0, 0)] that does not arrive multiplies [x] by 0.95. *)
Lemma returning_far (now : R) (e : Engine) (x : R) :
  nodePosition e (ShapeObject.id obj) = Some (Vector3.mk x 0 0) →
  0.01 <= 0.95 * x →
  nodePosition (animate now st e) (ShapeObject.id obj) = Some (Vector3.mk (0.95 * x) 0 0).
Proof.
  intros Hp Hx.
  destruct (animate_position now st e obj _ Hu Hobj Hp) as [Hp' _].
  rewrite (move_returning _ _ _ Hmode), Hhome, Hspeed in Hp'. simpl in Hp'.
  replace (Vector3.mk (x + (0 - x) * (0.05 * 1)) (0 + (0 - 0) * (0.05 * 1))
             (0 + (0 - 0) * (0.05 * 1)))
    with (Vector3.mk (0.95 * x) 0 0) in Hp' by (f_equal; lra).
  rewrite distanceTo_x_axis in Hp' by lra.
  by rewrite decide_False in Hp' by lra.
Qed.

(** A frame from [(x, 0, 0)] that comes within 0.01 of the home snaps the
    node to it and sets the commit timer. *)
Lemma returning_near (now : R) (e : Engine) (x : R) :
  nodePosition e (ShapeObject.id obj) = Some (Vector3.mk x 0 0) →
  0 <= x → 0.95 * x < 0.01 →
  nodePosition (animate now st e) (ShapeObject.id obj) = Some (Vector3.mk 0 0 0)
  ∧ mkTimer (ShapeObject.id obj) (0, 0, 0) ∈ timers (animate now st e).
Proof.
  intros Hp Hx0 Hx.
  destruct (animate_position now st e obj _ Hu Hobj Hp) as [Hp' Htimer].
  rewrite (move_returning _ _ _ Hmode), Hhome, Hspeed in Hp', Htimer.
  simpl in Hp', Htimer.
  replace (Vector3.mk (x + (0 - x) * (0.05 * 1)) (0 + (0 - 0) * (0.05 * 1))
             (0 + (0 - 0) * (0.05 * 1)))
    with (Vector3.mk (0.95 * x) 0 0) in Hp', Htimer by (f_equal; lra).
  rewrite distanceTo_x_axis in Hp', Htimer by lra.
  rewrite decide_True in Hp', Htimer by lra. by split; [| apply Htimer].
Qed.

Lemma returning_frames (nows : list R) (e : Engine) (x : R) :
  0 < x →
  nodePosition e (ShapeObject.id obj) = Some (Vector3.mk x 0 0) →
  0.01 <= x * 0.95 ^ length nows →
  nodePosition (frames nows st e) (ShapeObject.id obj)
  = Some (Vector3.mk (x * 0.95 ^ length nows) 0 0).
Proof.
  revert e x. induction nows as [|now nows IH]; intros e x Hx Hp Hfar.
  - simpl. rewrite Hp. do 2 f_equal. lra.
  - change (frames (now :: nows) st e) with (frames nows st (animate now st e)).
    rewrite length_cons in *. simpl in Hfar.
    pose proof (pow_lt 0.95 (length nows) ltac:(lra)) as Hpos.
    pose proof (pow95_antitone 0 (length nows) ltac:(lia)) as Hle1. simpl in Hle1.
    assert (Hstep : 0.01 <= 0.95 * x) by nra.
    rewrite (IH _ (0.95 * x)); [| lra | by apply returning_far | lra].
    do 2 f_equal. simpl. lra.
Qed.

Lemma returning_stays (nows : list R) (e : Engine) (tm : Timer) :
  nodePosition e (ShapeObject.id obj) = Some (Vector3.mk 0 0 0) →
  tm ∈ timers e →
  nodePosition (frames nows st e) (ShapeObject.id obj) = Some (Vector3.mk 0 0 0)
  ∧ tm ∈ timers (frames nows st e).
Proof.
  revert e. induction nows as [|now nows IH]; intros e Hp Htm; [done |].
  change (frames (now :: nows) st e) with (frames nows st (animate now st e)).
  apply IH.
  - apply (returning_near now e 0 Hp); lra.
  - unfold animate. apply animate_fold_timers. by destruct (autoRotate st).
Qed.

(** The scenario: from (10, 0, 0) the node is at [10 * 0.95 ^ n] after
    [n <= 134] frames and at home, with the commit timer set, from frame
    135 on. *)
Lemma returning_scenario (nows : list R) (e : Engine) :
  nodePosition e (ShapeObject.id obj) = Some (Vector3.mk 10 0 0) →
  ((length nows ≤ 134)%nat →
   nodePosition (frames nows st e) (ShapeObject.id obj)
   = Some (Vector3.mk (10 * 0.95 ^ length nows) 0 0)
   ∧ 0.01 <= 10 * 0.95 ^ length nows)
  ∧ ((135 ≤ length nows)%nat →
     nodePosition (frames nows st e) (ShapeObject.id obj) = Some (Vector3.mk 0 0 0)
     ∧ mkTimer (ShapeObject.id obj) (0, 0, 0) ∈ timers (frames nows st e)).
Proof.
  intros Hp.
  assert (H134 : 0.01 <= 10 * 0.95 ^ 134) by lra.
  assert (H135 : 10 * 0.95 ^ 135 < 0.01) by lra.
  assert (Hrun : ∀ l : list R, (length l ≤ 134)%nat →
    nodePosition (frames l st e) (ShapeObject.id obj)
    = Some (Vector3.mk (10 * 0.95 ^ length l) 0 0)
    ∧ 0.01 <= 10 * 0.95 ^ length l).
  { intros l Hlen. pose proof (pow95_antitone _ _ Hlen).
    split; [apply returning_frames; [lra | done | lra] | lra]. }
  split; [apply Hrun |].
  intros Hlen.
  rewrite <- (take_drop 134 nows).
  destruct (drop 134 nows) as [|now rest] eqn:Hdrop.
  { apply (f_equal length) in Hdrop. rewrite length_drop in Hdrop. simpl in Hdrop. lia. }
  unfold frames. rewrite foldl_app. simpl.
  fold (frames (take 134 nows) st e).
  fold (frames rest st (animate now st (frames (take 134 nows) st e))).
  destruct (Hrun (take 134 nows)) as [Hat _]; [rewrite length_take; lia |].
  rewrite length_take, Nat.min_l in Hat by lia.
  pose proof (pow_lt 0.95 134 ltac:(lra)) as Hpos.
  destruct (returning_near now _ _ Hat) as [Hsnap Htimer]; [lra | simpl in H135; lra |].
  by apply returning_stays.
Qed.
End Returning.

Lemma nodeDistance_x_axis (e : Engine) (obj : ShapeObject.t) (x : R) :
  ShapeObject.originalPosition obj = (0, 0, 0) → 0 <= x →
  nodePosition e (ShapeObject.id obj) = Some (Vector3.mk x 0 0) →
  nodeDistance e obj = x.
Proof.
  intros Hhome Hx Hp. unfold nodeDistance. rewrite Hp, Hhome.
  by apply distanceTo_x_axis.
Qed.

(** The commit of a returning-mode timer, run on any store. *)
Lemma runTimer_commits (id : string) (home : Triple) (st : AppState) (o' : ShapeObject.t) :
  o' ∈ objects (runTimer (mkTimer id home) st) → ShapeObject.id o' = id →
  ShapeObject.position o' = home ∧ ShapeObject.movementMode o' = mode_none.
Proof.
  unfold runTimer. simpl. intros (o & -> & Ho)%list_elem_of_fmap.
  case_decide as Hid; [| done]. intros _. by destruct o.
Qed.

Lemma runTimer_keeps (id : string) (home : Triple) (st : AppState) (o : ShapeObject.t) :
  o ∈ objects st →
  ∃ o', o' ∈ objects (runTimer (mkTimer id home) st)
        ∧ ShapeObject.id o' = ShapeObject.id o.
Proof.
  intros Ho. eexists. split.
  - unfold runTimer. simpl. apply list_elem_of_fmap. by exists o.
  - simpl. case_decide; [| done]. by destruct o.
Qed.

(** C4: in returning mode a frame adds [(home - node) * (0.05 * speed)] to
    each axis of the node; if the node is then closer than 0.01 to its home
    it is put exactly at the home and a timer is set whose body, run on the
    store, sets the object's [position] to the home and its [movementMode]
    to [none]. For a node at (10, 0, 0), home (0, 0, 0) and speed 1: after
    [n <= 134] frames the distance is [10 * 0.95 ^ n], still at least 0.01;
    every frame up to the 135th strictly decreases the distance; from the
    135th frame on the node is exactly at (0, 0, 0), the distance is 0 and
    the timer is pending, and its commit stores position (0, 0, 0) and mode
    [none]. *)
Theorem returning_converges (st : AppState) (e : Engine) (obj : ShapeObject.t)
    (p : Vector3.t) :
  uniqueIds st → obj ∈ objects st →
  ShapeObject.movementMode obj = mode_returning →
  nodePosition e (ShapeObject.id obj) = Some p →
  let home := ShapeObject.originalPosition obj in
  let step := 0.05 * ShapeObject.movementSpeed obj in
  let p1 := Vector3.mk (Vector3.x p + (home.1.1 - Vector3.x p) * step)
                       (Vector3.y p + (home.1.2 - Vector3.y p) * step)
                       (Vector3.z p + (home.2 - Vector3.z p) * step) in
  let commit := mkTimer (ShapeObject.id obj) home in
  (∀ now,
     (distanceTo home p1 < 0.01 →
      nodePosition (animate now st e) (ShapeObject.id obj) = Some (Vector3.set home)
      ∧ commit ∈ timers (animate now st e))
     ∧ (¬ distanceTo home p1 < 0.01 →
        nodePosition (animate now st e) (ShapeObject.id obj) = Some p1))
  ∧ (∀ st' o', o' ∈ objects (runTimer commit st') →
       ShapeObject.id o' = ShapeObject.id obj →
       ShapeObject.position o' = home ∧ ShapeObject.movementMode o' = mode_none)
  ∧ (∃ o', o' ∈ objects (runTimer commit st) ∧ ShapeObject.id o' = ShapeObject.id obj)
  ∧ (p = Vector3.mk 10 0 0 → home = (0, 0, 0) → ShapeObject.movementSpeed obj = 1 →
     ∀ nows,
       ((length nows ≤ 134)%nat →
        nodePosition (frames nows st e) (ShapeObject.id obj)
        = Some (Vector3.mk (10 * 0.95 ^ length nows) 0 0)
        ∧ nodeDistance (frames nows st e) obj = 10 * 0.95 ^ length nows
        ∧ 0.01 <= nodeDistance (frames nows st e) obj)
       ∧ (∀ now, (length nows < 135)%nat →
          nodeDistance (frames (nows ++ [now]) st e) obj
          < nodeDistance (frames nows st e) obj)
       ∧ ((135 ≤ length nows)%nat →
          nodePosition (frames nows st e) (ShapeObject.id obj) = Some (Vector3.mk 0 0 0)
          ∧ nodeDistance (frames nows st e) obj = 0
          ∧ commit ∈ timers (frames nows st e))).
Proof.
  intros Hu Hobj Hmode Hp home step p1 commit.
  split; [| split; [| split]].
  - intros now.
    destruct (animate_position now st e obj p Hu Hobj Hp) as [Hp' Htimer].
    rewrite (move_returning _ _ _ Hmode) in Hp', Htimer.
    fold home step p1 in Hp', Htimer.
    split; intros Hdist.
    + rewrite decide_True in Hp', Htimer by done. by split; [| apply Htimer].
    + by rewrite decide_False in Hp' by done.
  - intros st' o'. apply runTimer_commits.
  - by apply runTimer_keeps.
  - intros -> Hhome Hspeed nows.
    assert (Hdist : ∀ l : list R, (length l ≤ 134)%nat →
      nodePosition (frames l st e) (ShapeObject.id obj)
      = Some (Vector3.mk (10 * 0.95 ^ length l) 0 0)
      ∧ nodeDistance (frames l st e) obj = 10 * 0.95 ^ length l
      ∧ 0.01 <= nodeDistance (frames l st e) obj).
    { intros l Hlen.
      destruct (returning_scenario st obj Hu Hobj Hmode Hhome Hspeed l e Hp)
        as [Hrun _].
      destruct (Hrun Hlen) as [Hat Hfar].
      rewrite (nodeDistance_x_axis _ _ (10 * 0.95 ^ length l) Hhome); [done | lra | done]. }
    assert (Harrived : ∀ l : list R, (135 ≤ length l)%nat →
      nodePosition (frames l st e) (ShapeObject.id obj) = Some (Vector3.mk 0 0 0)
      ∧ nodeDistance (frames l st e) obj = 0
      ∧ commit ∈ timers (frames l st e)).
    { intros l Hlen.
      destruct (returning_scenario st obj Hu Hobj Hmode Hhome Hspeed l e Hp)
        as [_ Hend].
      destruct (Hend Hlen) as [Hat Htimer].
      rewrite (nodeDistance_x_axis _ _ 0 Hhome); [| lra | done].
      subst commit. fold home in Hhome. by rewrite Hhome. }
    split; [apply Hdist | split; [| apply Harrived]].
    intros now Hlen.
    destruct (Hdist nows) as (_ & -> & Hfar); [lia |].
    destruct (decide (length nows < 134)%nat) as [Hlt | Hge].
    + destruct (Hdist (nows ++ [now])) as (_ & -> & _).
      { rewrite length_app. simpl. lia. }
      rewrite length_app. simpl. rewrite Nat.add_1_r. simpl.
      pose proof (pow_lt 0.95 (length nows) ltac:(lra)). lra.
    + destruct (Harrived (nows ++ [now])) as (_ & -> & _).
      { rewrite length_app. simpl. lia. }
      pose proof (pow_lt 0.95 (length nows) ltac:(lra)). lra.
Qed.

Lemma returning_converges_witness :
  let st := set_objects [returner] initialState in
  let nows := replicate 135 0 in
  nodePosition (frames nows st (stageOf returner)) "1" = Some (Vector3.mk 0 0 0)
  ∧ mkTimer "1" (0, 0, 0) ∈ timers (frames nows st (stageOf returner))
  ∧ ∃ o', o' ∈ objects (runTimer (mkTimer "1" (0, 0, 0)) st)
          ∧ ShapeObject.position o' = (0, 0, 0)
          ∧ ShapeObject.movementMode o' = mode_none.
Proof.
  intros st nows.
  destruct (returning_converges st (stageOf returner) returner (Vector3.mk 10 0 0))
    as (_ & Hcommit & (o' & Ho' & Hid) & Hscenario).
  - unfold uniqueIds. simpl. apply NoDup_singleton.
  - simpl. left.
  - reflexivity.
  - apply (stageOf_position returner).
  - destruct (Hscenario eq_refl eq_refl eq_refl nows) as (_ & _ & Hend).
    destruct Hend as (Hat & _ & Htimer).
    { unfold nows. rewrite length_replicate. lia. }
    split; [exact Hat |]. split; [exact Htimer |].
    exists o'. split; [exact Ho' |]. exact (Hcommit st o' Ho' Hid).
Defined.

(** * Further properties *)

(** * Further properties *)

(** ** KineticSimulator: what a frame changes and what it leaves *)

(** A frame changes a mesh only in its position and rotation. *)
Lemma animateObject_mesh (time : R) (e : Engine) (o : ShapeObject.t) (k : string) :
  ∀ m', meshes (animateObject time e o) !! k = Some m' →
  ∃ m, meshes e !! k = Some m
       ∧ Mesh.node m' = Mesh.node m ∧ Mesh.geometry m' = Mesh.geometry m
       ∧ Mesh.material m' = Mesh.material m ∧ Mesh.userData m' = Mesh.userData m
       ∧ Mesh.scale m' = Mesh.scale m
       ∧ Mesh.castShadow m' = Mesh.castShadow m
       ∧ Mesh.receiveShadow m' = Mesh.receiveShadow m.
Proof.
  intros m'. unfold animateObject.
  destruct (meshes e !! ShapeObject.id o) as [mesh|] eqn:Hmesh; [| by eauto 10].
  assert (Hins : <[ShapeObject.id o :=
                     with_position (move time o (Mesh.position (spin o mesh))).1 (spin o mesh)]>
                   (meshes e) !! k = Some m' →
    ∃ m, meshes e !! k = Some m
       ∧ Mesh.node m' = Mesh.node m ∧ Mesh.geometry m' = Mesh.geometry m
       ∧ Mesh.material m' = Mesh.material m ∧ Mesh.userData m' = Mesh.userData m
       ∧ Mesh.scale m' = Mesh.scale m
       ∧ Mesh.castShadow m' = Mesh.castShadow m
       ∧ Mesh.receiveShadow m' = Mesh.receiveShadow m).
  { destruct (decide (k = ShapeObject.id o)) as [-> | Hne].
    - rewrite lookup_insert_eq. intros [= <-]. exists mesh. split; [done |].
      unfold spin. by destruct (ShapeObject.isAnimated o).
    - rewrite lookup_insert_ne by done. by eauto 10. }
  by destruct (move _ _ _).2.
Qed.

Lemma animateObject_dom (time : R) (e : Engine) (o : ShapeObject.t) :
  dom (meshes (animateObject time e o)) = dom (meshes e)
  ∧ sceneMeshes (animateObject time e o) = sceneMeshes e
  ∧ nextNode (animateObject time e o) = nextNode e
  ∧ isInitialized (animateObject time e o) = isInitialized e
  ∧ attached (animateObject time e o) = attached e
  ∧ gizmoMode (animateObject time e o) = gizmoMode e
  ∧ sceneRotationY (animateObject time e o) = sceneRotationY e.
Proof.
  unfold animateObject.
  destruct (meshes e !! ShapeObject.id o) as [mesh|] eqn:Hmesh; [| done].
  assert (ShapeObject.id o ∈ dom (meshes e)) by (apply elem_of_dom; eauto).
  destruct (move _ _ _).2; simpl; rewrite dom_insert_L; (split; [set_solver | done]).
Qed.

Lemma animate_mesh (now : R) (st : AppState) (e : Engine) (k : string) :
  ∀ m', meshes (animate now st e) !! k = Some m' →
  ∃ m, meshes e !! k = Some m
       ∧ Mesh.node m' = Mesh.node m ∧ Mesh.geometry m' = Mesh.geometry m
       ∧ Mesh.material m' = Mesh.material m ∧ Mesh.userData m' = Mesh.userData m
       ∧ Mesh.scale m' = Mesh.scale m
       ∧ Mesh.castShadow m' = Mesh.castShadow m
       ∧ Mesh.receiveShadow m' = Mesh.receiveShadow m.
Proof.
  unfold animate.
  assert (Hfold : ∀ objs e0 m', meshes (foldl (animateObject (now * 0.001)) e0 objs) !! k = Some m' →
    ∃ m, meshes e0 !! k = Some m
       ∧ Mesh.node m' = Mesh.node m ∧ Mesh.geometry m' = Mesh.geometry m
       ∧ Mesh.material m' = Mesh.material m ∧ Mesh.userData m' = Mesh.userData m
       ∧ Mesh.scale m' = Mesh.scale m
       ∧ Mesh.castShadow m' = Mesh.castShadow m
       ∧ Mesh.receiveShadow m' = Mesh.receiveShadow m).
  { intros objs. induction objs as [|o objs IH]; intros e0 m' Hm'; simpl in *; [by eauto 10 |].
    apply IH in Hm' as (m1 & Hm1 & E1 & E2 & E3 & E4 & E5 & E6 & E7).
    apply animateObject_mesh in Hm1 as (m & Hm & F1 & F2 & F3 & F4 & F5 & F6 & F7).
    exists m. split; [done |]. repeat split; congruence. }
  intros m' Hm'. apply Hfold in Hm' as (m & Hm & H'). exists m. split; [| done].
  by destruct (autoRotate st).
Qed.

Lemma animate_dom (now : R) (st : AppState) (e : Engine) :
  dom (meshes (animate now st e)) = dom (meshes e)
  ∧ sceneMeshes (animate now st e) = sceneMeshes e
  ∧ nextNode (animate now st e) = nextNode e
  ∧ isInitialized (animate now st e) = isInitialized e
  ∧ attached (animate now st e) = attached e
  ∧ gizmoMode (animate now st e) = gizmoMode e.
Proof.
  unfold animate.
  assert (Hfold : ∀ objs e0,
    dom (meshes (foldl (animateObject (now * 0.001)) e0 objs)) = dom (meshes e0)
    ∧ sceneMeshes (foldl (animateObject (now * 0.001)) e0 objs) = sceneMeshes e0
    ∧ nextNode (foldl (animateObject (now * 0.001)) e0 objs) = nextNode e0
    ∧ isInitialized (foldl (animateObject (now * 0.001)) e0 objs) = isInitialized e0
    ∧ attached (foldl (animateObject (now * 0.001)) e0 objs) = attached e0
    ∧ gizmoMode (foldl (animateObject (now * 0.001)) e0 objs) = gizmoMode e0
    ∧ sceneRotationY (foldl (animateObject (now * 0.001)) e0 objs) = sceneRotationY e0).
  { intros objs. induction objs as [|o objs IH]; intros e0; simpl; [done |].
    destruct (IH (animateObject (now * 0.001) e0 o)) as (-> & -> & -> & -> & -> & -> & ->).
    apply animateObject_dom. }
  destruct (Hfold (objects st)
              (if autoRotate st then set_sceneRotationY (λ r, r + rotationSpeed st) e else e))
    as (-> & -> & -> & -> & -> & -> & _).
  by destruct (autoRotate st).
Qed.

Lemma frames_mesh (nows : list R) (st : AppState) (e : Engine) (k : string) :
  ∀ m', meshes (frames nows st e) !! k = Some m' →
  ∃ m, meshes e !! k = Some m
       ∧ Mesh.node m' = Mesh.node m ∧ Mesh.geometry m' = Mesh.geometry m
       ∧ Mesh.material m' = Mesh.material m ∧ Mesh.userData m' = Mesh.userData m
       ∧ Mesh.scale m' = Mesh.scale m.
Proof.
  revert e. induction nows as [|now nows IH]; intros e m' Hm'; [by eauto 10 |].
  change (frames (now :: nows) st e) with (frames nows st (animate now st e)) in Hm'.
  apply IH in Hm' as (m1 & Hm1 & E1 & E2 & E3 & E4 & E5).
  apply animate_mesh in Hm1 as (m & Hm & F1 & F2 & F3 & F4 & F5 & _).
  exists m. split; [done |]. repeat split; congruence.
Qed.

Lemma frames_dom (nows : list R) (st : AppState) (e : Engine) :
  dom (meshes (frames nows st e)) = dom (meshes e)
  ∧ sceneMeshes (frames nows st e) = sceneMeshes e
  ∧ nextNode (frames nows st e) = nextNode e
  ∧ isInitialized (frames nows st e) = isInitialized e
  ∧ attached (frames nows st e) = attached e
  ∧ gizmoMode (frames nows st e) = gizmoMode e.
Proof.
  revert e. induction nows as [|now nows IH]; intros e; [done |].
  change (frames (now :: nows) st e) with (frames nows st (animate now st e)).
  destruct (IH (animate now st e)) as (-> & -> & -> & -> & -> & ->).
  apply animate_dom.
Qed.

(** X1: frames never add or remove a mesh, never change the scene list, the
    node counter, the gizmo or the initialised flag, and leave the node
    handle, geometry, material, cached triple and scale of every mesh as
    they were: a frame writes positions, rotations, the scene's own rotation
    and timers only. *)
Theorem frames_only_move (nows : list R) (st : AppState) (e : Engine) :
  dom (meshes (frames nows st e)) = dom (meshes e)
  ∧ sceneMeshes (frames nows st e) = sceneMeshes e
  ∧ nextNode (frames nows st e) = nextNode e
  ∧ isInitialized (frames nows st e) = isInitialized e
  ∧ attached (frames nows st e) = attached e
  ∧ gizmoMode (frames nows st e) = gizmoMode e
  ∧ ∀ k m', meshes (frames nows st e) !! k = Some m' →
      ∃ m, meshes e !! k = Some m
           ∧ Mesh.node m' = Mesh.node m ∧ Mesh.geometry m' = Mesh.geometry m
           ∧ Mesh.material m' = Mesh.material m ∧ Mesh.userData m' = Mesh.userData m
           ∧ Mesh.scale m' = Mesh.scale m.
Proof.
  destruct (frames_dom nows st e) as (H1 & H2 & H3 & H4 & H5 & H6).
  repeat (split; [done |]). intros k. apply frames_mesh.
Qed.

Lemma frames_synced (nows : list R) (st : AppState) (e : Engine) (obj : ShapeObject.t) :
  synced e obj → synced (frames nows st e) obj.
Proof.
  intros (m & Hm & Hud). unfold synced.
  assert (Hin : ShapeObject.id obj ∈ dom (meshes (frames nows st e))).
  { destruct (frames_dom nows st e) as (-> & _). apply elem_of_dom. eauto. }
  apply elem_of_dom in Hin as [m' Hm'].
  destruct (frames_mesh nows st e _ m' Hm') as (m0 & Hm0 & _ & _ & _ & Hud' & _).
  exists m'. split; [done |]. congruence.
Qed.

(** X2: reconciliation overrides animation. After a pass and any number of
    frames over the same store, the next pass (whatever else changed in the
    state) makes no graphics call and puts the node of every object back at
    the object's stored position, wherever the frames had moved it. *)
Theorem pass_after_frames (nows : list R) (st st' : AppState) (e : Engine) :
  isInitialized e = true → uniqueIds st → objects st' = objects st →
  let e2 := frames nows st (updateObjectsEffect st e).1 in
  (updateObjectsEffect st' e2).2 = []
  ∧ ∀ obj, obj ∈ objects st →
      nodePosition (updateObjectsEffect st' e2).1 (ShapeObject.id obj)
      = Some (Vector3.set (ShapeObject.position obj)).
Proof.
  intros Hinit Hu Hobjs e2.
  assert (Hu' : uniqueIds st') by (unfold uniqueIds; by rewrite Hobjs).
  assert (Hsynced : ∀ obj, obj ∈ objects st → synced e2 obj).
  { intros obj Hobj. apply frames_synced. by apply pass_synced. }
  split.
  - apply pass_quiet.
    + destruct (frames_dom nows st (updateObjectsEffect st e).1) as (Hdom & _).
      fold e2 in Hdom. rewrite Hdom, Hobjs, pass_dom by done. done.
    + rewrite Hobjs. exact Hsynced.
  - intros obj Hobj. apply pass_position; [| done | by rewrite Hobjs |].
    + destruct (frames_dom nows st (updateObjectsEffect st e).1) as (_ & _ & _ & Hi & _).
      fold e2 in Hi. by rewrite Hi, pass_initialized.
    + destruct (Hsynced obj Hobj) as (m & Hm & _). eauto.
Qed.

Lemma pass_after_frames_witness :
  let st := set_objects [orbiter] initialState in
  let e2 := frames [0; 1000; 2000] st (updateObjectsEffect st mounted).1 in
  (updateObjectsEffect (set_selectedId None st) e2).2 = []
  ∧ nodePosition (updateObjectsEffect (set_selectedId None st) e2).1 "1"
    = Some (Vector3.mk 0 0 0).
Proof.
  intros st e2.
  destruct (pass_after_frames [0; 1000; 2000] st (set_selectedId None st) mounted)
    as [Hquiet Hback].
  - reflexivity.
  - unfold uniqueIds. simpl. apply NoDup_singleton.
  - reflexivity.
  - split; [exact Hquiet |]. apply (Hback orbiter). simpl. left.
Defined.

(** ** KineticSimulator: the modes *)

Lemma rotation_with_position (p : Vector3.t) (m : Mesh.t) :
  Mesh.rotation (with_position p m) = Mesh.rotation m.
Proof. done. Qed.

Lemma animateObject_rotation (time : R) (e : Engine) (o : ShapeObject.t) (r : Vector3.t) :
  nodeRotation e (ShapeObject.id o) = Some r →
  nodeRotation (animateObject time e o) (ShapeObject.id o)
  = Some (if ShapeObject.isAnimated o
          then Vector3.mk (Vector3.x r) (Vector3.y r + 0.01) (Vector3.z r) else r).
Proof.
  unfold nodeRotation, animateObject.
  destruct (meshes e !! ShapeObject.id o) as [mesh|]; [| done].
  intros [= <-].
  assert (Hspin : Mesh.rotation (spin o mesh)
    = if ShapeObject.isAnimated o
      then Vector3.mk (Vector3.x (Mesh.rotation mesh)) (Vector3.y (Mesh.rotation mesh) + 0.01)
             (Vector3.z (Mesh.rotation mesh))
      else Mesh.rotation mesh).
  { unfold spin. by destruct (ShapeObject.isAnimated o). }
  destruct (move _ _ _).2; simpl; rewrite lookup_insert_eq; simpl; by rewrite Hspin.
Qed.

Lemma animate_rotation (now : R) (st : AppState) (e : Engine) (o : ShapeObject.t)
    (r : Vector3.t) :
  uniqueIds st → o ∈ objects st →
  nodeRotation e (ShapeObject.id o) = Some r →
  nodeRotation (animate now st e) (ShapeObject.id o)
  = Some (if ShapeObject.isAnimated o
          then Vector3.mk (Vector3.x r) (Vector3.y r + 0.01) (Vector3.z r) else r).
Proof.
  intros Hu Ho Hr. unfold animate.
  assert (Hfold : ∀ objs e0, NoDup (ids objs) → o ∈ objs →
    nodeRotation e0 (ShapeObject.id o) = Some r →
    nodeRotation (foldl (animateObject (now * 0.001)) e0 objs) (ShapeObject.id o)
    = Some (if ShapeObject.isAnimated o
            then Vector3.mk (Vector3.x r) (Vector3.y r + 0.01) (Vector3.z r) else r)).
  { intros objs. induction objs as [|o' objs IH]; intros e0 Hnd Hin Hr0; simpl.
    - by apply elem_of_nil in Hin.
    - unfold ids in Hnd. rewrite fmap_cons in Hnd. apply NoDup_cons in Hnd as [Hnotin Hnd].
      apply elem_of_cons in Hin as [-> | Hin].
      + unfold nodeRotation. rewrite animate_fold_lookup_ne by done.
        by apply animateObject_rotation.
      + apply IH; [done | done |].
        unfold nodeRotation in *. rewrite animateObject_lookup_ne; [done |].
        intros Heq. apply Hnotin. rewrite <- Heq. apply list_elem_of_fmap. by exists o. }
  apply Hfold; [done | done |]. by destruct (autoRotate st).
Qed.

(** X3: the self-spin is independent of the movement mode. For an object
    with [isAnimated] set, [n] frames add exactly [0.01 * n] to the node's
    [rotation.y] and leave [rotation.x] and [rotation.z]; without the flag
    the rotation is not touched. *)
Theorem spin_accumulates (nows : list R) (st : AppState) (e : Engine) (obj : ShapeObject.t)
    (r : Vector3.t) :
  uniqueIds st → obj ∈ objects st →
  nodeRotation e (ShapeObject.id obj) = Some r →
  nodeRotation (frames nows st e) (ShapeObject.id obj)
  = Some (if ShapeObject.isAnimated obj
          then Vector3.mk (Vector3.x r) (Vector3.y r + 0.01 * INR (length nows)) (Vector3.z r)
          else r).
Proof.
  intros Hu Hobj. revert e r. induction nows as [|now nows IH]; intros e r Hr.
  - simpl. rewrite Hr. destruct (ShapeObject.isAnimated obj); [| done].
    destruct r. simpl. do 2 f_equal. lra.
  - change (frames (now :: nows) st e) with (frames nows st (animate now st e)).
    rewrite (IH _ _ (animate_rotation now st e obj r Hu Hobj Hr)).
    rewrite length_cons, S_INR.
    destruct (ShapeObject.isAnimated obj); [| done]. simpl. do 2 f_equal. lra.
Qed.

(** A pass leaves, under the id of an object that had a mesh, that mesh
    updated from the object. *)
Lemma pass_updates_mesh (st : AppState) (e : Engine) (obj : ShapeObject.t) (mesh : Mesh.t) :
  isInitialized e = true → uniqueIds st → obj ∈ objects st →
  meshes e !! ShapeObject.id obj = Some mesh →
  meshes (updateObjectsEffect st e).1 !! ShapeObject.id obj = Some (updatedMesh mesh obj).
Proof.
  intros Hinit Hu Hobj Hmesh. rewrite pass_meshes by done.
  pose proof Hobj as Hin.
  apply list_elem_of_split in Hobj as (l1 & l2 & Hsplit).
  assert (Hnd : NoDup (ids l1 ++ ShapeObject.id obj :: ids l2)).
  { unfold uniqueIds in Hu. rewrite Hsplit in Hu. unfold ids in *.
    by rewrite fmap_app, fmap_cons in Hu. }
  apply NoDup_app in Hnd as (Hnd1 & Hdisj & [Hnot2 Hnd2]%NoDup_cons).
  assert (Hnot1 : ShapeObject.id obj ∉ ids l1).
  { intros Hin1. apply (Hdisj _ Hin1). by left. }
  rewrite Hsplit at 2. rewrite foldl_app. simpl.
  rewrite sync_fold_lookup_ne by done.
  assert (Hbefore :
    meshes (foldl syncObject
              (foldl (removeStale (list_to_set (ids (objects st)))) (e, [])
                 (map_to_list (meshes e))) l1).1 !! ShapeObject.id obj = Some mesh).
  { rewrite sync_fold_lookup_ne by done. rewrite removed_lookup.
    rewrite decide_True; [done |]. apply elem_of_list_to_set.
    apply list_elem_of_fmap. by exists obj. }
  rewrite (syncObject_update _ _ _ Hbefore). simpl. by rewrite lookup_insert_eq.
Qed.

Lemma updatedMesh_transform (mesh : Mesh.t) (obj : ShapeObject.t) :
  Mesh.position (updatedMesh mesh obj) = Vector3.set (ShapeObject.position obj)
  ∧ Mesh.rotation (updatedMesh mesh obj) = Vector3.set (ShapeObject.rotation obj)
  ∧ Mesh.scale (updatedMesh mesh obj) = Vector3.set (ShapeObject.scale obj)
  ∧ Mesh.material (updatedMesh mesh obj) = updateMaterial (Mesh.material mesh) obj
  ∧ Mesh.userData (updatedMesh mesh obj) = shapeParams obj
  ∧ Mesh.node (updatedMesh mesh obj) = Mesh.node mesh.
Proof.
  unfold updatedMesh. simpl.
  destruct (paramsChanged (Mesh.userData mesh) obj) eqn:Hchanged; simpl; [done |].
  apply paramsChanged_false in Hchanged. by rewrite Hchanged.
Qed.

Lemma stageOf_rotation (obj : ShapeObject.t) :
  nodeRotation (stageOf obj) (ShapeObject.id obj)
  = Some (Vector3.set (ShapeObject.rotation obj)).
Proof.
  assert (Hu : uniqueIds (set_objects [obj] initialState)).
  { unfold uniqueIds. simpl. apply NoDup_singleton. }
  destruct (pass_synced (set_objects [obj] initialState) mounted obj) as (m & Hm & _);
    [done | done | simpl; left |].
  unfold stageOf, nodeRotation.
  rewrite (pass_updates_mesh _ _ obj m); [| by rewrite pass_initialized | done | simpl; left | done].
  simpl. by destruct (updatedMesh_transform m obj) as (_ & -> & _).
Qed.

Lemma spin_accumulates_witness :
  let spinner := spread initialObject [f_isAnimated true; f_movementMode mode_orbit] in
  nodeRotation (frames [0; 16; 33] (set_objects [spinner] initialState) (stageOf spinner)) "1"
  = Some (Vector3.mk 0 (0 + 0.01 * INR 3) 0).
Proof.
  intros spinner.
  apply (spin_accumulates [0; 16; 33] (set_objects [spinner] initialState)
           (stageOf spinner) spinner (Vector3.mk 0 0 0)).
  - unfold uniqueIds. simpl. apply NoDup_singleton.
  - simpl. left.
  - apply (stageOf_rotation spinner).
Defined.

Lemma move_none (time : R) (obj : ShapeObject.t) (p : Vector3.t) :
  ShapeObject.movementMode obj = mode_none → move time obj p = (p, false).
Proof.
  intros Hmode. unfold move. rewrite Hmode.
  by destruct (ShapeObject.originalPosition obj) as [[ox oy] oz].
Qed.

(** X4: an object in mode [none] is never moved: after any number of frames
    its node is where it was, whatever its home, speed and range. *)
Theorem none_mode_static (nows : list R) (st : AppState) (e : Engine) (obj : ShapeObject.t)
    (p : Vector3.t) :
  uniqueIds st → obj ∈ objects st →
  ShapeObject.movementMode obj = mode_none →
  nodePosition e (ShapeObject.id obj) = Some p →
  nodePosition (frames nows st e) (ShapeObject.id obj) = Some p.
Proof.
  intros Hu Hobj Hmode. revert e. induction nows as [|now nows IH]; intros e Hp; [done |].
  change (frames (now :: nows) st e) with (frames nows st (animate now st e)).
  apply IH. destruct (animate_position now st e obj p Hu Hobj Hp) as [Hp' _].
  by rewrite (move_none _ _ _ Hmode) in Hp'.
Qed.

Lemma none_mode_static_witness :
  nodePosition (frames [0; 16; 33] (set_objects [initialObject] initialState)
                  (stageOf initialObject)) "1"
  = Some (Vector3.mk 0 0 0).
Proof.
  apply (none_mode_static [0; 16; 33] (set_objects [initialObject] initialState)
           (stageOf initialObject) initialObject (Vector3.mk 0 0 0)).
  - unfold uniqueIds. simpl. apply NoDup_singleton.
  - simpl. left.
  - reflexivity.
  - apply (stageOf_position initialObject).
Defined.

Lemma sin_bound_mult (a r : R) : Rabs (sin a * r) <= Rabs r.
Proof.
  rewrite Rabs_mult. pose proof (SIN_bound a) as [Hlo Hhi].
  assert (Rabs (sin a) <= 1) by (apply Rabs_le; lra).
  pose proof (Rabs_pos r). nra.
Qed.

(** X5: the two oscillating modes keep the node within the range of its
    home. In [left-right] mode a frame at time [t] sets
    [x = hx + sin (t * speed * 2) * range], so [|x - hx| <= |range|], and
    leaves [y] and [z]; [up-down] does the same on [y]; at [t = 0] the
    moving coordinate is the home's. *)
Theorem oscillation_bounded (now : R) (st : AppState) (e : Engine) (obj : ShapeObject.t)
    (p : Vector3.t) :
  uniqueIds st → obj ∈ objects st →
  nodePosition e (ShapeObject.id obj) = Some p →
  let t := now * 0.001 in
  let hx := (ShapeObject.originalPosition obj).1.1 in
  let hy := (ShapeObject.originalPosition obj).1.2 in
  let swing := sin (t * ShapeObject.movementSpeed obj * 2) * ShapeObject.movementRange obj in
  (ShapeObject.movementMode obj = mode_left_right →
     nodePosition (animate now st e) (ShapeObject.id obj)
     = Some (Vector3.mk (hx + swing) (Vector3.y p) (Vector3.z p))
     ∧ Rabs (hx + swing - hx) <= Rabs (ShapeObject.movementRange obj)
     ∧ (t = 0 → swing = 0))
  ∧ (ShapeObject.movementMode obj = mode_up_down →
     nodePosition (animate now st e) (ShapeObject.id obj)
     = Some (Vector3.mk (Vector3.x p) (hy + swing) (Vector3.z p))
     ∧ Rabs (hy + swing - hy) <= Rabs (ShapeObject.movementRange obj)
     ∧ (t = 0 → swing = 0)).
Proof.
  intros Hu Hobj Hp t hx hy swing.
  destruct (animate_position now st e obj p Hu Hobj Hp) as [Hp' _].
  assert (Hbound : ∀ h, Rabs (h + swing - h) <= Rabs (ShapeObject.movementRange obj)).
  { intros h. replace (h + swing - h) with swing by lra. apply sin_bound_mult. }
  assert (Hzero : t = 0 → swing = 0).
  { intros Ht. unfold swing. rewrite Ht.
    replace (0 * ShapeObject.movementSpeed obj * 2) with 0 by lra. rewrite sin_0. lra. }
  split; intros Hmode; (split; [| split; [apply Hbound | exact Hzero]]);
    rewrite Hp'; unfold move; rewrite Hmode; subst hx hy swing t;
    by destruct (ShapeObject.originalPosition obj) as [[ox oy] oz].
Qed.

Lemma oscillation_bounded_witness :
  let swinger := spread initialObject [f_movementMode mode_left_right] in
  let st := set_objects [swinger] initialState in
  nodePosition (animate 250 st (stageOf swinger)) "1"
  = Some (Vector3.mk (0 + sin (250 * 0.001 * 1 * 2) * 5) 0 0)
  ∧ Rabs (0 + sin (250 * 0.001 * 1 * 2) * 5 - 0) <= Rabs 5.
Proof.
  intros swinger st.
  destruct (oscillation_bounded 250 st (stageOf swinger) swinger (Vector3.mk 0 0 0))
    as [Hlr _].
  - unfold uniqueIds. simpl. apply NoDup_singleton.
  - simpl. left.
  - apply (stageOf_position swinger).
  - destruct Hlr as (Hat & Hbound & _); [reflexivity |]. split; [exact Hat | exact Hbound].
Defined.

(** X6: in orbit mode the node stays on the circle around its home, in the
    plane of [x] and [z], whose radius is the range (5 for a range of zero):
    after every frame [(x - hx)^2 + (z - hz)^2 = r^2], with [y] untouched. *)
Theorem orbit_on_circle (now : R) (st : AppState) (e : Engine) (obj : ShapeObject.t)
    (p : Vector3.t) :
  uniqueIds st → obj ∈ objects st →
  ShapeObject.movementMode obj = mode_orbit →
  nodePosition e (ShapeObject.id obj) = Some p →
  let hx := (ShapeObject.originalPosition obj).1.1 in
  let hz := (ShapeObject.originalPosition obj).2 in
  let r := number_or (ShapeObject.movementRange obj) 5 in
  ∃ p', nodePosition (animate now st e) (ShapeObject.id obj) = Some p'
        ∧ (Vector3.x p' - hx) ^ 2 + (Vector3.z p' - hz) ^ 2 = r ^ 2
        ∧ Vector3.y p' = Vector3.y p
        ∧ r ≠ 0.
Proof.
  intros Hu Hobj Hmode Hp hx hz r.
  destruct (animate_position now st e obj p Hu Hobj Hp) as [Hp' _].
  eexists. split; [exact Hp' |]. unfold move. rewrite Hmode. subst hx hz r.
  destruct (ShapeObject.originalPosition obj) as [[ox oy] oz]. simpl.
  split; [| split; [done |]].
  - pose proof (sin2_cos2 (now * 0.001 * (ShapeObject.movementSpeed obj * 0.5))) as Hsc.
    unfold Rsqr in Hsc.
    set (c := cos _) in *. set (s := sin _) in *.
    set (r := number_or _ _).
    replace ((ox + c * r - ox) * ((ox + c * r - ox) * 1)
             + (oz + s * r - oz) * ((oz + s * r - oz) * 1))
      with ((s * s + c * c) * (r * r)) by ring.
    rewrite Hsc. ring.
  - unfold number_or. case_decide; lra.
Qed.

Lemma orbit_on_circle_witness :
  let st := set_objects [orbiter] initialState in
  ∃ p', nodePosition (animate 123456 st (stageOf orbiter)) "1" = Some p'
        ∧ (Vector3.x p' - 0) ^ 2 + (Vector3.z p' - 0) ^ 2 = number_or 5 5 ^ 2.
Proof.
  intros st.
  destruct (orbit_on_circle 123456 st (stageOf orbiter) orbiter (Vector3.mk 0 0 0))
    as (p' & Hp' & Hcircle & _).
  - unfold uniqueIds. simpl. apply NoDup_singleton.
  - simpl. left.
  - reflexivity.
  - apply (stageOf_position orbiter).
  - exists p'. split; [exact Hp' | exact Hcircle].
Defined.

(** *** Returning mode in general *)



Section ReturningGeneral.
Variables (st : AppState) (obj : ShapeObject.t) (p : Vector3.t).
Hypothesis Hu : uniqueIds st.
Hypothesis Hobj : obj ∈ objects st.
Hypothesis Hmode : ShapeObject.movementMode obj = mode_returning.

Let h := ShapeObject.originalPosition obj.
Let c := 1 - 0.05 * ShapeObject.movementSpeed obj.
Let commit := mkTimer (ShapeObject.id obj) h.

(** Where the node is after [k] frames that did not arrive. *)
Let q (k : nat) : Vector3.t :=
  Vector3.mk (h.1.1 + c ^ k * (Vector3.x p - h.1.1)) (h.1.2 + c ^ k * (Vector3.y p - h.1.2))
    (h.2 + c ^ k * (Vector3.z p - h.2)).






End ReturningGeneral.



Lemma move_arrival_mode (time : R) (obj : ShapeObject.t) (p : Vector3.t) :
  (move time obj p).2 = true → ShapeObject.movementMode obj = mode_returning.
Proof.
  unfold move. destruct (ShapeObject.originalPosition obj) as [[ox oy] oz].
  by destruct (ShapeObject.movementMode obj).
Qed.

Lemma animateObject_timers_cases (time : R) (e : Engine) (o : ShapeObject.t) :
  timers (animateObject time e o) = timers e
  ∨ (ShapeObject.movementMode o = mode_returning
     ∧ timers (animateObject time e o)
       = timers e ++ [mkTimer (ShapeObject.id o) (ShapeObject.originalPosition o)]).
Proof.
  unfold animateObject.
  destruct (meshes e !! ShapeObject.id o) as [mesh|]; [| by left].
  destruct (move time o (Mesh.position (spin o mesh))).2 eqn:Harrived; simpl; [| by left].
  right. split; [| done]. by eapply move_arrival_mode.
Qed.

Lemma animate_timers_cases (now : R) (st : AppState) (e : Engine) :
  (∀ tm, tm ∈ timers (animate now st e) →
     tm ∈ timers e
     ∨ ∃ obj, obj ∈ objects st ∧ ShapeObject.movementMode obj = mode_returning
              ∧ tm = mkTimer (ShapeObject.id obj) (ShapeObject.originalPosition obj))
  ∧ ((∀ obj, obj ∈ objects st → ShapeObject.movementMode obj ≠ mode_returning) →
     timers (animate now st e) = timers e).
Proof.
  unfold animate.
  assert (Hstart : timers (if autoRotate st
                           then set_sceneRotationY (λ r, r + rotationSpeed st) e else e)
                   = timers e) by (by destruct (autoRotate st)).
  rewrite <- Hstart.
  generalize (if autoRotate st then set_sceneRotationY (λ r, r + rotationSpeed st) e else e).
  clear Hstart. generalize (objects st) as objs.
  induction objs as [|o objs IH]; intros e0; simpl.
  - split; [by left | done].
  - destruct (IH (animateObject (now * 0.001) e0 o)) as [IHin IHeq]. split.
    + intros tm Htm. destruct (IHin tm Htm) as [Hold | (obj & Hobj & Hm & ->)].
      * destruct (animateObject_timers_cases (now * 0.001) e0 o) as [Heq | [Hm Heq]];
          rewrite Heq in Hold; [by left |].
        apply elem_of_app in Hold as [Hold | ->%list_elem_of_singleton]; [by left |].
        right. exists o. split; [left | done].
      * right. exists obj. split; [by right | done].
    + intros Hnone. rewrite IHeq by (intros obj Hobj; apply Hnone; by right).
      destruct (animateObject_timers_cases (now * 0.001) e0 o) as [Heq | [Hm _]]; [done |].
      exfalso. by apply (Hnone o); [left |].
Qed.

(** X8: only returning objects ever schedule a write to the store. Every
    timer pending after any number of frames was pending before or is the
    commit of a stored object in returning mode, for that object's id and
    home; with no object in returning mode the frames set no timer at all. *)
Theorem timers_only_from_returning (nows : list R) (st : AppState) (e : Engine) :
  (∀ tm, tm ∈ timers (frames nows st e) →
     tm ∈ timers e
     ∨ ∃ obj, obj ∈ objects st ∧ ShapeObject.movementMode obj = mode_returning
              ∧ tm = mkTimer (ShapeObject.id obj) (ShapeObject.originalPosition obj))
  ∧ ((∀ obj, obj ∈ objects st → ShapeObject.movementMode obj ≠ mode_returning) →
     timers (frames nows st e) = timers e).
Proof.
  revert e. induction nows as [|now nows IH]; intros e.
  - split; [by left | done].
  - change (frames (now :: nows) st e) with (frames nows st (animate now st e)).
    destruct (IH (animate now st e)) as [IHin IHeq].
    destruct (animate_timers_cases now st e) as [Hin Heq]. split.
    + intros tm Htm. destruct (IHin tm Htm) as [Hold | Hnew]; [by apply Hin | by right].
    + intros Hnone. by rewrite IHeq, Heq.
Qed.

(** X9: the scene's own rotation is driven by [autoRotate] alone: [n] frames
    add [n * rotationSpeed] to [scene.rotation.y] when the flag is set and
    nothing when it is not, whatever the objects are. *)
Theorem autoRotate_accumulates (nows : list R) (st : AppState) (e : Engine) :
  sceneRotationY (frames nows st e)
  = sceneRotationY e
    + (if autoRotate st then INR (length nows) * rotationSpeed st else 0).
Proof.
  assert (Hframe : ∀ now e0, sceneRotationY (animate now st e0)
    = sceneRotationY e0 + (if autoRotate st then rotationSpeed st else 0)).
  { intros now e0. unfold animate.
    assert (Hfold : ∀ objs e1,
      sceneRotationY (foldl (animateObject (now * 0.001)) e1 objs) = sceneRotationY e1).
    { intros objs. induction objs as [|o objs IH]; intros e1; simpl; [done |].
      rewrite IH. by destruct (animateObject_dom (now * 0.001) e1 o) as (_ & _ & _ & _ & _ & _ & ->). }
    rewrite Hfold. destruct (autoRotate st); simpl; lra. }
  revert e. induction nows as [|now nows IH]; intros e.
  - simpl. destruct (autoRotate st); lra.
  - change (frames (now :: nows) st e) with (frames nows st (animate now st e)).
    rewrite IH, Hframe, length_cons, S_INR. destruct (autoRotate st); lra.
Qed.

(** ** SceneSynchronizer: creation, update, resources *)

Lemma pass_creates_mesh (st : AppState) (e : Engine) (obj : ShapeObject.t) :
  isInitialized e = true → uniqueIds st → obj ∈ objects st →
  meshes e !! ShapeObject.id obj = None →
  ∃ n, (nextNode e ≤ n)%nat
       ∧ meshes (updateObjectsEffect st e).1 !! ShapeObject.id obj = Some (newMesh n obj).
Proof.
  intros Hinit Hu Hobj Hmesh. rewrite pass_meshes by done.
  apply list_elem_of_split in Hobj as (l1 & l2 & Hsplit).
  assert (Hnd : NoDup (ids l1 ++ ShapeObject.id obj :: ids l2)).
  { unfold uniqueIds in Hu. rewrite Hsplit in Hu. unfold ids in *.
    by rewrite fmap_app, fmap_cons in Hu. }
  apply NoDup_app in Hnd as (Hnd1 & Hdisj & [Hnot2 Hnd2]%NoDup_cons).
  assert (Hnot1 : ShapeObject.id obj ∉ ids l1).
  { intros Hin1. apply (Hdisj _ Hin1). by left. }
  set (removed := foldl (removeStale (list_to_set (ids (objects st)))) (e, [])
                    (map_to_list (meshes e))).
  set (before := foldl syncObject removed l1).
  assert (Hbefore : meshes before.1 !! ShapeObject.id obj = None).
  { unfold before, removed. rewrite sync_fold_lookup_ne by done. rewrite removed_lookup.
    by case_decide. }
  exists (nextNode before.1). split.
  - destruct (sync_fold_rest l1 removed) as (_ & _ & _ & _ & _ & Hle).
    destruct (removeStale_fold_rest (list_to_set (ids (objects st)))
      (map_to_list (meshes e)) (e, [])) as (_ & Hnext & _).
    fold removed in Hnext. fold before in Hle. simpl in Hle, Hnext. lia.
  - rewrite Hsplit, foldl_app. fold before. simpl.
    rewrite sync_fold_lookup_ne by done.
    unfold syncObject. rewrite Hbefore. simpl. by rewrite lookup_insert_eq.
Qed.

(** X10: a mesh created by a pass does not get the object's transform. For
    an object that had no mesh, the pass leaves a new mesh at position
    (0, 0, 0) with rotation (0, 0, 0) and scale (1, 1, 1), whatever the
    object's stored position, rotation and scale; the pass after that gives
    the node the stored transform. *)
Theorem new_node_at_origin (st st' : AppState) (e : Engine) (obj : ShapeObject.t) :
  isInitialized e = true → uniqueIds st → obj ∈ objects st →
  meshes e !! ShapeObject.id obj = None → objects st' = objects st →
  let e1 := (updateObjectsEffect st e).1 in
  let e2 := (updateObjectsEffect st' e1).1 in
  (∃ m, meshes e1 !! ShapeObject.id obj = Some m
        ∧ Mesh.position m = Vector3.mk 0 0 0
        ∧ Mesh.rotation m = Vector3.mk 0 0 0
        ∧ Mesh.scale m = Vector3.mk 1 1 1)
  ∧ (∃ m, meshes e2 !! ShapeObject.id obj = Some m
          ∧ Mesh.position m = Vector3.set (ShapeObject.position obj)
          ∧ Mesh.rotation m = Vector3.set (ShapeObject.rotation obj)
          ∧ Mesh.scale m = Vector3.set (ShapeObject.scale obj)).
Proof.
  intros Hinit Hu Hobj Hnone Hobjs e1 e2.
  destruct (pass_creates_mesh st e obj Hinit Hu Hobj Hnone) as (n & _ & Hnew).
  fold e1 in Hnew. split; [by exists (newMesh n obj) |].
  exists (updatedMesh (newMesh n obj) obj). split.
  - apply pass_updates_mesh; [| | by rewrite Hobjs | done].
    + unfold e1. by rewrite pass_initialized.
    + unfold uniqueIds. by rewrite Hobjs.
  - by destruct (updatedMesh_transform (newMesh n obj) obj) as (-> & -> & -> & _).
Qed.

Lemma new_node_at_origin_witness :
  let st := addObject sampleDraws initialState in
  let e := (updateObjectsEffect initialState mounted).1 in
  ∃ m, meshes (updateObjectsEffect st e).1 !! "k3x9q0w2a" = Some m
       ∧ Mesh.position m = Vector3.mk 0 0 0
       ∧ ShapeObject.position (newObject sampleDraws (objects initialState))
         = ((0 - 0.5) * 10, 2, (0 - 0.5) * 10).
Proof.
  intros st e.
  destruct (new_node_at_origin st st e (newObject sampleDraws (objects initialState)))
    as [(m & Hm & Hpos & _) _].
  - unfold e. by rewrite pass_initialized.
  - unfold uniqueIds. simpl. apply (bool_decide_unpack _). vm_compute. reflexivity.
  - simpl. right. left.
  - assert (Hdom : ("k3x9q0w2a"%string : string) ∉ dom (meshes e)).
    { unfold e. rewrite pass_dom by done. simpl. set_solver. }
    by apply not_elem_of_dom in Hdom.
  - reflexivity.
  - exists m. split; [exact Hm |]. split; [exact Hpos | reflexivity].
Defined.



(** *** Every allocation is accounted for *)








(** *** Engines reached from the mount *)

Lemma animate_wf (now : R) (st : AppState) (e : Engine) :
  engine_wf e → engine_wf (animate now st e).
Proof.
  intros [Hfresh Hin Hlive Hinj].
  destruct (animate_dom now st e) as (Hdom & Hscene & Hnext & _).
  assert (Hback : ∀ k m, meshes e !! k = Some m →
    ∃ m', meshes (animate now st e) !! k = Some m' ∧ Mesh.node m' = Mesh.node m).
  { intros k m Hm.
    assert (Hk : k ∈ dom (meshes (animate now st e))) by (rewrite Hdom; apply elem_of_dom; eauto).
    apply elem_of_dom in Hk as [m' Hm'].
    destruct (animate_mesh now st e k m' Hm') as (m0 & Hm0 & Hn & _).
    exists m'. split; [done |]. congruence. }
  split.
  - intros k m' (m & Hm & -> & _)%animate_mesh. rewrite Hnext. by eapply Hfresh.
  - intros k m' (m & Hm & -> & _)%animate_mesh. rewrite Hscene. by eapply Hin.
  - intros n Hn. rewrite Hscene in Hn. destruct (Hlive n Hn) as (k & m & Hm & <-).
    destruct (Hback k m Hm) as (m' & Hm' & Hnode). by exists k, m'.
  - intros k1 k2 m1 m2 (x1 & Hx1 & -> & _)%animate_mesh (x2 & Hx2 & -> & _)%animate_mesh.
    by eapply Hinj.
Qed.

Lemma animate_coherent (now : R) (st : AppState) (e : Engine) :
  engine_coherent e → engine_coherent (animate now st e).
Proof.
  intros Hc k m' (m & Hm & _ & Hg & _ & Hud & _)%animate_mesh.
  unfold builtFromCache. rewrite Hg, Hud. by apply (Hc k).
Qed.

Lemma updatedMesh_coherent (mesh : Mesh.t) (obj : ShapeObject.t) :
  builtFromCache mesh → builtFromCache (updatedMesh mesh obj).
Proof.
  intros Hb. unfold updatedMesh, builtFromCache. simpl.
  by destruct (paramsChanged (Mesh.userData mesh) obj).
Qed.

Lemma pass_coherent (st : AppState) (e : Engine) :
  engine_coherent e → engine_coherent (updateObjectsEffect st e).1.
Proof.
  intros Hc. unfold updateObjectsEffect. destruct (isInitialized e); [| done]. simpl.
  set (removed := foldl (removeStale _) _ _).
  assert (Hremoved : engine_coherent removed.1).
  { intros k m. unfold removed. rewrite removed_lookup. case_decide; [apply Hc | done]. }
  assert (Hsynced : engine_coherent (foldl syncObject removed (objects st)).1).
  { generalize (objects st). intros objs. revert Hremoved. generalize removed.
    induction objs as [|o objs IH]; intros acc Hacc; [done |].
    simpl. apply IH. intros k m.
    destruct (meshes acc.1 !! ShapeObject.id o) as [old|] eqn:Hold.
    - rewrite (syncObject_update _ _ _ Hold). simpl.
      destruct (decide (k = ShapeObject.id o)) as [-> | Hne].
      + rewrite lookup_insert_eq. intros [= <-]. apply updatedMesh_coherent. by eapply Hacc.
      + rewrite lookup_insert_ne by done. apply Hacc.
    - unfold syncObject. rewrite Hold. simpl.
      destruct (decide (k = ShapeObject.id o)) as [-> | Hne].
      + rewrite lookup_insert_eq. by intros [= <-].
      + rewrite lookup_insert_ne by done. apply Hacc. }
  intros k m.
  destruct (updateGizmo_meshes st (foldl syncObject removed (objects st)).1) as (-> & _).
  apply Hsynced.
Qed.

(** X13: every engine reached from the mount by passes and frames, over any
    stores, is initialised and consistent: the meshes in the scene are
    exactly the values of [meshesRef], each id has its own node, handed out
    by the node counter, and the geometry of every mesh is the one
    [createGeometry] builds from the mesh's cached (type, radius, height). *)
Theorem reachable_engine_consistent (steps : list Step) :
  let e := (run steps mounted).1 in
  isInitialized e = true ∧ engine_wf e ∧ engine_coherent e.
Proof.
  unfold run.
  assert (Hstart : isInitialized (mounted, @nil Event).1 = true
                   ∧ engine_wf (mounted, @nil Event).1
                   ∧ engine_coherent (mounted, @nil Event).1).
  { split; [done |]. split; [apply mounted_wf |]. intros k m. simpl.
    by rewrite lookup_empty. }
  revert Hstart. generalize (mounted, @nil Event).
  induction steps as [|s steps IH]; intros acc Hacc; [done |].
  simpl. apply IH. destruct Hacc as (Hinit & Hwf & Hc).
  destruct s as [st | now st]; simpl.
  - split; [by rewrite pass_initialized |]. split; [by apply pass_wf | by apply pass_coherent].
  - destruct (animate_dom now st acc.1) as (_ & _ & _ & Hi & _).
    split; [by rewrite Hi |]. split; [by apply animate_wf | by apply animate_coherent].
Qed.

(** X14: what is drawn is the shape that is stored. On an engine reached
    from the mount, after a pass over a store with unique ids and any number
    of frames, the mesh of every object is in the scene and its geometry is
    [createGeometry] of the object's type, radius and height. *)
Theorem geometry_matches_store (steps : list Step) (nows : list R) (st : AppState)
    (obj : ShapeObject.t) :
  uniqueIds st → obj ∈ objects st →
  let e := frames nows st (updateObjectsEffect st (run steps mounted).1).1 in
  ∃ m, meshes e !! ShapeObject.id obj = Some m
       ∧ Mesh.node m ∈ sceneMeshes e
       ∧ Mesh.geometry m
         = createGeometry (ShapeObject.type obj) (ShapeObject.radius obj)
             (ShapeObject.height obj).
Proof.
  intros Hu Hobj e.
  destruct (reachable_engine_consistent steps) as (Hinit & Hwf & Hc).
  set (e0 := (run steps mounted).1) in *.
  destruct (pass_synced st e0 obj Hinit Hu Hobj) as (m1 & Hm1 & Hud).
  pose proof (pass_coherent st e0 Hc _ _ Hm1) as Hbuilt.
  pose proof (wf_in_scene _ (pass_wf st e0 Hwf) _ _ Hm1) as Hscene.
  assert (Hk : ShapeObject.id obj ∈ dom (meshes e)).
  { unfold e. destruct (frames_dom nows st (updateObjectsEffect st e0).1) as (-> & _).
    apply elem_of_dom. eauto. }
  apply elem_of_dom in Hk as [m Hm]. exists m. split; [done |].
  destruct (frames_mesh nows st _ _ m Hm) as (m0 & Hm0 & Hn & Hg & _).
  assert (m0 = m1) as -> by congruence.
  destruct (frames_dom nows st (updateObjectsEffect st e0).1) as (_ & Hsc & _).
  fold e in Hsc. rewrite Hsc, Hn, Hg. split; [done |].
  unfold builtFromCache in Hbuilt. by rewrite Hbuilt, Hud.
Qed.

Lemma geometry_matches_store_witness :
  let st := updateSelectedObject [f_type "cube"; f_radius 4] initialState in
  let e := frames [0; 16]
             st (updateObjectsEffect st (run [step_pass initialState] mounted).1).1 in
  ∃ m, meshes e !! "1" = Some m
       ∧ Mesh.geometry m = createGeometry "cube" 4 3.
Proof.
  intros st e.
  destruct (geometry_matches_store [step_pass initialState] [0; 16] st
              (spread initialObject [f_type "cube"; f_radius 4]))
    as (m & Hm & _ & Hg).
  - unfold uniqueIds. simpl. apply NoDup_singleton.
  - simpl. left.
  - exists m. split; [exact Hm | exact Hg].
Defined.

(** X15: after a pass the transform gizmo is attached exactly when the gizmo
    is shown and the selection is a non-empty id of the store, and then to
    the node of the selected object's mesh, which is in the scene, with the
    current transform mode; otherwise it is detached and its mode is left
    alone. *)
Theorem gizmo_follows_selection (st : AppState) (e : Engine) :
  isInitialized e = true → engine_wf e →
  let e' := (updateObjectsEffect st e).1 in
  (∀ sel, selectedId st = Some sel → sel ≠ ""%string → showGizmo st = true →
          sel ∈ ids (objects st) →
     ∃ m, meshes e' !! sel = Some m ∧ attached e' = Some (Mesh.node m)
          ∧ Mesh.node m ∈ sceneMeshes e' ∧ gizmoMode e' = transformMode st)
  ∧ ((showGizmo st = false ∨ truthy (selectedId st) = false
      ∨ ∃ sel, selectedId st = Some sel ∧ sel ∉ ids (objects st)) →
     attached e' = None ∧ gizmoMode e' = gizmoMode e).
Proof.
  intros Hinit Hwf e'.
  destruct (pass_complete st e Hinit Hwf) as (Hdom & Hlive & Hwf' & _). fold e' in Hdom, Hlive, Hwf'.
  set (synced := (foldl syncObject
                    (foldl (removeStale (list_to_set (ids (objects st)))) (e, [])
                       (map_to_list (meshes e))) (objects st)).1).
  assert (He' : e' = updateGizmo st synced).
  { unfold e', updateObjectsEffect. by rewrite Hinit. }
  assert (Hmeshes : meshes e' = meshes synced).
  { rewrite He'. apply updateGizmo_meshes. }
  assert (Hmode : gizmoMode synced = gizmoMode e).
  { unfold synced.
    destruct (sync_fold_rest (objects st)
      (foldl (removeStale (list_to_set (ids (objects st)))) (e, [])
         (map_to_list (meshes e)))) as (_ & _ & _ & _ & -> & _).
    by destruct (removeStale_fold_rest (list_to_set (ids (objects st)))
      (map_to_list (meshes e)) (e, [])) as (_ & _ & _ & _ & _ & ->). }
  split.
  - intros sel Hsel Hne Hshow Hin.
    apply Hlive in Hin as (m & Hm & Hscene). exists m. split; [done |].
    rewrite Hmeshes in Hm. rewrite He' at 1 3. unfold updateGizmo.
    rewrite Hsel, Hshow. simpl. rewrite bool_decide_eq_true_2 by done. simpl.
    rewrite Hm. simpl. done.
  - intros Hoff. rewrite He'. unfold updateGizmo.
    destruct (truthy (selectedId st) && showGizmo st) eqn:Hon; [| by rewrite <- Hmode].
    apply andb_true_iff in Hon as [Htruthy Hshow].
    destruct Hoff as [Hoff | [Hoff | (sel & Hsel & Hnotin)]]; [congruence | congruence |].
    rewrite Hsel. simpl.
    assert (Hnone : meshes synced !! sel = None).
    { rewrite <- Hmeshes. apply not_elem_of_dom. rewrite Hdom.
      by rewrite elem_of_list_to_set. }
    rewrite Hnone. by rewrite <- Hmode.
Qed.

Lemma gizmo_follows_selection_witness :
  attached (updateObjectsEffect (set_selectedId None initialState)
              (updateObjectsEffect initialState mounted).1).1 = None.
Proof.
  refine (proj1 (proj2 (gizmo_follows_selection (set_selectedId None initialState)
                          (updateObjectsEffect initialState mounted).1 _ _) _)).
  - by rewrite pass_initialized.
  - apply pass_wf, mounted_wf.
  - right. left. reflexivity.
Defined.

(** ** ObjectStore: edges and composition *)

Lemma set_objects_same (st : AppState) : set_objects (objects st) st = st.
Proof. by destruct st. Qed.

Lemma fmap_unselected (f : ShapeObject.t → ShapeObject.t) (sel : option string)
    (objs : list ShapeObject.t) :
  (∀ o, o ∈ objs → Some (ShapeObject.id o) ≠ sel) →
  (λ o, if decide (Some (ShapeObject.id o) = sel) then f o else o) <$> objs = objs.
Proof.
  intros Hall. rewrite <- (list_fmap_id objs) at 2. apply list_fmap_ext.
  intros i o Ho. rewrite decide_False; [done |]. apply Hall. by eapply list_elem_of_lookup_2.
Qed.

(** X16: an update with nothing to update is a no-op. When the selection is
    [null] or the empty string, or names no object of the store,
    [updateSelectedObject] leaves the whole state as it is. *)
Theorem updateSelectedObject_unselected (updates : list Field) (st : AppState) :
  (truthy (selectedId st) = false
   ∨ ∃ sel, selectedId st = Some sel ∧ sel ∉ ids (objects st)) →
  updateSelectedObject updates st = st.
Proof.
  intros Hno. unfold updateSelectedObject.
  destruct (truthy (selectedId st)) eqn:Htruthy; simpl; [| done].
  destruct Hno as [? | (sel & Hsel & Hnotin)]; [done |].
  rewrite fmap_unselected; [apply set_objects_same |].
  intros o Ho Heq. apply Hnotin. rewrite Hsel in Heq. injection Heq as <-.
  apply list_elem_of_fmap. by exists o.
Qed.

Lemma updateSelectedObject_unselected_witness :
  updateSelectedObject [f_radius 9] (set_selectedId (Some "gone"%string) initialState)
  = set_selectedId (Some "gone"%string) initialState.
Proof.
  apply updateSelectedObject_unselected. right. exists "gone"%string.
  split; [reflexivity |]. simpl. set_solver.
Defined.

(** X17: two updates in a row are one update with the keys of the first
    followed by those of the second, provided the first does not write the
    [id] key. *)
Theorem updateSelectedObject_compose (u1 u2 : list Field) (st : AppState) :
  (∀ v, f_id v ∉ u1) →
  updateSelectedObject u2 (updateSelectedObject u1 st)
  = updateSelectedObject (u1 ++ u2) st.
Proof.
  intros Hno. unfold updateSelectedObject.
  destruct (truthy (selectedId st)) eqn:Htruthy; simpl; [| by rewrite Htruthy].
  rewrite Htruthy. simpl. unfold set_objects. simpl. f_equal.
  rewrite <- list_fmap_compose. apply list_fmap_ext. intros i o _. simpl.
  destruct (decide (Some (ShapeObject.id o) = selectedId st)) as [Hsel | Hsel].
  - rewrite spread_id by done. rewrite decide_True by done.
    unfold spread. by rewrite foldl_app.
  - by rewrite decide_False.
Qed.

Lemma updateSelectedObject_compose_witness :
  updateSelectedObject [f_radius 4] (updateSelectedObject [f_color "#ff0000"] initialState)
  = updateSelectedObject [f_color "#ff0000"; f_radius 4] initialState.
Proof.
  apply (updateSelectedObject_compose [f_color "#ff0000"] [f_radius 4] initialState).
  intros v Hin. apply list_elem_of_singleton in Hin. discriminate.
Defined.

(** X18: with unique ids an update touches one object only. If the
    selection is the id of the object [obj] of the store and the update
    does not write the [id] key, the store afterwards is the old one with
    [obj] replaced, in place, by [obj] with the update's keys copied over
    it; the ids, the selection and the rest of the state are unchanged. *)
Theorem updateSelectedObject_in_place (updates : list Field) (st : AppState)
    (obj : ShapeObject.t) (l1 l2 : list ShapeObject.t) :
  uniqueIds st → objects st = l1 ++ obj :: l2 →
  selectedId st = Some (ShapeObject.id obj) → ShapeObject.id obj ≠ ""%string →
  (∀ v, f_id v ∉ updates) →
  updateSelectedObject updates st = set_objects (l1 ++ spread obj updates :: l2) st
  ∧ ids (objects (updateSelectedObject updates st)) = ids (objects st).
Proof.
  intros Hu Hsplit Hsel Hne Hno.
  assert (Hnd : NoDup (ids l1 ++ ShapeObject.id obj :: ids l2)).
  { unfold uniqueIds in Hu. rewrite Hsplit in Hu. unfold ids in *.
    by rewrite fmap_app, fmap_cons in Hu. }
  apply NoDup_app in Hnd as (Hnd1 & Hdisj & [Hnot2 Hnd2]%NoDup_cons).
  assert (Hobjs : updateSelectedObject updates st
                  = set_objects (l1 ++ spread obj updates :: l2) st).
  { unfold updateSelectedObject. rewrite Hsel. simpl.
    rewrite bool_decide_eq_true_2 by done. simpl. f_equal.
    rewrite Hsplit, fmap_app, fmap_cons, decide_True by done.
    rewrite !fmap_unselected; [done | |].
    - intros o Ho [= Heq]. apply Hnot2. rewrite <- Heq. apply list_elem_of_fmap. by exists o.
    - intros o Ho [= Heq]. apply (Hdisj (ShapeObject.id o)).
      + apply list_elem_of_fmap. by exists o.
      + rewrite Heq. left. }
  split; [done |]. rewrite Hobjs, Hsplit. simpl. unfold ids.
  rewrite !fmap_app, !fmap_cons. by rewrite spread_id.
Qed.

Lemma updateSelectedObject_in_place_witness :
  let st := set_selectedId (Some "1"%string) (addObject sampleDraws initialState) in
  updateSelectedObject [f_height 7] st
  = set_objects ([] ++ spread initialObject [f_height 7]
                       :: [newObject sampleDraws [initialObject]]) st.
Proof.
  intros st.
  apply (updateSelectedObject_in_place [f_height 7] st initialObject []
           [newObject sampleDraws [initialObject]]).
  - unfold uniqueIds. simpl. apply (bool_decide_unpack _). vm_compute. reflexivity.
  - reflexivity.
  - reflexivity.
  - simpl. discriminate.
  - intros v Hin. apply list_elem_of_singleton in Hin. discriminate.
Defined.

(** X19: [addObject] appends one object and selects it: the old objects
    stay, in order, in front of the new one, whose id is the drawn one, so
    the selection names an object of the store, and the ids stay unique when
    the drawn id is new. For draws in [[0, 1)] the new object sits at height
    2 inside the square [-5 <= x < 5], [-5 <= z < 5], and so does its
    home. *)
Theorem addObject_appends (d : AddDraws) (st : AppState) :
  0 <= draw_position_x d < 1 → 0 <= draw_position_z d < 1 →
  0 <= draw_original_x d < 1 → 0 <= draw_original_z d < 1 →
  let o := newObject d (objects st) in
  objects (addObject d st) = objects st ++ [o]
  ∧ selectedId (addObject d st) = Some (draw_id d)
  ∧ draw_id d ∈ ids (objects (addObject d st))
  ∧ (uniqueIds st → draw_id d ∉ ids (objects st) → uniqueIds (addObject d st))
  ∧ (-5 <= (ShapeObject.position o).1.1 < 5 ∧ (ShapeObject.position o).1.2 = 2
     ∧ -5 <= (ShapeObject.position o).2 < 5)
  ∧ (-5 <= (ShapeObject.originalPosition o).1.1 < 5
     ∧ (ShapeObject.originalPosition o).1.2 = 2
     ∧ -5 <= (ShapeObject.originalPosition o).2 < 5).
Proof.
  intros Hx Hz Hox Hoz o. split; [done |]. split; [done |]. split; [| split].
  - simpl. unfold ids. rewrite fmap_app. apply elem_of_app. right. simpl. left.
  - intros Hu Hfresh. by apply (applyOp_uniqueIds st (op_addObject d)).
  - simpl. repeat split; lra.
Qed.

Lemma addObject_appends_witness :
  objects (addObject sampleDraws initialState)
  = objects initialState ++ [newObject sampleDraws (objects initialState)]
  ∧ selectedId (addObject sampleDraws initialState) = Some "k3x9q0w2a"%string.
Proof.
  destruct (addObject_appends sampleDraws initialState) as (Hobjs & Hsel & _);
    [simpl; lra | simpl; lra | simpl; lra | simpl; lra |].
  split; [exact Hobjs | exact Hsel].
Defined.

(** X20: [createSolarSystem] replaces the store, whatever it held and
    whatever is drawn, by five objects with five different ids, the sun
    first and selected; the four planets are in orbit mode around the
    origin with a range equal to the [x] of their stored position, which is
    positive, so each starts on its own orbit. *)
Theorem createSolarSystem_store (d : SolarDraws) (st : AppState) :
  let st' := createSolarSystem d st in
  length (objects st') = 5%nat
  ∧ uniqueIds st'
  ∧ head (objects st') = Some (sun d)
  ∧ selectedId st' = Some (ShapeObject.id (sun d))
  ∧ (∀ st0, objects (createSolarSystem d st0) = objects st')
  ∧ ∀ o, o ∈ tail (objects st') →
      ShapeObject.movementMode o = mode_orbit
      ∧ ShapeObject.originalPosition o = (0, 0, 0)
      ∧ ShapeObject.position o = (ShapeObject.movementRange o, 0, 0)
      ∧ 0 < ShapeObject.movementRange o.
Proof.
  intros st'. split; [done |]. split; [apply createSolarSystem_uniqueIds |].
  split; [done |]. split; [done |]. split; [done |].
  intros o Ho. simpl in Ho.
  repeat (apply elem_of_cons in Ho as [-> | Ho]; [simpl; repeat split; lra |]).
  by apply elem_of_nil in Ho.
Qed.

(** X21: [deleteObject] removes the named object and nothing else. Called
    with an id that is not in the store, and not the selected one, it
    returns the state unchanged; called on a store of more than one object
    with unique ids for the object [obj], it returns the store without
    [obj], the other objects in their order, and the id is gone. *)
Theorem deleteObject_exact (id : string) (st : AppState) :
  (id ∉ ids (objects st) → selectedId st ≠ Some id → deleteObject id st = Normal st)
  ∧ (∀ obj l1 l2, uniqueIds st → objects st = l1 ++ obj :: l2 →
       ShapeObject.id obj = id → (1 < length (objects st))%nat →
       objects (completion_state (deleteObject id st)) = l1 ++ l2
       ∧ id ∉ ids (objects (completion_state (deleteObject id st)))).
Proof.
  split.
  - intros Hnotin Hsel. unfold deleteObject. case_decide; [done |].
    rewrite decide_False by done. f_equal.
    rewrite filter_all; [apply set_objects_same |].
    intros o Ho Heq. apply Hnotin. rewrite <- Heq. apply list_elem_of_fmap. by exists o.
  - intros obj l1 l2 Hu Hsplit Hid Hlen.
    assert (Hnd : NoDup (ids l1 ++ ShapeObject.id obj :: ids l2)).
    { unfold uniqueIds in Hu. rewrite Hsplit in Hu. unfold ids in *.
      by rewrite fmap_app, fmap_cons in Hu. }
    apply NoDup_app in Hnd as (Hnd1 & Hdisj & [Hnot2 Hnd2]%NoDup_cons).
    assert (Hobjs : objects (completion_state (deleteObject id st)) = l1 ++ l2).
    { rewrite deleteObject_objects by done.
      rewrite Hsplit, filter_app, filter_cons, decide_False by (intros Hne; by apply Hne).
      rewrite !filter_all; [done | |].
      - intros o Ho Heq. apply Hnot2. rewrite Hid, <- Heq. apply list_elem_of_fmap. by exists o.
      - intros o Ho Heq. apply (Hdisj (ShapeObject.id o)).
        + apply list_elem_of_fmap. by exists o.
        + rewrite Heq, Hid. left. }
    split; [done |]. rewrite Hobjs. unfold ids. rewrite fmap_app. intros Hin.
    apply elem_of_app in Hin as [Hin | Hin].
    + apply (Hdisj _ Hin). rewrite Hid. left.
    + apply Hnot2. by rewrite Hid.
Qed.

Lemma deleteObject_exact_witness :
  let st := addObject sampleDraws initialState in
  objects (completion_state (deleteObject "1" st))
  = [] ++ [newObject sampleDraws [initialObject]].
Proof.
  intros st.
  refine (proj1 (proj2 (deleteObject_exact "1" st) initialObject []
                   [newObject sampleDraws [initialObject]] _ _ _ _)).
  - unfold uniqueIds. simpl. apply (bool_decide_unpack _). vm_compute. reflexivity.
  - reflexivity.
  - reflexivity.
  - simpl. lia.
Defined.

Lemma Vector3_set_components (v : Vector3.t) :
  Vector3.set (Vector3.x v, Vector3.y v, Vector3.z v) = v.
Proof. by destruct v. Qed.

(** The objects after a gizmo change with a selection that is not falsy. *)
Lemma objectChange_objects (mesh : Mesh.t) (st : AppState) (sel : string) :
  selectedId st = Some sel → sel ≠ ""%string →
  objects (objectChange mesh st)
  = (λ o, if decide (Some (ShapeObject.id o) = Some sel)
          then spread o
                 [f_position (Vector3.x (Mesh.position mesh), Vector3.y (Mesh.position mesh),
                              Vector3.z (Mesh.position mesh));
                  f_rotation (Vector3.x (Mesh.rotation mesh), Vector3.y (Mesh.rotation mesh),
                              Vector3.z (Mesh.rotation mesh));
                  f_scale (Vector3.x (Mesh.scale mesh), Vector3.y (Mesh.scale mesh),
                           Vector3.z (Mesh.scale mesh));
                  f_originalPosition (Vector3.x (Mesh.position mesh),
                                      Vector3.y (Mesh.position mesh),
                                      Vector3.z (Mesh.position mesh))]
          else o) <$> objects st.
Proof.
  intros Hsel Hne. unfold objectChange. rewrite Hsel. simpl.
  by rewrite bool_decide_eq_true_2.
Qed.

(** X22: a gizmo change survives reconciliation. When the transform gizmo
    reports a change of the selected object's mesh, the stored object takes
    the mesh's position, rotation and scale and its home becomes the new
    position, every other object and all ids are untouched; the pass that
    follows leaves the node exactly where the gizmo put it. *)
Theorem objectChange_round_trip (st : AppState) (e : Engine) (obj : ShapeObject.t)
    (mesh : Mesh.t) :
  isInitialized e = true → uniqueIds st → obj ∈ objects st →
  selectedId st = Some (ShapeObject.id obj) → ShapeObject.id obj ≠ ""%string →
  meshes e !! ShapeObject.id obj = Some mesh →
  let st' := objectChange mesh st in
  ids (objects st') = ids (objects st)
  ∧ (∀ o, o ∈ objects st → ShapeObject.id o ≠ ShapeObject.id obj → o ∈ objects st')
  ∧ (∃ obj', obj' ∈ objects st' ∧ ShapeObject.id obj' = ShapeObject.id obj
             ∧ Vector3.set (ShapeObject.position obj') = Mesh.position mesh
             ∧ Vector3.set (ShapeObject.rotation obj') = Mesh.rotation mesh
             ∧ Vector3.set (ShapeObject.scale obj') = Mesh.scale mesh
             ∧ ShapeObject.originalPosition obj' = ShapeObject.position obj'
             ∧ ShapeObject.movementMode obj' = ShapeObject.movementMode obj)
  ∧ (∃ m', meshes (updateObjectsEffect st' e).1 !! ShapeObject.id obj = Some m'
           ∧ Mesh.position m' = Mesh.position mesh
           ∧ Mesh.rotation m' = Mesh.rotation mesh
           ∧ Mesh.scale m' = Mesh.scale mesh
           ∧ Mesh.node m' = Mesh.node mesh).
Proof.
  intros Hinit Hu Hobj Hsel Hne Hmesh st'.
  pose proof (objectChange_objects mesh st _ Hsel Hne) as Hobjs. fold st' in Hobjs.
  assert (Hids : ids (objects st') = ids (objects st)).
  { rewrite Hobjs. apply ids_fmap_preserved. intros o. case_decide; [| done].
    by destruct o. }
  assert (Hin' : spread obj
                   [f_position (Vector3.x (Mesh.position mesh), Vector3.y (Mesh.position mesh),
                                Vector3.z (Mesh.position mesh));
                    f_rotation (Vector3.x (Mesh.rotation mesh), Vector3.y (Mesh.rotation mesh),
                                Vector3.z (Mesh.rotation mesh));
                    f_scale (Vector3.x (Mesh.scale mesh), Vector3.y (Mesh.scale mesh),
                             Vector3.z (Mesh.scale mesh));
                    f_originalPosition (Vector3.x (Mesh.position mesh),
                                        Vector3.y (Mesh.position mesh),
                                        Vector3.z (Mesh.position mesh))] ∈ objects st').
  { rewrite Hobjs. apply list_elem_of_fmap. exists obj. by rewrite decide_True. }
  set (obj' := spread obj _) in Hin'.
  assert (Hfields : ShapeObject.id obj' = ShapeObject.id obj
             ∧ Vector3.set (ShapeObject.position obj') = Mesh.position mesh
             ∧ Vector3.set (ShapeObject.rotation obj') = Mesh.rotation mesh
             ∧ Vector3.set (ShapeObject.scale obj') = Mesh.scale mesh
             ∧ ShapeObject.originalPosition obj' = ShapeObject.position obj'
             ∧ ShapeObject.movementMode obj' = ShapeObject.movementMode obj).
  { unfold obj'. destruct obj. simpl. unfold Vector3.set. simpl.
    by destruct (Mesh.position mesh), (Mesh.rotation mesh), (Mesh.scale mesh). }
  split; [done |]. split; [| split].
  - intros o Ho Hneq. rewrite Hobjs. apply list_elem_of_fmap. exists o.
    rewrite decide_False; [done |]. by intros [= ?].
  - by exists obj'.
  - destruct Hfields as (Hid & Hp & Hr & Hs & _).
    exists (updatedMesh mesh obj'). split.
    + rewrite <- Hid. apply pass_updates_mesh; [done | | done | by rewrite Hid].
      unfold uniqueIds. by rewrite Hids.
    + destruct (updatedMesh_transform mesh obj') as (-> & -> & -> & _ & _ & ->).
      by rewrite Hp, Hr, Hs.
Qed.

Lemma objectChange_round_trip_witness :
  let dragged := with_position (Vector3.mk 3 1 (-2)) (newMesh 0 initialObject) in
  let e := set_meshes <["1"%string := dragged]> mounted in
  ∃ m', meshes (updateObjectsEffect (objectChange dragged initialState) e).1 !! "1" = Some m'
        ∧ Mesh.position m' = Vector3.mk 3 1 (-2).
Proof.
  intros dragged e.
  destruct (objectChange_round_trip initialState e initialObject dragged)
    as (_ & _ & _ & (m' & Hm' & Hp & _)).
  - reflexivity.
  - unfold uniqueIds. simpl. apply NoDup_singleton.
  - simpl. left.
  - reflexivity.
  - simpl. discriminate.
  - unfold e. simpl. by rewrite lookup_insert_eq.
  - exists m'. split; [exact Hm' | exact Hp].
Defined.

(** X23: the returning-mode commit can run late or twice without harm. Run
    for an id that is no longer in the store it changes nothing; run a
    second time it changes nothing more; and it never changes an id. *)
Theorem runTimer_safe (t : Timer) (st : AppState) :
  (timer_id t ∉ ids (objects st) → runTimer t st = st)
  ∧ runTimer t (runTimer t st) = runTimer t st
  ∧ ids (objects (runTimer t st)) = ids (objects st).
Proof.
  assert (Hids : ∀ s, ids (objects (runTimer t s)) = ids (objects s)).
  { intros s. unfold runTimer. simpl. apply ids_fmap_preserved. intros o.
    case_decide; [| done]. by destruct o. }
  split; [| split; [| done]].
  - intros Hnotin. unfold runTimer.
    assert (Hsame : (λ o, if decide (ShapeObject.id o = timer_id t)
                          then spread o [f_position (timer_home t); f_movementMode mode_none]
                          else o) <$> objects st = objects st).
    { rewrite <- (list_fmap_id (objects st)) at 2. apply list_fmap_ext. intros i o Ho.
      rewrite decide_False; [done |]. intros Heq. apply Hnotin. rewrite <- Heq.
      apply list_elem_of_fmap. exists o. split; [done |]. by eapply list_elem_of_lookup_2. }
    rewrite Hsame. apply set_objects_same.
  - unfold runTimer. simpl. unfold set_objects. simpl. f_equal.
    rewrite <- list_fmap_compose. apply list_fmap_ext. intros i o _. simpl.
    destruct (decide (ShapeObject.id o = timer_id t)) as [Heq | Hne].
    + rewrite decide_True by (by destruct o). by destruct o.
    + by rewrite decide_False.
Qed.

Lemma runTimer_safe_witness :
  runTimer (mkTimer "gone" (1, 2, 3)) initialState = initialState.
Proof.
  apply (proj1 (runTimer_safe (mkTimer "gone" (1, 2, 3)) initialState)).
  simpl. set_solver.
Defined.

Lemma pass_timers (st : AppState) (e : Engine) :
  timers (updateObjectsEffect st e).1 = timers e.
Proof.
  unfold updateObjectsEffect. destruct (isInitialized e) eqn:Hinit; simpl; [| done].
  destruct (updateGizmo_meshes st
    (foldl syncObject
       (foldl (removeStale (list_to_set (ids (objects st)))) (e, [])
          (map_to_list (meshes e))) (objects st)).1) as (_ & _ & _ & _ & ->).
  destruct (sync_fold_rest (objects st)
    (foldl (removeStale (list_to_set (ids (objects st)))) (e, [])
       (map_to_list (meshes e)))) as (_ & -> & _).
  by destruct (removeStale_fold_rest (list_to_set (ids (objects st)))
    (map_to_list (meshes e)) (e, [])) as (_ & _ & -> & _).
Qed.

(** X24: once the commit has run, the object rests at home. After the
    commit of a returning object's timer, the pass and any number of frames
    over the new store leave the object's node exactly at the home, and the
    frames set no further timer unless another object is returning. *)
Theorem commit_then_rest (nows : list R) (st : AppState) (e : Engine) (obj : ShapeObject.t) :
  isInitialized e = true → uniqueIds st → obj ∈ objects st →
  is_Some (meshes e !! ShapeObject.id obj) →
  let st' := runTimer (mkTimer (ShapeObject.id obj) (ShapeObject.originalPosition obj)) st in
  let e' := frames nows st' (updateObjectsEffect st' e).1 in
  nodePosition e' (ShapeObject.id obj)
  = Some (Vector3.set (ShapeObject.originalPosition obj))
  ∧ ((∀ o, o ∈ objects st → ShapeObject.id o ≠ ShapeObject.id obj →
           ShapeObject.movementMode o ≠ mode_returning) →
     timers e' = timers e).
Proof.
  intros Hinit Hu Hobj Hmesh st' e'.
  set (rest := spread obj [f_position (ShapeObject.originalPosition obj);
                           f_movementMode mode_none]).
  assert (Hid : ShapeObject.id rest = ShapeObject.id obj) by (by destruct obj).
  assert (Hu' : uniqueIds st').
  { unfold uniqueIds, st'. by rewrite (proj2 (proj2 (runTimer_safe _ st))). }
  assert (Hrest : rest ∈ objects st').
  { unfold st', runTimer. simpl. apply list_elem_of_fmap. exists obj.
    by rewrite decide_True. }
  split.
  - rewrite <- Hid. apply none_mode_static; [done | done | by destruct obj |].
    rewrite (pass_position st' e rest Hinit Hu' Hrest); [by destruct obj |].
    by rewrite Hid.
  - intros Hothers.
    destruct (timers_only_from_returning nows st' (updateObjectsEffect st' e).1) as [_ Heq].
    fold e' in Heq. rewrite Heq.
    + apply pass_timers.
    + intros o' Ho'. unfold st', runTimer in Ho'. simpl in Ho'.
      apply list_elem_of_fmap in Ho' as (o & -> & Ho).
      case_decide as Heq'; [by destruct o |]. by apply Hothers.
Qed.

Lemma commit_then_rest_witness :
  let st := set_objects [returner] initialState in
  let st' := runTimer (mkTimer "1" (0, 0, 0)) st in
  nodePosition (frames [0; 16; 33] st' (updateObjectsEffect st' (stageOf returner)).1) "1"
  = Some (Vector3.mk 0 0 0).
Proof.
  intros st st'.
  refine (proj1 (commit_then_rest [0; 16; 33] st (stageOf returner) returner _ _ _ _)).
  - unfold stageOf. by rewrite !pass_initialized.
  - unfold uniqueIds. simpl. apply NoDup_singleton.
  - simpl. left.
  - pose proof (stageOf_position returner) as Hp. unfold nodePosition in Hp.
    destruct (meshes (stageOf returner) !! ShapeObject.id returner); [eauto | done].
Defined.

Lemma environments_snoc (history : list EnvironmentPreset) (environment : EnvironmentPreset)
    (sceneRef : option Lighting) :
  environments (history ++ [environment]) sceneRef
  = environmentEffect environment (environments history sceneRef).
Proof. unfold environments. by rewrite foldl_app. Qed.

Lemma set_intensity_same_color (i : R) (a b : option Light.t) :
  Light.color <$> a = Light.color <$> b → set_intensity i <$> a = set_intensity i <$> b.
Proof.
  destruct a as [[ia ca]|], b as [[ib cb]|]; simpl; try done.
  intros [= ->]. done.
Qed.

Lemma const_fmap_same_presence {A B} (c : B) (a b : option A) :
  (is_Some a ↔ is_Some b) → (λ _, c) <$> a = (λ _, c) <$> b.
Proof.
  destruct a, b; simpl; try done.
  - intros [H _]. destruct H as [? [=]]. eauto.
  - intros [_ H]. destruct H as [? [=]]. eauto.
Qed.

(** What a history of presets leaves of the lights it started from. *)
Lemma environments_invariant (history : list EnvironmentPreset) (scene : Lighting) :
  ∃ s', environments history (Some scene) = Some s'
        ∧ Light.color <$> ambient s' = Light.color <$> ambient scene
        ∧ (is_Some (main s') ↔ is_Some (main scene))
        ∧ (is_Some (point s') ↔ is_Some (point scene))
        ∧ Light.color <$> point s'
          = if bool_decide (neon ∈ history) then (λ _, 0x00ffff%N) <$> point scene
            else Light.color <$> point scene.
Proof.
  induction history as [| environment history IH] using rev_ind.
  - exists scene. split_and!; try done.
  - destruct IH as (s & Hs & Hamb & Hmain & Hpoint & Hcol).
    rewrite environments_snoc, Hs.
    assert (Hfmap : ∀ (f : Light.t → Light.t) (o : option Light.t),
              is_Some (f <$> o) ↔ is_Some o).
    { intros f o. by rewrite fmap_is_Some. }
    assert (Hcolor : ∀ i (o : option Light.t),
              Light.color <$> (set_intensity i <$> o) = Light.color <$> o).
    { intros i [[? ?]|]; done. }
    assert (Hother : ∀ x, x ≠ neon →
              bool_decide (neon ∈ history ++ [x]) = bool_decide (neon ∈ history)).
    { intros x Hx. apply bool_decide_ext.
      rewrite elem_of_app, list_elem_of_singleton. naive_solver. }
    assert (Hneon : bool_decide (neon ∈ history ++ [neon]) = true).
    { apply bool_decide_eq_true_2. rewrite elem_of_app, list_elem_of_singleton. by right. }
    destruct environment; simpl; eexists; (split; [reflexivity |]); simpl;
      rewrite ?Hcolor, ?Hfmap, ?Hneon, ?Hother by done; split_and!; try done.
    rewrite <- !option_fmap_compose. by apply const_fmap_same_presence.
Qed.

(** X25: the look of a preset depends on the presets chosen before it only
    through the colour of the point light. After any history of presets the
    background, the ambient light, the main light and the intensity of the
    point light are those the last preset gives the scene directly; the
    colour of the point light is the cyan of the neon preset as soon as neon
    was chosen once, and the colour it had before otherwise, because no
    other preset writes it. *)
Theorem environment_last_wins (history : list EnvironmentPreset)
    (environment : EnvironmentPreset) (scene : Lighting) :
  ∃ s' s1,
    environments (history ++ [environment]) (Some scene) = Some s'
    ∧ environmentEffect environment (Some scene) = Some s1
    ∧ background s' = background s1
    ∧ ambient s' = ambient s1
    ∧ main s' = main s1
    ∧ Light.intensity <$> point s' = Light.intensity <$> point s1
    ∧ Light.color <$> point s'
      = if bool_decide (neon ∈ history ++ [environment])
        then (λ _, 0x00ffff%N) <$> point scene
        else Light.color <$> point scene.
Proof.
  destruct (environments_invariant (history ++ [environment]) scene)
    as (s' & Hs' & _ & _ & _ & Hcol).
  destruct (environments_invariant history scene) as (s & Hs & Hamb & Hmain & Hpoint & _).
  exists s'. rewrite Hs'. rewrite environments_snoc, Hs in Hs'.
  assert (Hint : ∀ i (a b : option Light.t), (is_Some a ↔ is_Some b) →
            Light.intensity <$> (set_intensity i <$> a)
            = Light.intensity <$> (set_intensity i <$> b)).
  { intros i a b Hab. rewrite <- !option_fmap_compose.
    by apply (const_fmap_same_presence i). }
  destruct environment; simpl in *; injection Hs' as <-; eexists;
    (split; [reflexivity |]); (split; [reflexivity |]); simpl;
    split_and!; try done;
    try (by apply set_intensity_same_color);
    try (by apply const_fmap_same_presence);
    try (by apply Hint).
  rewrite <- !option_fmap_compose. by apply (const_fmap_same_presence 2).
Qed.

Lemma deleteObjectOf_current (id : string) (st : AppState) :
  deleteObjectOf st id st = deleteObject id st.
Proof. reflexivity. Qed.


Module SingleShapeFacts.
Import SingleShape.




End SingleShapeFacts.


(** X28: the editor's geometry table is the viewer's with the segment
    control switched off. For a shape whose segment control is off, or whose
    kind has a fixed number of sides (cube, pyramid, the prisms and the
    polyhedra), the geometry the viewer builds is the one [createGeometry]
    builds from the kind, the radius and the height; the segment count has
    no influence on it. *)
Theorem shapeGeometry_createGeometry (s : SingleShape.Shape) :
  SingleShape.enableSegments s = false
  ∨ SingleShape.shapeType s
    ∈ ["cube"; "pyramid"; "prism"; "pentagonalPrism"; "hexagonalPrism"; "octagonalPrism";
       "tetrahedron"; "dodecahedron"; "icosahedron"]%string →
  SingleShape.shapeGeometry s
  = createGeometry (SingleShape.shapeType s) (SingleShape.radius s) (SingleShape.height s).
Proof.
  intros [Hoff | Hkind].
  - unfold SingleShape.shapeGeometry, createGeometry. by rewrite Hoff.
  - unfold SingleShape.shapeGeometry, createGeometry.
    repeat (apply elem_of_cons in Hkind as [-> | Hkind]; [done |]).
    by apply elem_of_nil in Hkind.
Qed.

Lemma shapeGeometry_createGeometry_witness :
  SingleShape.shapeGeometry (SingleShape.mkShape "pyramid" 3 4 true 12 "#6366f1" tex_noise)
  = ConeGeometry 3 4 4.
Proof.
  refine (shapeGeometry_createGeometry
            (SingleShape.mkShape "pyramid" 3 4 true 12 "#6366f1" tex_noise) _).
  right. simpl. set_solver.
Defined.

